(** * BDRAM scanner: a shallow embedding of the pointer-graph pipeline.

    Sources embedded here:
    - [js/core.js]          : [Config.systems], [Config.getRanges],
                              [Config.getAddressRangeIndex],
                              [CoreUtils.formatHex], [CoreUtils.parseHex],
                              [CoreUtils.isValidHex], [CoreUtils.countBits],
                              [CoreUtils.validateCsvRow], [EventBus];
    - [js/list-detector.js] : [Preprocessor] (addBatch, removeBatch,
                              getCounts, collapse, _classify,
                              _buildRecommendation), [detectStaticLists],
                              [detectDynamicLists], [_dominantStride];
    - chain walker          : [walkChainsAtOffset], [resolveChainConflicts];
    - forward scanner       : [buildTraversalBitmaps],
                              [scanSingleBasePointer], [scanBasePointerDepth].

    JavaScript numbers used as addresses and pointer values are modelled as
    [Z]; the places where the source goes through the 32-bit signed
    conversion of the bitwise operators or of an [Int32Array] apply
    [toInt32] explicitly.  A JS [Set] or [Map] whose iteration order
    matters is a list in insertion order; the preprocessor's node map,
    whose order never matters for the counts, is a [gmap]. *)

From Stdlib Require Import ZArith String Ascii Lia.
From stdpp Require Import base gmap list strings.

Open Scope Z_scope.

(* ===================================================================== *)
(** ** Shared helpers *)
(* ===================================================================== *)

(** ToInt32 of the ECMAScript spec (on integral numbers). *)
Definition toInt32 (z : Z) : Z :=
  let m := z mod 2 ^ 32 in if 2 ^ 31 <=? m then m - 2 ^ 32 else m.

(** ToUint32, i.e. [x >>> 0]. *)
Definition toUint32 (z : Z) : Z := z mod 2 ^ 32.

(** [Set.prototype.has] on a set kept as a list. *)
Definition mem (a : Z) (s : list Z) : bool := existsb (Z.eqb a) s.

(** [Set.prototype.add]: appended when absent. *)
Definition set_add (a : Z) (s : list Z) : list Z :=
  if mem a s then s else s ++ [a].

(** [Set.prototype.delete]. *)
Definition set_del (a : Z) (s : list Z) : list Z :=
  List.filter (fun x => negb (Z.eqb a x)) s.

(** [Map.prototype.get] on an association list built by successive
    [Map.set] calls: the last binding of a key wins. *)
Fixpoint assoc_get {A} (k : Z) (m : list (Z * A)) : option A :=
  match m with
  | [] => None
  | (k', v) :: m' =>
      match assoc_get k m' with
      | Some w => Some w
      | None => if Z.eqb k k' then Some v else None
      end
  end.

(* ===================================================================== *)
(** ** System catalogue ([Config] in js/core.js) *)
(* ===================================================================== *)

Inductive SystemId :=
  n64 | ps1 | ps2 | psp | gba | ds | dsi | gamecube | wii | dreamcast.

#[global] Instance SystemId_eq_dec : EqDecision SystemId.
Proof. solve_decision. Defined.

Record MemRange := { mr_min : Z; mr_max : Z }.

(** [memoryRange] is an object [{min, max}] or, for Wii, an array of two. *)
Inductive MemoryRange :=
| Single (r : MemRange)
| Dual (r1 r2 : MemRange).

Record SystemConfig := {
  sys_name    : string;
  mask        : option Z;       (** [null] is [None] *)
  memoryRange : MemoryRange;
  use24Bit    : bool;
  dualRange   : bool;
  rangeMode   : string
}.

Definition mkSys n m r u24 dual mode : SystemConfig :=
  {| sys_name := n; mask := m; memoryRange := r; use24Bit := u24;
     dualRange := dual; rangeMode := mode |}.

Definition rng (lo hi : Z) : MemRange := {| mr_min := lo; mr_max := hi |}.

(** [Config.systems], entry by entry. *)
Definition systems (id : SystemId) : SystemConfig :=
  match id with
  | n64 => mkSys "Nintendo 64" None (Single (rng 0x80000000 0x807FFFFF)) true false "half"
  | ps1 => mkSys "PlayStation 1" (Some 0x001FFFFF) (Single (rng 0x80000000 0x801FFFFF)) false false "half"
  | ps2 => mkSys "PlayStation 2" None (Single (rng 0x00100000 0x01FFFFFF)) false false "quarter"
  | psp => mkSys "PlayStation Portable" (Some 0x01FFFFFF) (Single (rng 0x08000000 0x09FFFFFF)) false false "quarter"
  | gba => mkSys "Game Boy Advance" None (Single (rng 0x02000000 0x0203FFFF)) true false "full"
  | ds => mkSys "Nintendo DS" None (Single (rng 0x02000000 0x023FFFFF)) true false "quater"
  | dsi => mkSys "Nintendo DSi" None (Single (rng 0x02000000 0x02FFFFFF)) true false "quarter"
  | gamecube => mkSys "GameCube" (Some 0x17FFFFFF) (Single (rng 0x80000000 0x817FFFFF)) false false "quarter"
  | wii => mkSys "Wii" (Some 0x13FFFFFF)
             (Dual (rng 0x80000000 0x817FFFFF) (rng 0x90000000 0x93FFFFFF)) false true "wii"
  | dreamcast => mkSys "Dreamcast" None (Single (rng 0x8C000000 0x8CFFFFFF)) true false "half"
  end.

Definition all_systems : list SystemId :=
  [n64; ps1; ps2; psp; gba; ds; dsi; gamecube; wii; dreamcast].

(** [Config.getSystemMask]. *)
Definition getSystemMask (id : SystemId) : option Z := mask (systems id).

Record Range := { label : string; rmin : Z; rmax : Z }.

Definition mkRange l lo hi : Range := {| label := l; rmin := lo; rmax := hi |}.

(** [floorAlign = addr => addr & ~3]: the operands of [&] go through
    ToInt32 and [~3] is [-4]. *)
Definition floorAlign (addr : Z) : Z := Z.land (toInt32 addr) (-4).

(** [Config.getRanges].  The combinations of a mode with the other shape
    of [memoryRange] do not occur in the catalogue. *)
Definition getRanges (id : SystemId) : list Range :=
  let cfg := systems id in
  match memoryRange cfg with
  | Single r =>
      let min := mr_min r in
      let max := mr_max r in
      if String.eqb (rangeMode cfg) "full" then [mkRange "Range 1" min max]
      else if String.eqb (rangeMode cfg) "half" then
        let size := max - min + 1 in
        let mid := floorAlign (min + size / 2) in
        [mkRange "Range 1" min (mid - 4); mkRange "Range 2" mid max]
      else if String.eqb (rangeMode cfg) "quarter" then
        let size := max - min + 1 in
        let step := size / 4 in
        let q1 := floorAlign (min + step) in
        let q2 := floorAlign (min + step * 2) in
        let q3 := floorAlign (min + step * 3) in
        [mkRange "Range 1" min (q1 - 4); mkRange "Range 2" q1 (q2 - 4);
         mkRange "Range 3" q2 (q3 - 4); mkRange "Range 4" q3 max]
      else []
  | Dual mem1 mem2 =>
      if String.eqb (rangeMode cfg) "wii" then
        let mem1Size := mr_max mem1 - mr_min mem1 + 1 in
        let mem1Mid := floorAlign (mr_min mem1 + mem1Size / 2) in
        let mem2Size := mr_max mem2 - mr_min mem2 + 1 in
        let mem2Mid := floorAlign (mr_min mem2 + mem2Size / 2) in
        [mkRange "Range 1 (MEM1 Low)" (mr_min mem1) (mem1Mid - 4);
         mkRange "Range 2 (MEM1 High)" mem1Mid (mr_max mem1);
         mkRange "Range 3 (MEM2 Low)" (mr_min mem2) (mem2Mid - 4);
         mkRange "Range 4 (MEM2 High)" mem2Mid (mr_max mem2)]
      else []
  end.

(* ===================================================================== *)
(** ** CSV row validation ([CoreUtils.validateCsvRow], value part) *)
(* ===================================================================== *)

(** The checks [validateCsvRow] applies to a parsed value [v] for a system:
    4-byte alignment, then the memory-range test; for the dual-range Wii,
    bit 31 must be set and bit 28 picks the region.  The lower bound is
    [min + 1], as in the source. *)
Definition valid_value (sid : SystemId) (v : Z) : bool :=
  let cfg := systems sid in
  (Z.land (toInt32 v) 3 =? 0) &&
  match memoryRange cfg with
  | Dual r1 r2 =>
      if dualRange cfg then
        negb (Z.land (toInt32 v) (toInt32 0x80000000) =? 0) &&
        (let spec := if Z.land (toInt32 v) 0x10000000 =? 0 then r1 else r2 in
         (mr_min spec + 1 <=? v) && (v <=? mr_max spec))
      else false
  | Single r => (mr_min r + 1 <=? v) && (v <=? mr_max r)
  end.

(** A parsed batch: the rows [(addresses[i], values[i])] in file order. *)
Definition Rows := list (Z * Z).

Definition valid_rows (sid : SystemId) (rows : Rows) : Prop :=
  Forall (fun av => valid_value sid av.2 = true) rows.

(* ===================================================================== *)
(** ** Preprocessor (js/list-detector.js) *)
(* ===================================================================== *)

Definition maxBatches : nat := 10.

(** [this.nodeMap : Map<address, Int32Array(maxBatches)>]; iteration order
    never matters to the counts, so the map is a [gmap]. *)
Record PState := {
  systemId   : option SystemId;
  batchCount : nat;
  nodeMap    : gmap Z (list Z)
}.

Definition mkPState s n m : PState :=
  {| systemId := s; batchCount := n; nodeMap := m |}.

(** [reset()] *)
Definition p_reset : PState := mkPState None 0 ∅.

(** [setSystem(systemId)]: resets when the system changes. *)
Definition setSystem (st : PState) (sid : SystemId) : PState :=
  match systemId st with
  | Some s => if decide (s = sid) then st else mkPState (Some sid) 0 ∅
  | None => mkPState (Some sid) 0 ∅
  end.

(** [maskedVal = (mask !== null) ? (val & mask) >>> 0 : val] *)
Definition maskedVal (mk : option Z) (v : Z) : Z :=
  match mk with
  | Some m => toUint32 (Z.land (toInt32 v) (toInt32 m))
  | None => v
  end.

(** [valueFreq.get(v)] *)
Definition value_freq (rows : Rows) (v : Z) : nat :=
  length (List.filter (fun av => Z.eqb av.2 v) rows).

(** Pass 1 (VTable anchors, count > 10) and pass 2 (close proximity). *)
Definition keep_row (mk : option Z) (rows : Rows) (av : Z * Z) : bool :=
  let (addr, v) := av in
  if (10 <? value_freq rows v)%nat then false
  else
    let diff := addr - maskedVal mk v in
    negb ((-44 <=? diff) && (diff <=? 4)).

(** Storage of one surviving row into slot [batchIndex]. *)
Definition add_row (bi : nat) (keep : Z * Z -> bool)
    (m : gmap Z (list Z)) (av : Z * Z) : gmap Z (list Z) :=
  if keep av then
    match m !! av.1 with
    | None => <[av.1 := <[bi := toInt32 av.2]> (replicate maxBatches 0)]> m
    | Some slots => <[av.1 := <[bi := toInt32 av.2]> slots]> m
    end
  else m.

(** [addBatch(parsedBatch)]; [None] is a thrown error (state untouched). *)
Definition addBatch (st : PState) (rows : Rows) : option PState :=
  match systemId st with
  | None => None
  | Some sid =>
      if (maxBatches <=? batchCount st)%nat then None
      else
        let bi := batchCount st in
        let keep := keep_row (getSystemMask sid) rows in
        Some (mkPState (Some sid) (S bi) (foldl (add_row bi keep) (nodeMap st) rows))
  end.

(** The in-place shift of [removeBatch] on an [Int32Array(maxBatches)]:
    [slots[b] = slots[b+1]] for [b = i .. maxBatches-2], then the last slot
    is zeroed. *)
Definition shift_slots (i : nat) (slots : list Z) : list Z :=
  firstn i slots ++ skipn (S i) slots ++ [0].

Definition any_nonzero (n : nat) (slots : list Z) : bool :=
  existsb (fun x => negb (Z.eqb x 0)) (firstn n slots).

(** [removeBatch(batchIndex)] *)
Definition removeBatch (st : PState) (i : nat) : option PState :=
  if (batchCount st <=? i)%nat then None
  else
    let newCount := (batchCount st - 1)%nat in
    Some (mkPState (systemId st) newCount
            (filter (fun kv : Z * list Z => any_nonzero newCount kv.2 = true)
                    (shift_slots i <$> nodeMap st))).

Inductive Cls := StaticStatic | StaticNode | DynamicNode.

#[global] Instance Cls_eq_dec : EqDecision Cls.
Proof. solve_decision. Defined.

(** The loop of [_classify] over slots [0 .. batchCount-1]. *)
Fixpoint classify_loop (l : list Z) (firstValue : Z) (allSameValue : bool) : Cls :=
  match l with
  | [] => if allSameValue then StaticStatic else StaticNode
  | v :: l' =>
      if Z.eqb v 0 then DynamicNode
      else if Z.eqb firstValue 0 then classify_loop l' v allSameValue
      else if negb (Z.eqb v firstValue) then classify_loop l' firstValue false
      else classify_loop l' firstValue allSameValue
  end.

Definition classify (bc : nat) (slots : list Z) : Cls :=
  classify_loop (firstn bc slots) 0 true.

(** Number of map entries of a class: the [total*++] tallies. *)
Definition tally (bc : nat) (c : Cls) (m : gmap Z (list Z)) : nat :=
  size (filter (fun kv : Z * list Z => classify bc kv.2 = c) m).

(** [_getRangeIndex(ranges, address)]: [None] is [-1]. *)
Fixpoint getRangeIndex_from (i : nat) (ranges : list Range) (a : Z) : option nat :=
  match ranges with
  | [] => None
  | r :: rs => if (rmin r <=? a) && (a <=? rmax r) then Some i
               else getRangeIndex_from (S i) rs a
  end.

Definition getRangeIndex (ranges : list Range) (a : Z) : option nat :=
  getRangeIndex_from 0 ranges a.

Record RangeCount := { rc_range : Range; rc_staticNodes : nat; rc_staticStatics : nat }.

(** The recommendation; [warning] carries the Range 1 total that the
    warning text reports ([None] is [null]). *)
Record Recommendation := {
  skipSticky       : bool;
  activeRangeIndex : nat;
  warning          : option nat
}.

Definition warnBasePointerThreshold : nat := 50000.

(** [_buildRecommendation(rangeCounts, ...)] *)
Definition buildRecommendation (sysid : option SystemId) (rcs : list RangeCount) : Recommendation :=
  let mode := match sysid with Some s => rangeMode (systems s) | None => "half"%string end in
  if String.eqb mode "full" then
    {| skipSticky := false; activeRangeIndex := 0; warning := None |}
  else
    let range1Total := match rcs with
                       | r :: _ => (rc_staticNodes r + rc_staticStatics r)%nat
                       | [] => 0%nat end in
    {| skipSticky := true; activeRangeIndex := 0;
       warning := if (warnBasePointerThreshold <? range1Total)%nat then Some range1Total else None |}.

Record Counts := {
  c_batchCount    : nat;
  c_totalNodes    : nat;
  c_staticStatics : nat;
  c_staticNodes   : nat;
  c_dynamicNodes  : nat;
  c_ranges        : list RangeCount;
  c_recommendation : Recommendation
}.

Definition range_tally (bc : nat) (c : Cls) (ranges : list Range) (i : nat)
    (m : gmap Z (list Z)) : nat :=
  size (filter (fun kv : Z * list Z =>
                  classify bc kv.2 = c /\ getRangeIndex ranges kv.1 = Some i) m).

(** [getCounts()]; the cache is dropped by every mutation, so a call
    always yields the counts of the current state. *)
Definition getCounts (st : PState) : Counts :=
  let ranges := getRanges (default n64 (systemId st)) in
  let bc := batchCount st in
  let m := nodeMap st in
  let rcs := imap (fun i r =>
               {| rc_range := r;
                  rc_staticNodes := range_tally bc StaticNode ranges i m;
                  rc_staticStatics := range_tally bc StaticStatic ranges i m |}) ranges in
  {| c_batchCount := bc;
     c_totalNodes := size m;
     c_staticStatics := tally bc StaticStatic m;
     c_staticNodes := tally bc StaticNode m;
     c_dynamicNodes := tally bc DynamicNode m;
     c_ranges := rcs;
     c_recommendation := buildRecommendation (systemId st) rcs |}.

(** [slots[b] = (slots[b] & mask) >>> 0] for every non-zero slot [b < n],
    written back into the [Int32Array]. *)
Definition mask_slots (mk : option Z) (n : nat) (slots : list Z) : list Z :=
  match mk with
  | None => slots
  | Some m =>
      imap (fun b x => if (b <? n)%nat && negb (Z.eqb x 0)
                       then toInt32 (toUint32 (Z.land x m)) else x) slots
  end.

Record Collapsed := {
  co_batchCount    : nat;
  co_staticStatics : list (Z * Z);        (** address, single masked value *)
  co_staticNodes   : list (Z * list Z);   (** address, one value per batch *)
  co_dynamicNodes  : list (Z * list Z)    (** address, per batch, 0 = absent *)
}.

Fixpoint first_nonzero (l : list Z) : Z :=
  match l with [] => 0 | x :: l' => if Z.eqb x 0 then first_nonzero l' else x end.

(** [collapse()]: mask, re-classify, route each node to its partition. *)
Definition collapse (st : PState) : Collapsed :=
  let n := batchCount st in
  let mk := match systemId st with Some s => getSystemMask s | None => None end in
  let m := mask_slots mk n <$> nodeMap st in
  let part c := map_to_list (filter (fun kv : Z * list Z => classify n kv.2 = c) m) in
  {| co_batchCount := n;
     co_staticStatics := (fun kv : Z * list Z => (kv.1, first_nonzero (firstn n kv.2))) <$> part StaticStatic;
     co_staticNodes := (fun kv : Z * list Z => (kv.1, firstn n kv.2)) <$> part StaticNode;
     co_dynamicNodes := (fun kv : Z * list Z => (kv.1, firstn n kv.2)) <$> part DynamicNode |}.

(** States reachable by [setSystem] then [addBatch] / [removeBatch] calls
    on rows validated for the active system. *)
Inductive p_reachable : PState -> Prop :=
| pr_set sid : p_reachable (setSystem p_reset sid)
| pr_add st sid rows st' :
    p_reachable st -> systemId st = Some sid -> valid_rows sid rows ->
    addBatch st rows = Some st' -> p_reachable st'
| pr_remove st i st' :
    p_reachable st -> removeBatch st i = Some st' -> p_reachable st'.

(* ===================================================================== *)
(** ** Chain walker ([walkChainsAtOffset], [resolveChainConflicts]) *)
(* ===================================================================== *)

Record Chain := { ch_nodes : list Z; ch_ghosts : list Z; ch_isHead : bool }.

Record WalkOpts := {
  minChainLength : Z;
  maxGhostNodes  : nat;              (** default 0 *)
  targetPool     : option (list Z)   (** default [null] *)
}.

Record WalkResult := { wr_chains : list Chain; wr_entryPoints : list Chain }.

Section Walker.

Variable pool : list Z.
Variable offset : Z.
Variable getVal : Z -> option Z.      (** [undefined] is [None] *)
Variable opts : WalkOpts.

(** The pointed-to set, built over the pool in iteration order. *)
Definition pointedTo : list Z :=
  foldl (fun acc addr =>
           match getVal addr with
           | None => acc
           | Some v => if mem (v + offset) pool then set_add (v + offset) acc else acc
           end) [] pool.

(** [for (let g = 0; g < maxGhostNodes; g++)]: the bridge search, one
    iteration per remaining [g]; returns [(foundBridgeTarget, newGhostCount)]. *)
Fixpoint bridge (steps g : nat) (bridgeAddr : Z) : option (Z * nat) :=
  match steps with
  | O => None
  | S steps' =>
      let afterBridge := bridgeAddr + offset in
      if mem afterBridge pool then Some (afterBridge, S g)
      else bridge steps' (S g) (bridgeAddr + offset)
  end.

(** The ghost addresses [expected + k*offset] for [k < newGhostCount]. *)
Definition ghost_addrs (expected : Z) (n : nat) : list Z :=
  map (fun k => expected + Z.of_nat k * offset) (seq 0 n).

(** The [chainLoop: while (true)] body, run with [fuel] iterations at most;
    [None] means the fuel ran out.  Result: [(nodes, ghosts, hitTarget)]. *)
Fixpoint chain_loop (fuel : nat) (current : Z) (nodes ghosts visited : list Z)
    (totalGhosts : nat) : option (list Z * list Z * bool) :=
  match fuel with
  | O => None
  | S fuel' =>
      if mem current visited then Some (nodes, ghosts, false)
      else if match targetPool opts with Some tp => mem current tp | None => false end
      then Some (nodes, ghosts, true)
      else if negb (mem current pool) then Some (nodes, ghosts, false)
      else match getVal current with
      | None => Some (nodes, ghosts, false)
      | Some val =>
          let nodes' := nodes ++ [current] in
          let visited' := set_add current visited in
          let expected := val + offset in
          if mem expected pool then chain_loop fuel' expected nodes' ghosts visited' totalGhosts
          else if (maxGhostNodes opts =? 0)%nat then Some (nodes', ghosts, false)
          else match bridge (maxGhostNodes opts) 0 expected with
          | None => Some (nodes', ghosts, false)
          | Some (found, newGhostCount) =>
              if (maxGhostNodes opts <? totalGhosts + newGhostCount)%nat
              then Some (nodes', ghosts, false)
              else chain_loop fuel' found nodes'
                     (ghosts ++ ghost_addrs expected newGhostCount) visited'
                     (totalGhosts + newGhostCount)
          end
      end
  end.

(** One iteration of [for (const startAddr of pool)], with the
    accumulators [(chains, entryPoints, processed)]. *)
Definition walk_head (acc : option (list Chain * list Chain * list Z)) (startAddr : Z)
    : option (list Chain * list Chain * list Z) :=
  match acc with
  | None => None
  | Some (chains, eps, processed) =>
      if mem startAddr processed then acc
      else if mem startAddr pointedTo then acc
      else if negb (bool_decide (is_Some (getVal startAddr))) then acc
      else match chain_loop (S (length pool)) startAddr [] [] [] 0 with
      | None => None
      | Some (nodes, ghosts, hitTarget) =>
          let processed' := foldl (fun p n => set_add n p) processed nodes in
          if hitTarget && (1 <=? length nodes)%nat then
            Some (chains, eps ++ [{| ch_nodes := nodes; ch_ghosts := ghosts; ch_isHead := false |}], processed')
          else if minChainLength opts <=? Z.of_nat (length nodes) then
            Some (chains ++ [{| ch_nodes := nodes; ch_ghosts := ghosts; ch_isHead := true |}], eps, processed')
          else Some (chains, eps, processed')
      end
  end.

(** [walkChainsAtOffset(pool, offset, getVal, opts)].  Every walk is given
    [length pool + 1] iterations of the chain loop; [None] would mean that
    bound was reached. *)
Definition walkChainsAtOffset : option WalkResult :=
  match foldl walk_head (Some ([], [], [])) pool with
  | None => None
  | Some (chains, eps, _) => Some {| wr_chains := chains; wr_entryPoints := eps |}
  end.

End Walker.

(** The comparator of [group.sort]: longest first, then smallest root.
    [nodes[0]] of an empty chain is [undefined]; the subtraction is [NaN],
    which [sort] treats as [0]. *)
Definition chain_cmp (a b : Chain) : Z :=
  let lenDiff := Z.of_nat (length (ch_nodes b)) - Z.of_nat (length (ch_nodes a)) in
  if negb (lenDiff =? 0) then lenDiff
  else match ch_nodes a, ch_nodes b with
       | x :: _, y :: _ => x - y
       | _, _ => 0
       end.

(** A stable sort ([Array.prototype.sort] is stable): insertion after every
    element that does not compare greater. *)
Fixpoint insert_by {A} (cmp : A -> A -> Z) (x : A) (l : list A) : list A :=
  match l with
  | [] => [x]
  | y :: l' => if 0 <? cmp y x then x :: y :: l' else y :: insert_by cmp x l'
  end.

Definition sort_by {A} (cmp : A -> A -> Z) (l : list A) : list A :=
  foldl (fun s x => insert_by cmp x s) [] l.

Definition nat_mem (i : nat) (l : list nat) : bool := existsb (Nat.eqb i) l.
Definition nat_set_add (i : nat) (l : list nat) : list nat :=
  if nat_mem i l then l else l ++ [i].

Section Resolve.

Variable chains : list Chain.

(** [nodeToChains.get(node)]: chain indexes in push order. *)
Definition nodeToChains (node : Z) : list nat :=
  concat (imap (fun i c => map (fun _ => i) (List.filter (Z.eqb node) (ch_nodes c))) chains).

Definition conflicts_of (i : nat) (c : Chain) : list nat :=
  foldl (fun s node =>
           foldl (fun s ci => if Nat.eqb ci i then s else nat_set_add ci s) s (nodeToChains node))
        [] (ch_nodes c).

(** The body of [for (let i = 0; i < chains.length; i++)]. *)
Definition resolve_step (acc : list Chain * list nat) (ic : nat * Chain) : list Chain * list nat :=
  let (i, c) := ic in
  let (resolved, processed) := acc in
  if nat_mem i processed then acc
  else
    let group := map (fun idx => (idx, nth idx chains c)) (i :: conflicts_of i c) in
    let sorted := sort_by (fun a b => chain_cmp a.2 b.2) group in
    (foldl (fun '(res, pr) '(rank, (idx, ch)) =>
              if nat_mem idx pr then (res, pr)
              else (res ++ [{| ch_nodes := ch_nodes ch; ch_ghosts := ch_ghosts ch;
                               ch_isHead := Nat.eqb rank 0 |}], nat_set_add idx pr))
           (resolved, processed) (imap pair sorted)).

Definition resolveChainConflicts : list Chain :=
  match chains with
  | [] => []
  | [_] => chains
  | _ => (foldl resolve_step ([], []) (imap pair chains)).1
  end.

End Resolve.

(* ===================================================================== *)
(** ** Scanner state and list detection (js/list-detector.js) *)
(* ===================================================================== *)

Inductive SType := StaticList | DynamicList.

Record Structure := {
  s_id          : Z;
  s_type        : SType;
  s_root        : Z;
  s_nodeCount   : Z;
  s_stride      : Z;
  s_addresses   : list Z;
  s_ghosts      : list Z;     (** [[]] for dynamic lists (no [ghosts] key) *)
  s_buildOffset : Z;
  s_batchIdx    : option nat  (** dynamic lists only *)
}.

Record EntryPoint := {
  ep_root        : Z;
  ep_nodeCount   : Z;
  ep_addresses   : list Z;
  ep_buildOffset : Z;
  ep_path        : list Z;
  ep_batchIdx    : nat
}.

(** The part of [BDRAMScanner] that detection and the forward scan use. *)
Record Scanner := {
  sc_batches        : list Rows;            (** [batches[b].addresses/values] *)
  sc_staticStatic   : list (Z * Z);         (** [staticStaticNodes] *)
  sc_staticNodes    : list (Z * list Z);    (** [staticNodes] *)
  sc_targetNodes    : list (list Z);        (** [targetNodes[b]] *)
  sc_structures     : list Structure;
  sc_entryPoints    : list EntryPoint;
  sc_injected       : list Z;               (** [injectedTargets] *)
  sc_minChainLength : Z;
  sc_maxGhostNodes  : nat;
  sc_skipSticky     : bool;
  sc_generator      : bool;                 (** [sc.generator] is set *)
  sc_maxBreadth     : Z;                    (** [parseInt(sc.maxBreadth, 16)] *)
  sc_maxDepth       : Z;
  sc_earlyOutTarget : bool
}.

Definition with_detect (sc : Scanner) ss sn tn structs eps : Scanner :=
  {| sc_batches := sc_batches sc; sc_staticStatic := ss; sc_staticNodes := sn;
     sc_targetNodes := tn; sc_structures := structs; sc_entryPoints := eps;
     sc_injected := sc_injected sc; sc_minChainLength := sc_minChainLength sc;
     sc_maxGhostNodes := sc_maxGhostNodes sc; sc_skipSticky := sc_skipSticky sc;
     sc_generator := sc_generator sc; sc_maxBreadth := sc_maxBreadth sc;
     sc_maxDepth := sc_maxDepth sc; sc_earlyOutTarget := sc_earlyOutTarget sc |}.

(** [for (let offset = OFFSET_MIN; offset <= OFFSET_MAX; offset += OFFSET_STEP)] *)
Definition detect_offsets : list Z := map (fun k => 4 * Z.of_nat k) (seq 0 16).

(** Numeric ascending sort, [sort((a, b) => a - b)]. *)
Definition zsort (l : list Z) : list Z := sort_by (fun a b => a - b) l.

Definition assoc_del {A} (k : Z) (m : list (Z * A)) : list (Z * A) :=
  List.filter (fun kv => negb (Z.eqb kv.1 k)) m.

(** [_dominantStride(nodes)] *)
Definition dominantStride (nodes : list Z) : Z :=
  match nodes with
  | [] | [_] => 4
  | _ =>
      let gaps := zip_with (fun a b => b - a) nodes (tl nodes) in
      let freq := foldl (fun f d => match assoc_get d f with
                                    | Some n => f ++ [(d, (n + 1)%nat)]
                                    | None => f ++ [(d, 1%nat)] end) [] gaps in
      let keys := foldl (fun ks d => set_add d ks) [] gaps in
      (foldl (fun '(best, bestCount) d =>
                let n := default 0%nat (assoc_get d freq) in
                if (bestCount <? n)%nat then (d, n) else (best, bestCount))
             (4, 0%nat) keys).1
  end.

(** [targetNodes[b].add(addr)] for every [b < batches.length] and every
    [addr] of [addrs]. *)
Definition add_all_batches (nb : nat) (addrs : list Z) (tn : list (list Z)) : list (list Z) :=
  imap (fun b s => if (b <? nb)%nat then foldl (fun s a => set_add a s) s addrs else s) tn.

(** One winning chain of the static pass at one offset. *)
Definition static_accept (offset : Z) (st : Scanner * list Z * Z) (chain : Chain)
    : Scanner * list Z * Z :=
  let '(sc, pool, structId) := st in
  if negb (ch_isHead chain) then st
  else if Z.of_nat (length (ch_nodes chain)) <? sc_minChainLength sc then st
  else
    let ghosts := ch_ghosts chain in
    let s := {| s_id := structId; s_type := StaticList; s_root := hd 0 (ch_nodes chain);
                s_nodeCount := Z.of_nat (length (ch_nodes chain));
                s_stride := dominantStride (ch_nodes chain);
                s_addresses := ch_nodes chain; s_ghosts := ghosts;
                s_buildOffset := offset; s_batchIdx := None |} in
    let allNodes := ch_nodes chain ++ ghosts in
    let tn := add_all_batches (length (sc_batches sc)) allNodes (sc_targetNodes sc) in
    let pool' := foldl (fun p a => set_del a p) pool allNodes in
    let ss' := foldl (fun m a => assoc_del a m) (sc_staticStatic sc) allNodes in
    (with_detect sc ss' (sc_staticNodes sc) tn (sc_structures sc ++ [s]) (sc_entryPoints sc),
     pool', structId + 1).

Definition static_offset (st : option (Scanner * list Z * Z)) (offset : Z)
    : option (Scanner * list Z * Z) :=
  match st with
  | None => None
  | Some (sc, pool, structId) =>
      let getVal := fun a => assoc_get a (sc_staticStatic sc) in
      match walkChainsAtOffset pool offset getVal
              {| minChainLength := sc_minChainLength sc;
                 maxGhostNodes := sc_maxGhostNodes sc; targetPool := None |} with
      | None => None
      | Some r =>
          if (length (wr_chains r) =? 0)%nat then st
          else Some (foldl (static_accept offset) (sc, pool, structId)
                           (resolveChainConflicts (wr_chains r)))
      end
  end.

(** [detectStaticLists(sc)].  With a generator, the static structures are
    turned into achievement text and dropped from [sc.structures]. *)
Definition detectStaticLists (sc : Scanner) : option Scanner :=
  let pool := zsort (map fst (sc_staticStatic sc)) in
  match foldl static_offset (Some (sc, pool, 1)) detect_offsets with
  | None => None
  | Some (sc1, _, _) =>
      let statics := List.filter (fun s => match s_type s with StaticList => true | _ => false end)
                                 (sc_structures sc1) in
      let structs := if sc_generator sc1 && negb (length statics =? 0)%nat
                     then List.filter (fun s => match s_type s with StaticList => false | _ => true end)
                                      (sc_structures sc1)
                     else sc_structures sc1 in
      let sn := if sc_skipSticky sc1 then sc_staticNodes sc1
                else sc_staticNodes sc1 ++
                     map (fun kv => (kv.1, replicate (length (sc_batches sc1)) kv.2)) (sc_staticStatic sc1) in
      Some (with_detect sc1 [] sn (sc_targetNodes sc1) structs (sc_entryPoints sc1))
  end.

(** One resolved chain of the dynamic pass for batch [b]. *)
Definition dynamic_accept (offset : Z) (b : nat) (st : Scanner * list Z) (chain : Chain)
    : Scanner * list Z :=
  let '(sc, working) := st in
  if ch_isHead chain && (sc_minChainLength sc <=? Z.of_nat (length (ch_nodes chain))) then
    let s := {| s_id := Z.of_nat (length (sc_structures sc)); s_type := DynamicList;
                s_root := hd 0 (ch_nodes chain);
                s_nodeCount := Z.of_nat (length (ch_nodes chain)); s_stride := offset;
                s_addresses := ch_nodes chain; s_ghosts := []; s_buildOffset := offset;
                s_batchIdx := Some b |} in
    let tn := imap (fun b' s => if (b' =? b)%nat then foldl (fun s a => set_add a s) s (ch_nodes chain) else s)
                   (sc_targetNodes sc) in
    (with_detect sc (sc_staticStatic sc) (sc_staticNodes sc) tn (sc_structures sc ++ [s]) (sc_entryPoints sc),
     foldl (fun w a => set_del a w) working (ch_nodes chain))
  else if negb (ch_isHead chain) then
    (sc, foldl (fun w a => set_del a w) working (ch_nodes chain))
  else st.

Definition dynamic_ep (offset : Z) (b : nat) (st : Scanner * list Z) (ep : Chain) : Scanner * list Z :=
  let '(sc, working) := st in
  let e := {| ep_root := hd 0 (ch_nodes ep); ep_nodeCount := Z.of_nat (length (ch_nodes ep));
              ep_addresses := ch_nodes ep; ep_buildOffset := offset; ep_path := [offset];
              ep_batchIdx := b |} in
  (with_detect sc (sc_staticStatic sc) (sc_staticNodes sc) (sc_targetNodes sc)
               (sc_structures sc) (sc_entryPoints sc ++ [e]),
   foldl (fun w a => set_del a w) working (ch_nodes ep)).

(** The body of [for (let b = 0; b < B; b++)] at one offset. *)
Definition dynamic_batch (offset : Z) (st : option (Scanner * list (list Z))) (b : nat)
    : option (Scanner * list (list Z)) :=
  match st with
  | None => None
  | Some (sc, batchNodes) =>
      let working := nth b batchNodes [] in
      if (length working =? 0)%nat then st
      else
        let getVal := fun a => match assoc_get a (sc_staticNodes sc) with
                               | Some vals => nth_error vals b
                               | None => None end in
        match walkChainsAtOffset working offset getVal
                {| minChainLength := sc_minChainLength sc; maxGhostNodes := 0;
                   targetPool := Some (nth b (sc_targetNodes sc) []) |} with
        | None => None
        | Some r =>
            let '(sc1, w1) := foldl (dynamic_accept offset b) (sc, working)
                                    (resolveChainConflicts (wr_chains r)) in
            let '(sc2, w2) := foldl (dynamic_ep offset b) (sc1, w1) (wr_entryPoints r) in
            Some (sc2, <[b := w2]> batchNodes)
        end
  end.

(** [detectDynamicLists(sc)] *)
Definition detectDynamicLists (sc : Scanner) : option Scanner :=
  let B := length (sc_batches sc) in
  let batchNodes := map (fun b => List.filter (fun a => negb (mem a (nth b (sc_targetNodes sc) [])))
                                              (map fst (sc_staticNodes sc))) (seq 0 B) in
  match foldl (fun st offset => foldl (dynamic_batch offset) st (seq 0 B))
              (Some (sc, batchNodes)) detect_offsets with
  | None => None
  | Some (sc', _) => Some sc'
  end.

(* ===================================================================== *)
(** ** Forward scanner *)
(* ===================================================================== *)

(** [batchIndexes[b].get(addr)] then [batches[b].values[idx]]: the index
    map keeps the last row of an address. *)
Definition bval (rows : Rows) (a : Z) : option Z := assoc_get a rows.

(** [batchIndexes[b].has(addr)] *)
Definition bhas (rows : Rows) (a : Z) : bool := mem a (map fst rows).

(** The 32-bit presence word of one batch for the offsets
    [start, start+4, ..., start+124] from [value]: bit [k] is set iff
    [value + start + 4k] is an address of the batch.  The source builds
    it with [word |= (1 << bit)] (an int32); the word is kept unsigned
    here, with the same 32 bits. *)
Definition bitmap_word (rows : Rows) (value start : Z) : Z :=
  foldl (fun w bit => if bhas rows (value + start + Z.of_nat bit * 4)
                      then Z.lor w (Z.shiftl 1 (Z.of_nat bit)) else w) 0 (seq 0 32).

(** [{ store, slots, bytes }]; [store] is [null] or a Map. *)
Record BitmapCtx := {
  store : option (list (Z * list Z));
  slots : Z;
  bytes : Z
}.

Definition BUDGET_INT : Z := (80 * 1024 * 1024) / 4.

(** [buildTraversalBitmaps(sc, batchIndexes)]; [bps] are the base-pointer
    addresses (the keys of [sc.basePointers]). *)
Definition buildTraversalBitmaps (sc : Scanner) (bps : list Z) : BitmapCtx :=
  let B := length (sc_batches sc) in
  let maxBreadth := Z.land (sc_maxBreadth sc) 0xFFFFFC in
  let totalSlots := (maxBreadth + 127) / 128 in
  let traversalAddrs :=
    foldl (fun acc rows =>
             foldl (fun acc a => if mem a bps then acc else set_add a acc)
                   acc (foldl (fun ks a => set_add a ks) [] (map fst rows)))
          [] (sc_batches sc) in
  let N := Z.of_nat (length traversalAddrs) in
  if N =? 0 then {| store := None; slots := 0; bytes := 0 |}
  else
    let slotsPerNode := Z.max 1 (BUDGET_INT / (N * Z.of_nat B)) in
    let usedSlots := Z.min slotsPerNode totalSlots in
    let bm addr :=
      flat_map (fun rows =>
                  match bval rows addr with
                  | None => repeat 0 (Z.to_nat usedSlots)
                  | Some value =>
                      map (fun s => bitmap_word rows value (Z.of_nat s * 128))
                          (seq 0 (Z.to_nat usedSlots))
                  end) (sc_batches sc) in
    {| store := Some (map (fun a => (a, bm a)) traversalAddrs);
       slots := usedSlots; bytes := usedSlots * 128 |}.

Inductive HitKind := HStructure | HEntryPoint.

#[global] Instance HitKind_eq_dec : EqDecision HitKind.
Proof. solve_decision. Defined.

(** A value of [structAddrMap] / [epAddrMap]: [{ type, id, ... }]. *)
Record HitEntry := { h_kind : HitKind; h_id : Z }.

(** [_buildStructAddrMap(sc)] and [_buildEpAddrMap(sc)] *)
Definition buildStructAddrMap (sc : Scanner) : list (Z * HitEntry) :=
  flat_map (fun s => let e := {| h_kind := HStructure; h_id := s_id s |} in
                     map (fun a => (a, e)) (s_addresses s ++ s_ghosts s)) (sc_structures sc).

Definition buildEpAddrMap (sc : Scanner) : list (Z * HitEntry) :=
  flat_map (fun ep => let e := {| h_kind := HEntryPoint; h_id := ep_root ep |} in
                      map (fun a => (a, e)) (ep_addresses ep)) (sc_entryPoints sc).

Record Lookups := { structAddrMap : list (Z * HitEntry); epAddrMap : list (Z * HitEntry) }.

(** [{ address, values }] of [sc.basePointers] *)
Record Base := { b_address : Z; b_values : list Z }.

Record Chunk := { c_start : Z; c_end : Z }.

(** A hit of the DFS: a structure / entry-point node reached in every
    batch ([movingEntryPoint]), or an entry point found by the majority
    vote. *)
Inductive Finding :=
| FMoving (h : HitEntry) (depth : Z) (path : list Z)
| FVote (root depth addr0 buildOffset : Z) (path : list Z).

(** [{ basePointer, path, targetAddress }]; the source renders the
    addresses in hex and the path as [+0x.. ++0x..]: the numbers are kept. *)
Record TargetPath := { tp_basePointer : Z; tp_path : list Z; tp_targetAddress : Z }.

Record DfsOut := {
  o_structures  : list Finding;
  o_entryPoints : list Finding;
  o_targetPaths : list TargetPath
}.

Definition out_empty : DfsOut := {| o_structures := []; o_entryPoints := []; o_targetPaths := [] |}.

Definition push_struct (o : DfsOut) (f : Finding) : DfsOut :=
  {| o_structures := o_structures o ++ [f]; o_entryPoints := o_entryPoints o;
     o_targetPaths := o_targetPaths o |}.
Definition push_ep (o : DfsOut) (f : Finding) : DfsOut :=
  {| o_structures := o_structures o; o_entryPoints := o_entryPoints o ++ [f];
     o_targetPaths := o_targetPaths o |}.
Definition push_tp (o : DfsOut) (t : TargetPath) : DfsOut :=
  {| o_structures := o_structures o; o_entryPoints := o_entryPoints o;
     o_targetPaths := o_targetPaths o ++ [t] |}.

Section Dfs.

Variable sc : Scanner.
Variable base : Base.
Variable chunk : Chunk.
Variable lookups : Lookups.
Variable ctx : BitmapCtx.

Definition batchCount_sc : nat := length (sc_batches sc).
Definition rows_of (b : nat) : Rows := nth b (sc_batches sc) [].

(** Fast path: AND of the precomputed words, [precomp[b * slots + slotIdx]]. *)
Definition fast_bitmap (precomp : list Z) (slotIdx : Z) : Z :=
  foldl (fun acc b => Z.land acc (nth (Z.to_nat (Z.of_nat b * slots ctx + slotIdx)) precomp 0))
        0xFFFFFFFF (seq 0 batchCount_sc).

(** On-the-fly path: the word of each batch from its own current address. *)
Definition fallback_bitmap (cur : list Z) : Z :=
  foldl Z.land 0xFFFFFFFF
        (map (fun b => match bval (rows_of b) (nth b cur 0) with
                       | None => 0
                       | Some value => bitmap_word (rows_of b) value (c_start chunk)
                       end) (seq 0 batchCount_sc)).

(** [combinedBitmap]: the fast path is taken when the store has a bitmap
    for [firstAddr] and the chunk is inside the precomputed coverage. *)
Definition combined_bitmap (cur : list Z) : Z :=
  let firstAddr := nth 0 cur 0 in
  let slotIdx := c_start chunk / 128 in
  match store ctx with
  | Some st =>
      match assoc_get firstAddr st with
      | Some precomp =>
          if (c_start chunk <? bytes ctx) && (slotIdx <? slots ctx)
          then fast_bitmap precomp slotIdx else fallback_bitmap cur
      | None => fallback_bitmap cur
      end
  | None => fallback_bitmap cur
  end.

(** The smallest set bit whose offset is [<= chunkEnd]. *)
Definition choose_offset (combined : Z) : option Z :=
  let fix go (bits : list nat) :=
    match bits with
    | [] => None
    | bit :: bs =>
        let candidate := c_start chunk + Z.of_nat bit * 4 in
        if Z.testbit combined (Z.of_nat bit) && (candidate <=? c_end chunk)
        then Some candidate else go bs
    end in
  go (seq 0 32).

Definition freq_inc (k : Z) (f : list (Z * nat)) : list (Z * nat) :=
  if existsb (fun kv => Z.eqb kv.1 k) f
  then map (fun kv => if Z.eqb kv.1 k then (kv.1, S kv.2) else kv) f
  else f ++ [(k, 1%nat)].

Definition first_ep (b : nat) (t : Z) : option EntryPoint :=
  List.find (fun ep => Nat.eqb (ep_batchIdx ep) b && mem t (ep_addresses ep)) (sc_entryPoints sc).

(** The majority-vote loop: [(targetCount, buildOffsetFreq)]. *)
Definition vote (cur : list Z) (chosen : Z) : nat * list (Z * nat) :=
  foldl (fun '(cnt, freq) b =>
           match bval (rows_of b) (nth b cur 0) with
           | None => (cnt, freq)
           | Some value =>
               let t := value + chosen in
               if mem t (nth b (sc_targetNodes sc) []) then (S cnt, freq)
               else match first_ep b t with
                    | Some ep => (S cnt, freq_inc (ep_buildOffset ep) freq)
                    | None => (cnt, freq)
                    end
           end) (0%nat, []) (seq 0 batchCount_sc).

(** [targetCount > batchCount * 0.66] and [epBest > epTotal * 0.5]. *)
Definition has_majority (cnt : nat) : bool :=
  66 * Z.of_nat batchCount_sc <? 100 * Z.of_nat cnt.

Definition offsets_agree (freq : list (Z * nat)) : bool :=
  match freq with
  | [] => true
  | _ => let total := foldl (fun a kv => (a + kv.2)%nat) 0%nat freq in
         let best := foldl (fun a kv => Nat.max a kv.2) 0%nat freq in
         (total <? 2 * best)%nat
  end.

Definition winning_offset (chosen : Z) (freq : list (Z * nat)) : Z :=
  (foldl (fun '(wo, wc) kv => if (wc <? kv.2)%nat then (kv.1, kv.2) else (wo, wc))
         (chosen, 0%nat) freq).1.

(** [state.addresses] after following [chosen]; [0] when absent. *)
Definition advance (cur : list Z) (chosen : Z) : list Z :=
  map (fun b => match bval (rows_of b) (nth b cur 0) with
                | None => 0
                | Some value => value + chosen
                end) (seq 0 batchCount_sc).

Definition hit_at (a : Z) : option HitEntry :=
  match assoc_get a (structAddrMap lookups) with
  | Some h => Some h
  | None => assoc_get a (epAddrMap lookups)
  end.

(** The [while (state.depth <= maxDepth)] loop; [fuel] bounds the
    iterations (depth grows by one each time). *)
Fixpoint dfs (fuel : nat) (cur : list Z) (depth : Z) (path : list Z) (o : DfsOut) : DfsOut :=
  match fuel with
  | O => o
  | S fuel' =>
      if negb (depth <=? sc_maxDepth sc) then o else
      let firstAddr := nth 0 cur 0 in
      if mem firstAddr (sc_injected sc) && forallb (fun a => mem a (sc_injected sc)) cur
      then push_tp o {| tp_basePointer := b_address base; tp_path := path;
                        tp_targetAddress := firstAddr |}
      else
      let validHits := omap hit_at cur in
      let same_hit :=
        match validHits with
        | first :: _ =>
            if (length validHits =? batchCount_sc)%nat
               && forallb (fun h => bool_decide (h_kind h = h_kind first) && Z.eqb (h_id h) (h_id first))
                          validHits
            then Some first else None
        | [] => None
        end in
      match same_hit with
      | Some first =>
          match h_kind first with
          | HStructure => push_struct o (FMoving first depth path)
          | HEntryPoint => push_ep o (FMoving first depth path)
          end
      | None =>
          let combined := combined_bitmap cur in
          if combined =? 0 then o else
          match choose_offset combined with
          | None => o
          | Some chosen =>
              let '(cnt, freq) := vote cur chosen in
              if has_majority cnt && offsets_agree freq then
                push_ep o (FVote (b_address base) depth firstAddr
                                 (winning_offset chosen freq) (path ++ [chosen]))
              else dfs fuel' (advance cur chosen) (depth + 1) (path ++ [chosen]) o
          end
      end
  end.

(** [scanBasePointerDepth(sc, base, batchIndexes, chunk, lookups, bitmapCtx)] *)
Definition scanBasePointerDepth : DfsOut :=
  dfs (Z.to_nat (sc_maxDepth sc)) (b_values base) 1 [] out_empty.

End Dfs.

Record ScanResult := {
  r_structures  : list Finding;
  r_entryPoints : list Finding;
  r_targetPaths : list TargetPath;
  stopAllProcessing : bool
}.

(** The chunk loop of [scanSingleBasePointer]. *)
Fixpoint chunk_loop (sc : Scanner) (base : Base) (lookups : Lookups) (ctx : BitmapCtx)
    (maxBreadth : Z) (fuel : nat) (start : Z) (all : DfsOut) : DfsOut :=
  match fuel with
  | O => all
  | S fuel' =>
      if negb (start <=? maxBreadth) then all else
      let chunk := {| c_start := start; c_end := Z.min (start + 0x7C) maxBreadth |} in
      let res := scanBasePointerDepth sc base chunk lookups ctx in
      let all' := {| o_structures := o_structures all ++ o_structures res;
                     o_entryPoints := o_entryPoints all ++ o_entryPoints res;
                     o_targetPaths := o_targetPaths all ++ o_targetPaths res |} in
      if maxBreadth <=? c_end chunk then all'
      else chunk_loop sc base lookups ctx maxBreadth fuel' (start + 0x80) all'
  end.

(** [scanSingleBasePointer(sc, base, batchIndexes, lookups, bitmapCtx)] *)
Definition scanSingleBasePointer (sc : Scanner) (base : Base) (lookups : Lookups)
    (ctx : BitmapCtx) : ScanResult :=
  let maxBreadth := Z.land (sc_maxBreadth sc) 0xFFFFFC in
  let all := chunk_loop sc base lookups ctx maxBreadth
               (S (Z.to_nat (maxBreadth / 0x80))) 0 out_empty in
  match o_structures all, o_entryPoints all with
  | [], [] => {| r_structures := []; r_entryPoints := []; r_targetPaths := [];
                 stopAllProcessing := false |}
  | _, _ => {| r_structures := o_structures all; r_entryPoints := o_entryPoints all;
               r_targetPaths := o_targetPaths all;
               stopAllProcessing := sc_earlyOutTarget sc && negb (length (o_targetPaths all) =? 0)%nat |}
  end.

(* ===================================================================== *)
(** ** Path following and concrete inputs *)
(* ===================================================================== *)

(** Following [path] in one batch from [start]: each step replaces the
    current address by the batch's value there plus the offset (0 when the
    address has no value, as the scanner's advance step does). *)
Definition follow_path (rows : Rows) (start : Z) (path : list Z) : Z :=
  fold_left (fun a off => match bval rows a with Some v => v + off | None => 0 end) path start.

(** A scanner over [batches] with empty detection results. *)
Definition scanner_of (batches : list Rows) (injected : list Z) (maxBreadth : Z) : Scanner :=
  {| sc_batches := batches; sc_staticStatic := []; sc_staticNodes := [];
     sc_targetNodes := map (fun _ => injected) batches;
     sc_structures := []; sc_entryPoints := []; sc_injected := injected;
     sc_minChainLength := 2; sc_maxGhostNodes := 0; sc_skipSticky := true;
     sc_generator := false; sc_maxBreadth := maxBreadth; sc_maxDepth := 12;
     sc_earlyOutTarget := false |}.

(** The lookups [scanAllBasePointers] builds. *)
Definition lookups_of (sc : Scanner) : Lookups :=
  {| structAddrMap := buildStructAddrMap sc; epAddrMap := buildEpAddrMap sc |}.

(** The offsets a finding records. *)
Definition finding_path (f : Finding) : list Z :=
  match f with FMoving _ _ p => p | FVote _ _ _ _ p => p end.

Definition null_ctx : BitmapCtx := {| store := None; slots := 0; bytes := 0 |}.

(* ===================================================================== *)
(** ** Batch sequences fed to the preprocessor *)
(* ===================================================================== *)

(** [setSystem(sid)] on a fresh preprocessor, then [addBatch] for each
    batch of [L] in order; [None] when a call throws. *)
Definition build (sid : SystemId) (L : list Rows) : option PState :=
  foldl (fun acc rows => acc ≫= fun st => addBatch st rows) (Some (setSystem p_reset sid)) L.

(** The value [add_row] leaves in a batch's slot for address [k]: the last
    kept row of that address ([None]: the batch stores nothing there). *)
Definition last_kept (keep : Z * Z -> bool) (rows : Rows) (k : Z) : option Z :=
  foldl (fun acc av => if keep av && Z.eqb av.1 k then Some (toInt32 av.2) else acc) None rows.

Definition lastv (sid : SystemId) (rows : Rows) (k : Z) : option Z :=
  last_kept (keep_row (getSystemMask sid) rows) rows k.

Definition slotv (sid : SystemId) (rows : Rows) (k : Z) : Z := default 0 (lastv sid rows k).

(** The slots of address [k] after the batches [L]: one per batch, then
    zeros up to [maxBatches]. *)
Definition expected_slots (sid : SystemId) (L : list Rows) (k : Z) : list Z :=
  map (fun rows => slotv sid rows k) L ++ replicate (maxBatches - length L) 0.

(** Whether some batch of [L] stores a value for address [k]. *)
Definition present (sid : SystemId) (L : list Rows) (k : Z) : bool :=
  existsb (fun rows => if lastv sid rows k then true else false) L.

(** The state the batches [L] give: the node map holds exactly the present
    addresses, each with its expected slots. *)
Definition batch_char (sid : SystemId) (st : PState) (L : list Rows) : Prop :=
  systemId st = Some sid /\ batchCount st = length L /\ (length L <= maxBatches)%nat /\
  forall k, nodeMap st !! k = if present sid L k then Some (expected_slots sid L k) else None.

(** The class [_classify] computes, written without the loop: a zero slot
    makes a dynamic node, otherwise all slots equal make a static-static. *)
Definition class_spec (l : list Z) : Cls :=
  if existsb (fun x => Z.eqb x 0) l then DynamicNode
  else match l with
       | [] => StaticStatic
       | x :: _ => if forallb (fun y => Z.eqb y x) l then StaticStatic else StaticNode
       end.

(** A stored slot: empty, or a validated value through [Int32Array]. *)
Definition good_slot (sid : SystemId) (x : Z) : Prop :=
  x = 0 \/ exists w, valid_value sid w = true /\ x = toInt32 w.

(** What a system's mask takes off a valid value. *)
Definition mask_base (sid : SystemId) : Z :=
  if decide (sid = psp) then 0x08000000 else 0x80000000.

(* ===================================================================== *)
(** ** Strings, numbers and CSV rows (js/core.js) *)
(* ===================================================================== *)

(** JS strings as lists of ASCII characters. *)
Definition jstr := list ascii.

(** The ASCII members of WhiteSpace and LineTerminator that [trim] and
    [parseInt] strip: TAB, LF, VT, FF, CR and SPACE. *)
Definition is_ws (c : ascii) : bool :=
  let n := nat_of_ascii c in ((9 <=? n) && (n <=? 13) || (n =? 32))%nat.

Fixpoint trim_start (s : jstr) : jstr :=
  match s with
  | c :: s' => if is_ws c then trim_start s' else s
  | [] => []
  end.

(** [String.prototype.trim] *)
Definition trim (s : jstr) : jstr := rev (trim_start (rev (trim_start s))).

(** The value of a radix-16 digit ([0-9a-fA-F]). *)
Definition hex_val (c : ascii) : option Z :=
  let n := Z.of_nat (nat_of_ascii c) in
  if (48 <=? n) && (n <=? 57) then Some (n - 48)
  else if (97 <=? n) && (n <=? 102) then Some (n - 87)
  else if (65 <=? n) && (n <=? 70) then Some (n - 55)
  else None.

Definition is_hex (c : ascii) : bool := if hex_val c then true else false.

(** The longest prefix of radix-16 digits, as digit values. *)
Fixpoint hex_prefix (s : jstr) : list Z :=
  match s with
  | c :: s' => match hex_val c with Some d => d :: hex_prefix s' | None => [] end
  | [] => []
  end.

(** The mathematical value of a digit sequence in radix 16. *)
Definition digits_value (ds : list Z) : Z := foldl (fun acc d => acc * 16 + d) 0 ds.

Definition is_x (c : ascii) : bool := Ascii.eqb c "x" || Ascii.eqb c "X".

(** Removal of a leading ["0x"] or ["0X"]. *)
Definition strip_0x (s : jstr) : jstr :=
  match s with
  | c0 :: c1 :: t => if Ascii.eqb c0 "0" && is_x c1 then t else s
  | _ => s
  end.

(** [parseInt(string, 16)] (ECMA-262, 19.2.5); [None] is [NaN].  A
    negative zero is the integer 0 here. *)
Definition parseInt16 (str : jstr) : option Z :=
  let s := trim_start str in
  let '(sign, s1) := match s with
                     | c :: t => if Ascii.eqb c "-" then (-1, t)
                                 else if Ascii.eqb c "+" then (1, t) else (1, s)
                     | [] => (1, s)
                     end in
  let s2 := strip_0x s1 in
  match hex_prefix s2 with
  | [] => None
  | digits => Some (sign * digits_value digits)
  end.

(** [CoreUtils.parseHex]: [parseInt(hexStr.replace(/^0x/i, ''), 16)]. *)
Definition parseHex (hexStr : jstr) : option Z := parseInt16 (strip_0x hexStr).

(** [[0-9a-fA-F]+] on a whole string. *)
Definition hex1 (s : jstr) : bool := negb (bool_decide (s = [])) && forallb is_hex s.

(** [CoreUtils.isValidHex]: [str.trim() !== ''] and
    [/^(0[xX])?[0-9a-fA-F]+$/.test(str.trim())]; the regular expression
    either takes the optional group or skips it. *)
Definition isValidHex (str : jstr) : bool :=
  let t := trim str in
  negb (bool_decide (t = [])) &&
  ((match t with
    | c0 :: c1 :: rest => Ascii.eqb c0 "0" && is_x c1 && hex1 rest
    | _ => false
    end) || hex1 t).

(** Lower-case digit character of [Number.prototype.toString(16)]. *)
Definition hex_char (d : Z) : ascii :=
  ascii_of_nat (Z.to_nat (if d <? 10 then 48 + d else 87 + d)).

(** Radix-16 digits of [n >= 0], most significant first, pushed in front
    of [acc]; [fuel] bounds the number of divisions. *)
Fixpoint digits16 (fuel : nat) (n : Z) (acc : list Z) : list Z :=
  match fuel with
  | O => acc
  | S f => if n <? 16 then n :: acc else digits16 f (n / 16) (n mod 16 :: acc)
  end.

(** [Number.prototype.toString(16)] on an integer. *)
Definition toString16 (n : Z) : jstr :=
  let m := Z.abs n in
  (if n <? 0 then ["-"%char] else []) ++
  map hex_char (digits16 (S (Z.to_nat (Z.log2 m))) m []).

(** [String.prototype.toUpperCase] on ASCII. *)
Definition to_upper (c : ascii) : ascii :=
  let n := nat_of_ascii c in
  if ((97 <=? n) && (n <=? 122))%nat then ascii_of_nat (n - 32) else c.

(** [String.prototype.padStart(k, c)] with a one-character filler. *)
Definition padStart (s : jstr) (k : nat) (c : ascii) : jstr :=
  if (length s <? k)%nat then repeat c (k - length s) ++ s else s.

(** [CoreUtils.formatHex(address, padding)] *)
Definition formatHex (address : Z) (padding : nat) : jstr :=
  "0"%char :: "x"%char :: padStart (map to_upper (toString16 address)) padding "0"%char.

(** [CoreUtils.countBits]: [n >>> 0], then the [while (n)] loop; an
    unsigned 32-bit number is zero after 32 shifts, so 32 iterations
    cover the loop. *)
Fixpoint countBits_loop (fuel : nat) (n count : Z) : Z :=
  match fuel with
  | O => count
  | S f => if n =? 0 then count
           else countBits_loop f (Z.shiftr n 1) (count + Z.land (toInt32 n) 1)
  end.

Definition countBits (n : Z) : Z := countBits_loop 32 (toUint32 n) 0.


(** ** CSV rows ([CoreUtils.validateCsvRow]) *)

Definition is_digit (c : ascii) : bool :=
  let n := nat_of_ascii c in ((48 <=? n) && (n <=? 57))%nat.

Definition decimal_value (s : jstr) : Z :=
  foldl (fun acc c => acc * 10 + (Z.of_nat (nat_of_ascii c) - 48)) 0 s.

(** A property key that is an array index: the canonical decimal string
    of an integer below [2^32 - 1]. *)
Definition array_index (k : jstr) : option Z :=
  match k with
  | [] => None
  | c :: t =>
      if forallb is_digit k && (negb (Ascii.eqb c "0") || bool_decide (t = [])) &&
         (decimal_value k <? 2 ^ 32 - 1)
      then Some (decimal_value k) else None
  end.

(** A row object from the CSV parser: its own properties in creation order,
    the value [None] standing for [undefined]. *)
Definition CsvRow := list (jstr * option jstr).

(** [Object.keys(row)]: array-index keys in ascending numeric order, then
    the other keys in creation order. *)
Definition obj_keys (row : CsvRow) : list jstr :=
  map fst (sort_by (fun a b => a.2 - b.2)
             (omap (fun kv : jstr * option jstr => (fun i => (kv.1, i)) <$> array_index kv.1) row)) ++
  map fst (List.filter (fun kv : jstr * option jstr => bool_decide (array_index kv.1 = None)) row).

(** [row[key]] *)
Fixpoint prop_get (k : jstr) (row : CsvRow) : option (option jstr) :=
  match row with
  | [] => None
  | (k', v) :: row' => if bool_decide (k = k') then Some v else prop_get k row'
  end.

(** The system memory range check of [validateCsvRow]; [None] is a system
    id unknown to [Config].  For an array-valued [memoryRange] without
    [dualRange], [range.min] and [range.max] are [undefined] and both
    comparisons are false. *)
Definition memory_range_check (sid : option SystemId) (value : Z) : bool :=
  match sid with
  | None => true
  | Some s =>
      let systemConfig := systems s in
      match memoryRange systemConfig with
      | Dual m1 m2 =>
          if dualRange systemConfig then
            if Z.land (toInt32 value) (toInt32 0x80000000) =? 0 then false
            else
              let rangeSpec := if Z.land (toInt32 value) 0x10000000 =? 0 then m1 else m2 in
              negb ((value <? mr_min rangeSpec + 1) || (mr_max rangeSpec <? value))
          else true
      | Single range => negb ((value <? mr_min range + 1) || (mr_max range <? value))
      end
  end.

(** [CoreUtils.validateCsvRow(row, systemId)] with the default
    [addressColumn = 0], [valueColumn = 1] and [alignmentMask = 3];
    [None] is [null].  Numbers are exact integers (the source's doubles
    agree below 2^53). *)
Definition validateCsvRow (row : CsvRow) (sid : option SystemId) : option (Z * Z) :=
  let keys := obj_keys row in
  match nth_error keys 0, nth_error keys 1 with
  | Some addressKey, Some valueKey =>
      if bool_decide (addressKey = []) || bool_decide (valueKey = []) then None
      else
        match prop_get addressKey row, prop_get valueKey row with
        | Some (Some rawAddress), Some (Some rawValue) =>
            if bool_decide (rawAddress = []) || bool_decide (rawValue = []) then None
            else
              match parseHex (trim rawAddress), parseHex (trim rawValue) with
              | Some address, Some value =>
                  if negb (Z.land (toInt32 value) 3 =? 0) then None
                  else if memory_range_check sid value then Some (address, value)
                  else None
              | _, _ => None
              end
        | _, _ => None
        end
  | _, _ => None
  end.

Definition str_Address : jstr := ["A"; "d"; "d"; "r"; "e"; "s"; "s"]%char.
Definition str_Value : jstr := ["V"; "a"; "l"; "u"; "e"]%char.

(** Digit characters of [formatHex]'s output. *)
Definition gchar (d : Z) : ascii := to_upper (hex_char d).

(** [Config.getAddressRangeIndex(systemId, address)]; [None] is [-1]. *)
Definition getAddressRangeIndex (sid : SystemId) (address : Z) : option nat :=
  getRangeIndex (getRanges sid) address.

(** ** Event bus ([EventBus] of js/core.js) *)

(** A subscription [{ callback, context }]; functions are told apart by
    identity, modelled as numbers. *)
Record Subscriber := { callback : nat; context : option nat }.

(** The names that the object [{}] inherits from [Object.prototype]. *)
Definition object_prototype_keys : list string :=
  ["constructor"; "__proto__"; "__defineGetter__"; "__defineSetter__"; "__lookupGetter__";
   "__lookupSetter__"; "hasOwnProperty"; "isPrototypeOf"; "propertyIsEnumerable";
   "toLocaleString"; "toString"; "valueOf"]%string.

(** The value of [this.events[event]]: an own subscriber array, an
    inherited member of [Object.prototype] (truthy, without [push],
    [filter] or an iterator), or [undefined]. *)
Inductive JVal := Own (l : list Subscriber) | Inherited | Undefined.

Definition get_event (ev : gmap string (list Subscriber)) (e : string) : JVal :=
  match ev !! e with
  | Some l => Own l
  | None => if bool_decide (e ∈ object_prototype_keys) then Inherited else Undefined
  end.

(** [on(event, callback, context)]; [None] is a thrown [TypeError]. *)
Definition on (ev : gmap string (list Subscriber)) (e : string) (cb : nat) (ctx : option nat)
    : option (gmap string (list Subscriber)) :=
  match get_event ev e with
  | Own l => Some (<[e := l ++ [{| callback := cb; context := ctx |}]]> ev)
  | Inherited => None
  | Undefined => Some (<[e := [{| callback := cb; context := ctx |}]]> ev)
  end.

(** [off(event, callback)]; [None] is a thrown [TypeError]. *)
Definition off (ev : gmap string (list Subscriber)) (e : string) (cb : nat)
    : option (gmap string (list Subscriber)) :=
  match get_event ev e with
  | Own l => Some (<[e := List.filter (fun s => negb (Nat.eqb (callback s) cb)) l]> ev)
  | Inherited => None
  | Undefined => Some ev
  end.

(** [emit(event, data)]: the subscribers called, in order, for callbacks
    that do not themselves subscribe or unsubscribe during the call (an
    error a callback throws is caught); [None] is a thrown [TypeError]. *)
Definition emit (ev : gmap string (list Subscriber)) (e : string) : option (list Subscriber) :=
  match get_event ev e with
  | Own l => Some l
  | Inherited => None
  | Undefined => Some []
  end.

(** [clear()] *)
Definition clear_bus : gmap string (list Subscriber) := ∅.

(** The [events] objects of an [EventBus] after [new EventBus()] and any
    sequence of calls that return normally. *)
Inductive bus_reachable : gmap string (list Subscriber) -> Prop :=
| br_new : bus_reachable ∅
| br_on ev e cb ctx ev' : bus_reachable ev -> on ev e cb ctx = Some ev' -> bus_reachable ev'
| br_off ev e cb ev' : bus_reachable ev -> off ev e cb = Some ev' -> bus_reachable ev'
| br_clear ev : bus_reachable ev -> bus_reachable clear_bus.


Module Ex.

(** Two batches whose base-pointer values are two different injected
    targets. *)
Definition c1_batches : list Rows :=
  [[(0x100, 0x2004); (0x2004, 0x10)]; [(0x100, 0x3004); (0x3004, 0x10)]].
Definition c1_sc : Scanner := scanner_of c1_batches [0x2004; 0x3004] 0xFFF.
Definition c1_base : Base := {| b_address := 0x100; b_values := [0x2004; 0x3004] |}.
Definition chunk0 : Chunk := {| c_start := 0; c_end := 0x7C |}.

(** Two batches whose first hops differ: [0x1000] exists in batch 0 only. *)
Definition c2_batches : list Rows :=
  [[(0x100, 0x1000); (0x1000, 0x2000); (0x2004, 0x10)];
   [(0x100, 0x3000); (0x3000, 0x4000); (0x4004, 0x10)]].
Definition c2_sc : Scanner := scanner_of c2_batches [0x2004; 0x4004] 0xFFF.
Definition c2_base : Base := {| b_address := 0x100; b_values := [0x1000; 0x3000] |}.

(** A static-static pool at offset 4 whose chains overlap in a row:
    [16 -> 256], [32 -> 256 -> 512], [48 -> 512 -> 768 -> 1024]. *)
Definition c3_pool : list Z := [0x10; 0x20; 0x30; 0x100; 0x200; 0x300; 0x400].
Definition c3_vals : list (Z * Z) :=
  [(0x10, 0xF8); (0x20, 0xFC); (0x30, 0x1FC); (0x100, 0x1F8); (0x200, 0x2F8);
   (0x300, 0x3FC); (0x400, 0x1000)].
Definition c3_getVal (a : Z) : option Z := assoc_get a c3_vals.
Definition c3_opts : WalkOpts :=
  {| minChainLength := 2; maxGhostNodes := 1; targetPool := None |}.

(** Two batches; the node [0x100] points at [0x104] in batch 0 only. *)
Definition c5_sc : Scanner :=
  {| sc_batches := [[(0x100, 0x104)]; [(0x100, 0x5000)]];
     sc_staticStatic := [];
     sc_staticNodes := [(0x100, [0x104; 0x5000]); (0x104, [0x9000; 0x6000])];
     sc_targetNodes := [[]; []]; sc_structures := []; sc_entryPoints := [];
     sc_injected := []; sc_minChainLength := 2; sc_maxGhostNodes := 0;
     sc_skipSticky := true; sc_generator := false; sc_maxBreadth := 0xFFF;
     sc_maxDepth := 12; sc_earlyOutTarget := false |}.

Definition c5_sc1 : Scanner := default c5_sc (detectStaticLists c5_sc).
Definition c5_sc2 : Scanner := default c5_sc1 (detectDynamicLists c5_sc1).

(** Two batches with the same three-node list [0x100 -> 0x104 -> 0x108]
    among the static statics. *)
Definition c5s_sc : Scanner :=
  {| sc_batches := [[(0x100, 0x104); (0x104, 0x108); (0x108, 0x2000)];
                    [(0x100, 0x104); (0x104, 0x108); (0x108, 0x2000)]];
     sc_staticStatic := [(0x100, 0x104); (0x104, 0x108); (0x108, 0x2000)];
     sc_staticNodes := [];
     sc_targetNodes := [[]; []]; sc_structures := []; sc_entryPoints := [];
     sc_injected := []; sc_minChainLength := 2; sc_maxGhostNodes := 0;
     sc_skipSticky := true; sc_generator := false; sc_maxBreadth := 0xFFF;
     sc_maxDepth := 12; sc_earlyOutTarget := false |}.

Definition c5s_sc1 : Scanner := default c5s_sc (detectStaticLists c5s_sc).
Definition c5s_sc2 : Scanner := default c5s_sc1 (detectDynamicLists c5s_sc1).

(** [maxBreadth] 0 and a base pointer whose values are the nodes of a
    detected structure. *)
Definition c9_structure : Structure :=
  {| s_id := 1; s_type := StaticList; s_root := 0x1000; s_nodeCount := 2; s_stride := 4;
     s_addresses := [0x1000; 0x1004]; s_ghosts := []; s_buildOffset := 4; s_batchIdx := None |}.
Definition c9_sc : Scanner :=
  with_detect (scanner_of [[(0x100, 0x1000); (0x1000, 0x1004)]; [(0x100, 0x1000); (0x1000, 0x1004)]] [] 0)
              [] [] [[]; []] [c9_structure] [].
Definition c9_base : Base := {| b_address := 0x100; b_values := [0x1000; 0x1000] |}.

(** A GameCube preprocessor after one batch. *)
Definition c4_rows : Rows := [(0x80001000, 0x80002000); (0x80001004, 0x80002000); (0x80002000, 0x817FFFFC)].
Definition c4_st : PState := default p_reset (addBatch (setSystem p_reset gamecube) c4_rows).

(** Three GameCube batches. *)
Definition c7_L : list Rows :=
  [[(0x80001000, 0x80002000); (0x80001004, 0x80003000)];
   [(0x80001000, 0x80002000)];
   [(0x80001000, 0x80004000); (0x80005000, 0x80003000)]].
Definition c7_st : PState := default p_reset (build gamecube c7_L).

End Ex.

(* ===================================================================== *)
(** * Theorems *)
(* ===================================================================== *)

(** ** Shared lemmas *)

Lemma mem_In (a : Z) (s : list Z) : mem a s = true <-> In a s.
Proof.
  unfold mem. rewrite existsb_exists. split.
  - intros [x [Hx Heq]]. apply Z.eqb_eq in Heq. subst. exact Hx.
  - intros H. exists a. split; [exact H | apply Z.eqb_refl].
Qed.

Lemma mem_false_not_In (a : Z) (s : list Z) : mem a s = false <-> ~ In a s.
Proof.
  split.
  - intros H Hin. apply mem_In in Hin. congruence.
  - intros H. destruct (mem a s) eqn:E; [apply mem_In in E; contradiction | reflexivity].
Qed.

Lemma set_add_absent (a : Z) (s : list Z) : ~ In a s -> set_add a s = s ++ [a].
Proof.
  intros H. unfold set_add. apply mem_false_not_In in H. rewrite H. reflexivity.
Qed.

Lemma set_add_In (a x : Z) (s : list Z) : In x (set_add a s) <-> x = a \/ In x s.
Proof.
  unfold set_add. destruct (mem a s) eqn:E.
  - apply mem_In in E. split; [tauto|]. intros [->|H]; assumption.
  - rewrite in_app_iff. simpl. split; [intros [H|[H|[]]]; auto|intros [H|H]; auto].
Qed.

(** ** The chain walker always finishes (C10) *)

Section WalkerTotal.

Variable pool : list Z.
Variable offset : Z.
Variable getVal : Z -> option Z.
Variable opts : WalkOpts.

(** The chain loop only marks pool addresses as visited, never twice; so
    [length pool + 1] iterations are enough. *)
Lemma chain_loop_some (fuel : nat) (current : Z) (nodes ghosts visited : list Z) (tg : nat) :
  NoDup visited -> (forall x, In x visited -> In x pool) ->
  (length pool < fuel + length visited)%nat ->
  is_Some (chain_loop pool offset getVal opts fuel current nodes ghosts visited tg).
Proof.
  revert current nodes ghosts visited tg.
  induction fuel as [|fuel IH]; intros current nodes ghosts visited tg Hnd Hsub Hlen.
  - exfalso. apply NoDup_ListNoDup in Hnd. pose proof (NoDup_incl_length Hnd Hsub). lia.
  - simpl.
    destruct (mem current visited) eqn:Hv; [eexists; reflexivity|].
    destruct (match targetPool opts with Some tp => mem current tp | None => false end);
      [eexists; reflexivity|].
    destruct (mem current pool) eqn:Hp; simpl; [|eexists; reflexivity].
    destruct (getVal current) as [val|]; [|eexists; reflexivity].
    apply mem_false_not_In in Hv. apply mem_In in Hp.
    assert (Hnd' : NoDup (set_add current visited)).
    { rewrite set_add_absent by exact Hv. apply NoDup_app. repeat split.
      - exact Hnd.
      - intros x Hx Hx'. apply list_elem_of_singleton in Hx'. subst.
        apply Hv. apply list_elem_of_In. exact Hx.
      - apply NoDup_singleton. }
    assert (Hsub' : forall x, In x (set_add current visited) -> In x pool).
    { intros x Hx. apply set_add_In in Hx as [->|Hx]; auto. }
    assert (Hlen' : (length pool < fuel + length (set_add current visited))%nat).
    { rewrite set_add_absent by exact Hv. rewrite length_app. simpl. lia. }
    destruct (mem (val + offset) pool); [apply IH; assumption|].
    destruct (maxGhostNodes opts =? 0)%nat; [eexists; reflexivity|].
    destruct (bridge pool offset (maxGhostNodes opts) 0 (val + offset)) as [[found n]|];
      [|eexists; reflexivity].
    destruct (maxGhostNodes opts <? tg + n)%nat; [eexists; reflexivity|].
    apply IH; assumption.
Qed.

Lemma walk_heads_some (l : list Z) (acc : list Chain * list Chain * list Z) :
  is_Some (foldl (walk_head pool offset getVal opts) (Some acc) l).
Proof.
  revert acc. induction l as [|a l IH]; intros acc; cbn [foldl]; [eexists; reflexivity|].
  destruct acc as [[chains eps] processed].
  destruct (walk_head pool offset getVal opts (Some (chains, eps, processed)) a)
    as [acc'|] eqn:Hw; [apply IH|exfalso].
  unfold walk_head in Hw.
  destruct (mem a processed); [discriminate|].
  destruct (mem a (pointedTo pool offset getVal)); [discriminate|].
  destruct (negb (bool_decide (is_Some (getVal a)))); [discriminate|].
  destruct (chain_loop_some (S (length pool)) a [] [] [] 0) as [[[nodes ghosts] hit] Hc].
  - constructor.
  - intros x [].
  - simpl. lia.
  - rewrite Hc in Hw.
    destruct (hit && (1 <=? length nodes)%nat); [discriminate|].
    destruct (minChainLength opts <=? Z.of_nat (length nodes)); discriminate.
Qed.

End WalkerTotal.

(** C10: [walkChainsAtOffset] is total.  For every pool, every offset (0
    included), every value function and every option setting, every walk
    finishes within its bound of [length pool + 1] iterations of the chain
    loop (a walk visits each pool address at most once, cycles included,
    and a bridge attempt runs at most [maxGhostNodes] steps), so the
    result is always defined. *)
Theorem walkChainsAtOffset_total (pool : list Z) (offset : Z) (getVal : Z -> option Z)
    (opts : WalkOpts) :
  is_Some (walkChainsAtOffset pool offset getVal opts).
Proof.
  unfold walkChainsAtOffset.
  destruct (walk_heads_some pool offset getVal opts pool ([], [], [])) as [[[chains eps] pr] ->].
  eexists. reflexivity.
Qed.

(** ** Recommendation (C8) *)

(** C8 (corrected): the [skipSticky] flag of the recommendation that
    [getCounts()] returns is [false] exactly for the systems whose
    [rangeMode] is ["full"], and [true] for every other system and when
    no system is set. *)
Theorem getCounts_skipSticky (st : PState) :
  skipSticky (c_recommendation (getCounts st)) =
  match systemId st with
  | Some sid => negb (String.eqb (rangeMode (systems sid)) "full")
  | None => true
  end.
Proof.
  unfold getCounts, buildRecommendation.
  destruct (systemId st) as [sid|]; [|reflexivity].
  destruct (String.eqb (rangeMode (systems sid)) "full"); reflexivity.
Qed.

(** C8 counterexample: after [setSystem('gba')] (range mode ["full"]) the
    recommendation has [skipSticky = false]. *)
Lemma getCounts_skipSticky_gba_false :
  p_reachable (setSystem p_reset gba) /\
  skipSticky (c_recommendation (getCounts (setSystem p_reset gba))) = false.
Proof. split; [constructor | vm_compute; reflexivity]. Qed.

(** ** Range subdivision (C6) *)

Ltac leb_cases :=
  simpl in *;
  repeat match goal with
         | |- context [Z.leb ?x ?y] => destruct (Z.leb_spec x y)
         end; simpl in *; try lia.

(** C6 (code bug): [getRanges] does not tile every system's memory.
    The DS descriptor has [rangeMode: 'quater'], which no branch of
    [getRanges] handles, so its range list is empty.  For N64 (memory
    [0x80000000 .. 0x807FFFFF]) [floorAlign] computes [addr & ~3], which
    goes through ToInt32 and turns the midpoint into a negative number:
    Range 1 is [[0x80000000, -2143289348]], which holds no address, and
    Range 2 starts at [-2143289344], so it also holds addresses below the
    memory minimum, such as 0. *)
Lemma getRanges_coverage_defects :
  getRanges ds = [] /\
  memoryRange (systems n64) = Single (rng 0x80000000 0x807FFFFF) /\
  map (fun r => (rmin r, rmax r)) (getRanges n64) =
    [(0x80000000, -2143289348); (-2143289344, 0x807FFFFF)] /\
  (exists r, In r (getRanges n64) /\ rmax r < rmin r) /\
  (exists r, In r (getRanges n64) /\ rmin r <= 0 <= rmax r) /\ ~ (0x80000000 <= 0).
Proof.
  split; [reflexivity|]. split; [reflexivity|]. split; [vm_compute; reflexivity|].
  assert (E : getRanges n64 =
    [{| label := "Range 1"; rmin := 0x80000000; rmax := -2143289348 |};
     {| label := "Range 2"; rmin := -2143289344; rmax := 0x807FFFFF |}]) by (vm_compute; reflexivity).
  rewrite E. split; [|split; [|lia]].
  - eexists. split; [left; reflexivity | simpl; lia].
  - eexists. split; [right; left; reflexivity | simpl; lia].
Qed.

(** ** Chain conflict resolution (C3) *)

(** C3 (code bug): at offset 4 the walker finds the chains
    [[16; 256]], [[32; 256; 512]] and [[48; 512; 768; 1024]], which form one
    connected group (the first two share 256, the last two share 512).
    [resolveChainConflicts] marks two of them as heads, and these two share
    the node 512: the group of chain 0 is only its direct neighbours, and
    the last chain, not processed with it, starts a group of its own. *)
Lemma resolveChainConflicts_two_heads :
  option_map (fun r => map (fun c => (ch_nodes c, ch_isHead c))
                           (resolveChainConflicts (wr_chains r)))
             (walkChainsAtOffset Ex.c3_pool 4 Ex.c3_getVal Ex.c3_opts) =
  Some [([32; 256; 512], true); ([16; 256], false); ([48; 512; 768; 1024], true)].
Proof. vm_compute. reflexivity. Qed.

(** ** Bitmap fast path (C2) *)

(** C2 (code bug): with the bitmaps [buildTraversalBitmaps] precomputes,
    the fast path ANDs the words of the node [current[0]] for every batch,
    not those of [current[b]].  For [c2]'s base pointer the first chunk's
    fast-path bitmap is [0] while the on-the-fly bitmap is [2] (offset 4 is
    shared); so the scan with the precomputed bitmaps finds nothing there,
    while the scan without them records an entry point at offset 4. *)
Lemma fast_path_differs_from_fallback :
  let ctx := buildTraversalBitmaps Ex.c2_sc [0x100] in
  is_Some (store ctx ≫= assoc_get 0x1000) /\
  (c_start Ex.chunk0 <? bytes ctx) && (c_start Ex.chunk0 / 128 <? slots ctx) = true /\
  combined_bitmap Ex.c2_sc Ex.chunk0 ctx (b_values Ex.c2_base) = 0 /\
  fallback_bitmap Ex.c2_sc Ex.chunk0 (b_values Ex.c2_base) = 2 /\
  o_entryPoints (scanBasePointerDepth Ex.c2_sc Ex.c2_base Ex.chunk0 (lookups_of Ex.c2_sc) ctx) = [] /\
  o_entryPoints (scanBasePointerDepth Ex.c2_sc Ex.c2_base Ex.chunk0 (lookups_of Ex.c2_sc) null_ctx) =
    [FVote 0x100 1 0x1000 4 [4]].
Proof. vm_compute. repeat split; eexists; reflexivity. Qed.

(** ** Target paths of the forward scan (C1) *)

Lemma follow_path_app (rows : Rows) (start : Z) (p : list Z) (off : Z) :
  follow_path rows start (p ++ [off]) =
  match bval rows (follow_path rows start p) with Some v => v + off | None => 0 end.
Proof. unfold follow_path. rewrite fold_left_app. reflexivity. Qed.

Lemma follow_path_nil_rows (p : list Z) : follow_path [] 0 p = 0.
Proof.
  unfold follow_path. induction p as [|x p IH]; [reflexivity|]. exact IH.
Qed.

Lemma nth_map_seq {A} (f : nat -> A) (n b : nat) (d : A) :
  (b < n)%nat -> nth b (map f (seq 0 n)) d = f b.
Proof.
  intros Hb. rewrite (nth_indep _ d (f 0%nat)) by (rewrite length_map, length_seq; lia).
  rewrite map_nth, seq_nth by lia. reflexivity.
Qed.

Lemma list_as_map_seq (l : list Z) :
  l = map (fun b => nth b l 0) (seq 0 (length l)).
Proof.
  apply (nth_ext _ _ 0 0); rewrite ?length_map, ?length_seq; [reflexivity|].
  intros n Hn. rewrite nth_map_seq by exact Hn. reflexivity.
Qed.

Section TargetPaths.

Variables (sc : Scanner) (base : Base) (chunk : Chunk) (lookups : Lookups) (ctx : BitmapCtx).

Let B := length (sc_batches sc).

(** The addresses reached in every batch after following [path]. *)
Let walked (path : list Z) : list Z :=
  map (fun b => follow_path (rows_of sc b) (nth b (b_values base) 0) path) (seq 0 B).

Let tp_ok (tp : TargetPath) : Prop :=
  tp_basePointer tp = b_address base /\
  follow_path (nth 0 (sc_batches sc) []) (nth 0 (b_values base) 0) (tp_path tp) = tp_targetAddress tp /\
  (forall b, (b < B)%nat ->
     In (follow_path (nth b (sc_batches sc) []) (nth b (b_values base) 0) (tp_path tp)) (sc_injected sc)).

Hypothesis Hlen : length (b_values base) = B.

Lemma advance_walked (path : list Z) (chosen : Z) :
  advance sc (walked path) chosen = walked (path ++ [chosen]).
Proof.
  unfold advance, walked, batchCount_sc. fold B. apply map_ext_in. intros b Hb.
  apply in_seq in Hb. rewrite nth_map_seq by lia. rewrite follow_path_app. reflexivity.
Qed.

Lemma dfs_targetPaths_ok (fuel : nat) (depth : Z) (path : list Z) (o : DfsOut) :
  Forall tp_ok (o_targetPaths o) ->
  Forall tp_ok (o_targetPaths (dfs sc base chunk lookups ctx fuel (walked path) depth path o)).
Proof.
  revert depth path o. induction fuel as [|fuel IH]; intros depth path o Ho; [exact Ho|].
  cbn [dfs]. destruct (negb (depth <=? sc_maxDepth sc)); [exact Ho|].
  destruct (mem (nth 0 (walked path) 0) (sc_injected sc) &&
            forallb (fun a => mem a (sc_injected sc)) (walked path)) eqn:Hinj.
  - apply andb_true_iff in Hinj as [_ Hall]. rewrite forallb_forall in Hall.
    cbn [o_targetPaths push_tp]. apply Forall_app. split; [exact Ho|]. apply Forall_singleton.
    split; [reflexivity|]. split.
    + cbn [tp_path tp_targetAddress]. unfold walked. destruct B as [|B'] eqn:HB.
      * assert (Hv : b_values base = []) by (apply length_zero_iff_nil; lia).
        unfold B in HB. apply length_zero_iff_nil in HB.
        rewrite Hv, HB. simpl. apply follow_path_nil_rows.
      * rewrite nth_map_seq by lia. reflexivity.
    + intros b Hb. cbn [tp_path]. apply mem_In. apply Hall. unfold walked.
      change (follow_path (nth b (sc_batches sc) []) (nth b (b_values base) 0) path)
        with ((fun b => follow_path (rows_of sc b) (nth b (b_values base) 0) path) b).
      apply in_map. apply in_seq. lia.
  - destruct (match omap (hit_at lookups) (walked path) with
              | [] => None
              | first :: _ => _ end) as [first|].
    + destruct (h_kind first); exact Ho.
    + destruct (combined_bitmap sc chunk ctx (walked path) =? 0); [exact Ho|].
      destruct (choose_offset chunk (combined_bitmap sc chunk ctx (walked path))) as [chosen|];
        [|exact Ho].
      destruct (vote sc (walked path) chosen) as [cnt freq].
      destruct (has_majority sc cnt && offsets_agree freq); [exact Ho|].
      rewrite advance_walked. apply IH. exact Ho.
Qed.

End TargetPaths.

(** C1 (corrected): every target path that [scanBasePointerDepth] emits
    starts at the scanned base pointer, and following its path from the
    base pointer's value in batch 0 ends exactly at its [targetAddress];
    following it in any other batch [b] ends at an injected target, which
    need not be [targetAddress] (the code checks only that every batch's
    current address is some injected target).  Assumes, as the scanner
    guarantees, one base-pointer value per batch. *)
Theorem scanBasePointerDepth_targetPaths (sc : Scanner) (base : Base) (chunk : Chunk)
    (lookups : Lookups) (ctx : BitmapCtx)
    (Hlen : length (b_values base) = length (sc_batches sc)) :
  forall tp, In tp (o_targetPaths (scanBasePointerDepth sc base chunk lookups ctx)) ->
    tp_basePointer tp = b_address base /\
    follow_path (nth 0 (sc_batches sc) []) (nth 0 (b_values base) 0) (tp_path tp) =
      tp_targetAddress tp /\
    (forall b, (b < length (sc_batches sc))%nat ->
       In (follow_path (nth b (sc_batches sc) []) (nth b (b_values base) 0) (tp_path tp))
          (sc_injected sc)).
Proof.
  intros tp Htp. unfold scanBasePointerDepth in Htp.
  assert (Hw : b_values base =
               map (fun b => follow_path (rows_of sc b) (nth b (b_values base) 0) [])
                   (seq 0 (length (sc_batches sc)))).
  { rewrite <- Hlen. exact (list_as_map_seq (b_values base)). }
  rewrite Hw in Htp.
  pose proof (dfs_targetPaths_ok sc base chunk lookups ctx Hlen
                (Z.to_nat (sc_maxDepth sc)) 1 [] out_empty (List.Forall_nil _)) as H.
  rewrite List.Forall_forall in H. exact (H tp Htp).
Qed.

(** Witness of C1: [c1]'s scan emits one target path. *)
Lemma scanBasePointerDepth_targetPaths_witness :
  length (b_values Ex.c1_base) = length (sc_batches Ex.c1_sc) /\
  o_targetPaths (scanBasePointerDepth Ex.c1_sc Ex.c1_base Ex.chunk0 (lookups_of Ex.c1_sc)
                   (buildTraversalBitmaps Ex.c1_sc [0x100])) =
    [{| tp_basePointer := 0x100; tp_path := []; tp_targetAddress := 0x2004 |}] /\
  follow_path (nth 0 (sc_batches Ex.c1_sc) []) (nth 0 (b_values Ex.c1_base) 0) [] = 0x2004.
Proof.
  split; [reflexivity|]. split; [vm_compute; reflexivity|].
  refine (proj1 (proj2 (scanBasePointerDepth_targetPaths Ex.c1_sc Ex.c1_base Ex.chunk0
            (lookups_of Ex.c1_sc) (buildTraversalBitmaps Ex.c1_sc [0x100]) eq_refl
            {| tp_basePointer := 0x100; tp_path := []; tp_targetAddress := 0x2004 |} _))).
  vm_compute. left. reflexivity.
Defined.

(** C1 counterexample: both base-pointer values of [c1] are injected
    targets, so the scan emits the target path [0x100 -> 0x2004] with an
    empty path; in batch 1 that path ends at [0x3004], not at [0x2004]. *)
Lemma scanBasePointerDepth_targetPath_other_batch :
  In {| tp_basePointer := 0x100; tp_path := []; tp_targetAddress := 0x2004 |}
     (o_targetPaths (scanBasePointerDepth Ex.c1_sc Ex.c1_base Ex.chunk0 (lookups_of Ex.c1_sc)
                       (buildTraversalBitmaps Ex.c1_sc [0x100]))) /\
  follow_path (nth 1 (sc_batches Ex.c1_sc) []) (nth 1 (b_values Ex.c1_base) 0) [] = 0x3004.
Proof. vm_compute. split; [left; reflexivity | reflexivity]. Qed.

(** ** Scanning with [maxBreadth = 0] (C9) *)

Lemma choose_offset_range (chunk : Chunk) (comb c : Z) :
  choose_offset chunk comb = Some c -> c_start chunk <= c <= c_end chunk.
Proof.
  unfold choose_offset. generalize (seq 0 32). intros l.
  induction l as [|bit l IH]; simpl; [discriminate|].
  destruct (Z.testbit comb (Z.of_nat bit) && (c_start chunk + Z.of_nat bit * 4 <=? c_end chunk))
    eqn:E; [|exact IH].
  intros H. injection H as <-. apply andb_true_iff in E as [_ E]. apply Z.leb_le in E. lia.
Qed.

Section ChunkPaths.

Variables (sc : Scanner) (base : Base) (chunk : Chunk) (lookups : Lookups) (ctx : BitmapCtx).

Let inr (x : Z) : Prop := c_start chunk <= x <= c_end chunk.

Let paths_ok (o : DfsOut) : Prop :=
  Forall (fun f => Forall inr (finding_path f)) (o_structures o) /\
  Forall (fun f => Forall inr (finding_path f)) (o_entryPoints o) /\
  Forall (fun t => Forall inr (tp_path t)) (o_targetPaths o).

(** Every offset a DFS over one chunk records lies in the chunk. *)
Lemma dfs_paths_in_chunk (fuel : nat) (cur : list Z) (depth : Z) (path : list Z) (o : DfsOut) :
  Forall inr path -> paths_ok o ->
  paths_ok (dfs sc base chunk lookups ctx fuel cur depth path o).
Proof.
  revert cur depth path o.
  induction fuel as [|fuel IH]; intros cur depth path o Hp Ho; [exact Ho|].
  destruct Ho as (Hs & He & Ht).
  cbn [dfs]. destruct (negb (depth <=? sc_maxDepth sc)); [split; auto|].
  destruct (mem (nth 0 cur 0) (sc_injected sc) && forallb (fun a => mem a (sc_injected sc)) cur).
  { split; [exact Hs|]. split; [exact He|]. cbn [o_targetPaths push_tp].
    apply Forall_app. split; [exact Ht|]. apply Forall_singleton. exact Hp. }
  destruct (match omap (hit_at lookups) cur with [] => None | first :: _ => _ end) as [first|].
  { destruct (h_kind first).
    - split; [|split; [exact He|exact Ht]]. cbn [o_structures push_struct].
      apply Forall_app. split; [exact Hs|]. apply Forall_singleton. exact Hp.
    - split; [exact Hs|]. split; [|exact Ht]. cbn [o_entryPoints push_ep].
      apply Forall_app. split; [exact He|]. apply Forall_singleton. exact Hp. }
  destruct (combined_bitmap sc chunk ctx cur =? 0); [split; auto|].
  destruct (choose_offset chunk (combined_bitmap sc chunk ctx cur)) as [chosen|] eqn:Hc;
    [|split; auto].
  apply choose_offset_range in Hc.
  assert (Hp' : Forall inr (path ++ [chosen])).
  { apply Forall_app. split; [exact Hp|]. apply Forall_singleton. exact Hc. }
  destruct (vote sc cur chosen) as [cnt freq].
  destruct (has_majority sc cnt && offsets_agree freq).
  - split; [exact Hs|]. split; [|exact Ht]. cbn [o_entryPoints push_ep].
    apply Forall_app. split; [exact He|]. apply Forall_singleton. exact Hp'.
  - apply IH; [exact Hp'|]. split; [exact Hs|]. split; [exact He|exact Ht].
Qed.

End ChunkPaths.

(** C9 (corrected): when [maxBreadth & 0xFFFFFC] is 0 (a configured
    [maxBreadth] of 0 in particular), the forward scan still visits the
    single chunk [[0, 0]]: every structure hit, entry-point hit and target
    path it emits follows offset 0 only (and a base pointer whose values
    are detected nodes is still a hit, with the empty path). *)
Theorem scanSingleBasePointer_zero_breadth (sc : Scanner) (base : Base) (lookups : Lookups)
    (ctx : BitmapCtx) (H0 : Z.land (sc_maxBreadth sc) 0xFFFFFC = 0) :
  let r := scanSingleBasePointer sc base lookups ctx in
  Forall (fun f => Forall (fun x => x = 0) (finding_path f)) (r_structures r ++ r_entryPoints r) /\
  Forall (fun t => Forall (fun x => x = 0) (tp_path t)) (r_targetPaths r).
Proof.
  set (chunk := {| c_start := 0; c_end := 0 |}).
  pose proof (dfs_paths_in_chunk sc base chunk lookups ctx (Z.to_nat (sc_maxDepth sc))
                (b_values base) 1 [] out_empty (List.Forall_nil _)) as Hr.
  fold (scanBasePointerDepth sc base chunk lookups ctx) in Hr.
  unfold scanSingleBasePointer. rewrite H0. cbn -[scanBasePointerDepth].
  change (Z.min (0 + 124) 0) with 0. change (0 <=? 0) with true. cbv iota beta.
  fold chunk.
  set (res := scanBasePointerDepth sc base chunk lookups ctx) in *.
  assert (Hz : forall l, Forall (fun x => c_start chunk <= x <= c_end chunk) l ->
                         Forall (fun x => x = 0) l).
  { intros l. apply List.Forall_impl. intros x Hx. simpl in Hx. lia. }
  destruct Hr as (Hs & He & Ht); [split; constructor; constructor|].
  assert (Zs : Forall (fun f => Forall (fun x => x = 0) (finding_path f)) (o_structures res))
    by (eapply List.Forall_impl; [|exact Hs]; intros f; apply Hz).
  assert (Ze : Forall (fun f => Forall (fun x => x = 0) (finding_path f)) (o_entryPoints res))
    by (eapply List.Forall_impl; [|exact He]; intros f; apply Hz).
  assert (Zt : Forall (fun t => Forall (fun x => x = 0) (tp_path t)) (o_targetPaths res))
    by (eapply List.Forall_impl; [|exact Ht]; intros t; apply Hz).
  clearbody res. clear Hs He Ht.
  destruct (o_structures res) as [|s ss]; destruct (o_entryPoints res) as [|e es];
    cbn [r_structures r_entryPoints r_targetPaths o_structures o_entryPoints o_targetPaths];
    (split; [apply Forall_app; split|]); first [assumption | constructor].
Qed.

(** Witness of C9: [c9] has [maxBreadth] 0; its scan reports the
    structure hit with the empty path. *)
Lemma scanSingleBasePointer_zero_breadth_witness :
  Z.land (sc_maxBreadth Ex.c9_sc) 0xFFFFFC = 0 /\
  Forall (fun f => Forall (fun x => x = 0) (finding_path f))
    (r_structures (scanSingleBasePointer Ex.c9_sc Ex.c9_base (lookups_of Ex.c9_sc)
                     (buildTraversalBitmaps Ex.c9_sc [0x100]))).
Proof.
  split; [reflexivity|].
  exact (proj1 (proj1 (Forall_app _ _ _) (proj1 (scanSingleBasePointer_zero_breadth Ex.c9_sc Ex.c9_base
            (lookups_of Ex.c9_sc) (buildTraversalBitmaps Ex.c9_sc [0x100]) eq_refl)))).
Defined.

(** C9 counterexample: with [maxBreadth] 0 the scan of [c9]'s base
    pointer, whose values in both batches are a node of a detected
    structure, still reports a structure hit. *)
Lemma scanSingleBasePointer_zero_breadth_hit :
  sc_maxBreadth Ex.c9_sc = 0 /\
  r_structures (scanSingleBasePointer Ex.c9_sc Ex.c9_base (lookups_of Ex.c9_sc)
                  (buildTraversalBitmaps Ex.c9_sc [0x100])) =
    [FMoving {| h_kind := HStructure; h_id := 1 |} 1 []].
Proof. split; vm_compute; reflexivity. Qed.

(** ** Target nodes after list detection (C5) *)

Lemma fold_set_add_In (x : Z) (s l : list Z) :
  In x (foldl (fun s a => set_add a s) s l) <-> In x s \/ In x l.
Proof.
  revert s. induction l as [|a l IH]; intros s; simpl; [tauto|].
  rewrite IH, set_add_In. split; [intros [[->|H]|H]; auto | intros [H|[->|H]]; auto].
Qed.

Lemma nth_imap_upd (g : nat -> list Z -> list Z) (tn : list (list Z)) (b : nat) :
  nth b (imap g tn) [] = if (b <? length tn)%nat then g b (nth b tn []) else [].
Proof.
  revert g b. induction tn as [|x tn IH]; intros g [|b]; simpl; auto.
  rewrite IH. reflexivity.
Qed.

Lemma nth_overflow_nil (tn : list (list Z)) (b : nat) :
  (length tn <= b)%nat -> nth b tn [] = [].
Proof. intros H. apply nth_overflow. exact H. Qed.

Section Detection.

Variable B : nat.

(** What a structure's nodes must satisfy in the target-node sets. *)
Let struct_ok (tn : list (list Z)) (s : Structure) : Prop :=
  match s_type s with
  | StaticList => forall b, (b < B)%nat -> forall a, In a (s_addresses s ++ s_ghosts s) ->
                  In a (nth b tn [])
  | DynamicList => exists b, s_batchIdx s = Some b /\ (b < B)%nat /\
                   forall a, In a (s_addresses s) -> In a (nth b tn [])
  end.

Let inv (sc : Scanner) : Prop :=
  length (sc_batches sc) = B /\ length (sc_targetNodes sc) = B /\
  Forall (struct_ok (sc_targetNodes sc)) (sc_structures sc).

Let tn_incl (tn tn' : list (list Z)) : Prop :=
  length tn' = length tn /\ forall b a, In a (nth b tn []) -> In a (nth b tn' []).

Lemma struct_ok_mono (tn tn' : list (list Z)) (s : Structure) :
  tn_incl tn tn' -> struct_ok tn s -> struct_ok tn' s.
Proof.
  intros [_ Hi]. unfold struct_ok. destruct (s_type s).
  - intros H b Hb a Ha. apply Hi. apply H; assumption.
  - intros (b & Hb & HbB & H). exists b. split; [exact Hb|]. split; [exact HbB|].
    intros a Ha. apply Hi. apply H. exact Ha.
Qed.

Lemma upd_incl (tn : list (list Z)) (c : nat -> bool) (nodes : list Z) :
  tn_incl tn (imap (fun b s => if c b then foldl (fun s a => set_add a s) s nodes else s) tn).
Proof.
  split; [apply length_imap|]. intros b a Ha. rewrite nth_imap_upd.
  destruct (b <? length tn)%nat eqn:E.
  - destruct (c b); [apply fold_set_add_In; left|]; exact Ha.
  - apply Nat.ltb_ge in E. rewrite nth_overflow_nil in Ha by exact E. destruct Ha.
Qed.

Lemma upd_new (tn : list (list Z)) (c : nat -> bool) (nodes : list Z) (b : nat) (a : Z) :
  (b < length tn)%nat -> c b = true -> In a nodes ->
  In a (nth b (imap (fun b s => if c b then foldl (fun s a => set_add a s) s nodes else s) tn) []).
Proof.
  intros Hb Hc Ha. rewrite nth_imap_upd.
  destruct (b <? length tn)%nat eqn:E; [|apply Nat.ltb_ge in E; lia].
  rewrite Hc. apply fold_set_add_In. right. exact Ha.
Qed.

Lemma inv_with_structures (sc : Scanner) (tn : list (list Z)) (structs : list Structure) ss sn eps :
  inv sc -> tn_incl (sc_targetNodes sc) tn -> Forall (struct_ok tn) structs ->
  inv (with_detect sc ss sn tn (sc_structures sc ++ structs) eps).
Proof.
  intros (HB & Htn & Hs) Hi Hn. unfold with_detect, inv; cbn [sc_batches sc_targetNodes sc_structures].
  split; [exact HB|].
  split; [destruct Hi as [-> _]; exact Htn|]. apply Forall_app. split; [|exact Hn].
  eapply List.Forall_impl; [|exact Hs]. intros s. apply struct_ok_mono. exact Hi.
Qed.

Lemma tn_incl_refl (tn : list (list Z)) : tn_incl tn tn.
Proof. split; auto. Qed.

Lemma static_accept_inv (offset : Z) (st : Scanner * list Z * Z) (chain : Chain) :
  inv st.1.1 -> inv (static_accept offset st chain).1.1.
Proof.
  destruct st as [[sc pool] structId]. simpl. intros Hinv. unfold static_accept.
  destruct (negb (ch_isHead chain)); [exact Hinv|].
  destruct (Z.of_nat (length (ch_nodes chain)) <? sc_minChainLength sc); [exact Hinv|].
  simpl. apply inv_with_structures; [exact Hinv| apply upd_incl |].
  apply Forall_singleton. unfold struct_ok. simpl.
  intros b Hb a Ha. destruct Hinv as (HB & Htn & _).
  apply upd_new; [lia | apply Nat.ltb_lt; lia | exact Ha].
Qed.

Lemma static_offset_inv (st : option (Scanner * list Z * Z)) (offset : Z) (x : Scanner * list Z * Z) :
  static_offset st offset = Some x -> (forall y, st = Some y -> inv y.1.1) -> inv x.1.1.
Proof.
  destruct st as [[[sc pool] structId]|]; simpl; [|discriminate].
  intros Hx H. specialize (H _ eq_refl). simpl in H.
  destruct (walkChainsAtOffset pool offset (fun a => assoc_get a (sc_staticStatic sc)) _) as [r|];
    [|discriminate].
  destruct (length (wr_chains r) =? 0)%nat; injection Hx as <-; [exact H|].
  change (inv (sc, pool, structId).1.1) in H.
  generalize (sc, pool, structId) H. clear H.
  induction (resolveChainConflicts (wr_chains r)) as [|c l IH]; intros st Hst; [exact Hst|].
  simpl. apply IH. apply static_accept_inv. exact Hst.
Qed.

Lemma static_offsets_inv (offs : list Z) (st : option (Scanner * list Z * Z)) (x : Scanner * list Z * Z) :
  foldl static_offset st offs = Some x -> (forall y, st = Some y -> inv y.1.1) -> inv x.1.1.
Proof.
  revert st. induction offs as [|o offs IH]; intros st Hx H; simpl in Hx.
  - apply H. exact Hx.
  - apply (IH _ Hx). intros y Hy. eapply static_offset_inv; eassumption.
Qed.

Lemma detectStaticLists_inv (sc sc1 : Scanner) :
  inv sc -> detectStaticLists sc = Some sc1 -> inv sc1.
Proof.
  intros Hinv. unfold detectStaticLists.
  destruct (foldl static_offset _ detect_offsets) as [[[sc0 pool] structId]|] eqn:E;
    [|discriminate].
  intros H. injection H as <-.
  pose proof (static_offsets_inv _ _ _ E) as H0.
  assert (Hi0 : inv sc0).
  { apply H0. intros y Hy. injection Hy as <-. exact Hinv. }
  destruct Hi0 as (HB & Htn & Hs). split; [exact HB|]. split; [exact Htn|]. simpl.
  destruct (sc_generator sc0 && _); [|exact Hs].
  rewrite List.Forall_forall in Hs |- *. intros x Hx. apply filter_In in Hx as [Hx _].
  apply Hs. exact Hx.
Qed.

Lemma dynamic_accept_inv (offset : Z) (b : nat) (st : Scanner * list Z) (chain : Chain) :
  (b < B)%nat -> inv st.1 -> inv (dynamic_accept offset b st chain).1.
Proof.
  destruct st as [sc working]. simpl. intros HbB Hinv. unfold dynamic_accept.
  destruct (ch_isHead chain && (sc_minChainLength sc <=? Z.of_nat (length (ch_nodes chain)))).
  - simpl. apply inv_with_structures; [exact Hinv | apply upd_incl |].
    apply Forall_singleton. unfold struct_ok. simpl. exists b.
    split; [reflexivity|]. split; [exact HbB|]. intros a Ha.
    destruct Hinv as (HB & Htn & _).
    apply upd_new; [lia | apply Nat.eqb_refl | exact Ha].
  - destruct (negb (ch_isHead chain)); exact Hinv.
Qed.

Lemma dynamic_ep_inv (offset : Z) (b : nat) (st : Scanner * list Z) (ep : Chain) :
  inv st.1 -> inv (dynamic_ep offset b st ep).1.
Proof.
  destruct st as [sc working]. simpl. intros (HB & Htn & Hs).
  split; [exact HB|]. split; [exact Htn|]. exact Hs.
Qed.

Lemma dynamic_batch_inv (offset : Z) (st : option (Scanner * list (list Z))) (b : nat)
    (x : Scanner * list (list Z)) :
  (b < B)%nat -> dynamic_batch offset st b = Some x -> (forall y, st = Some y -> inv y.1) -> inv x.1.
Proof.
  intros HbB. destruct st as [[sc batchNodes]|]; simpl; [|discriminate].
  intros Hx H. specialize (H _ eq_refl). simpl in H.
  destruct (length (nth b batchNodes []) =? 0)%nat; [injection Hx as <-; exact H|].
  destruct (walkChainsAtOffset _ _ _ _) as [r|]; [|discriminate].
  destruct (foldl (dynamic_accept offset b) (sc, nth b batchNodes []) _) as [sc1 w1] eqn:E1.
  destruct (foldl (dynamic_ep offset b) (sc1, w1) _) as [sc2 w2] eqn:E2.
  injection Hx as <-. simpl.
  assert (H1 : inv sc1).
  { change sc1 with (sc1, w1).1. rewrite <- E1.
    change (inv (sc, nth b batchNodes []).1) in H.
    generalize (sc, nth b batchNodes []) H. clear E1 E2.
    induction (resolveChainConflicts (wr_chains r)) as [|c l IH]; intros st Hst; [exact Hst|].
    simpl. apply IH. apply dynamic_accept_inv; assumption. }
  change sc2 with (sc2, w2).1. rewrite <- E2.
  change (inv (sc1, w1).1) in H1.
  generalize (sc1, w1) H1. clear E1 E2.
  induction (wr_entryPoints r) as [|e l IH]; intros st Hst; [exact Hst|].
  simpl. apply IH. apply dynamic_ep_inv. exact Hst.
Qed.

Lemma dynamic_batches_inv (offset : Z) (bs : list nat) (st : option (Scanner * list (list Z)))
    (x : Scanner * list (list Z)) :
  Forall (fun b => b < B)%nat bs ->
  foldl (dynamic_batch offset) st bs = Some x -> (forall y, st = Some y -> inv y.1) -> inv x.1.
Proof.
  revert st. induction bs as [|b bs IH]; intros st Hbs Hx H; simpl in Hx.
  - apply H. exact Hx.
  - apply Forall_cons in Hbs as [Hb Hbs].
    apply (IH _ Hbs Hx). intros y Hy. eapply dynamic_batch_inv; eassumption.
Qed.

Lemma detectDynamicLists_inv (sc sc2 : Scanner) :
  inv sc -> detectDynamicLists sc = Some sc2 -> inv sc2.
Proof.
  intros Hinv. unfold detectDynamicLists.
  set (bs := seq 0 (length (sc_batches sc))).
  assert (Hbs : Forall (fun b => b < B)%nat bs).
  { apply Forall_forall. intros b Hb. apply list_elem_of_In, in_seq in Hb.
    destruct Hinv as [HB _]. lia. }
  set (st0 := Some (sc, _)).
  assert (H0 : forall y, st0 = Some y -> inv y.1) by (intros y Hy; injection Hy as <-; exact Hinv).
  clearbody st0. revert st0 H0.
  induction detect_offsets as [|o offs IH]; intros st0 H0; simpl.
  - destruct st0 as [[sc' bn]|]; [|discriminate]. intros H. injection H as <-.
    exact (H0 _ eq_refl).
  - apply IH. intros y Hy. eapply dynamic_batches_inv; eassumption.
Qed.

End Detection.

(** C5 (corrected): after [detectStaticLists] then [detectDynamicLists]
    (started, as the scanner does, with no structures and one target-node
    set per batch), the addresses and ghosts of every static list are in
    [targetNodes[b]] for every batch [b]; the addresses of a dynamic list
    are in the target-node set of the batch that produced it
    ([batchIdx]), which is one of the batches. *)
Theorem detection_targetNodes (sc sc1 sc2 : Scanner)
    (Htn : length (sc_targetNodes sc) = length (sc_batches sc))
    (Hs : sc_structures sc = [])
    (H1 : detectStaticLists sc = Some sc1) (H2 : detectDynamicLists sc1 = Some sc2) :
  forall s, In s (sc_structures sc2) ->
    match s_type s with
    | StaticList =>
        forall b, (b < length (sc_batches sc))%nat ->
          forall a, In a (s_addresses s ++ s_ghosts s) -> In a (nth b (sc_targetNodes sc2) [])
    | DynamicList =>
        exists b, s_batchIdx s = Some b /\ (b < length (sc_batches sc))%nat /\
          forall a, In a (s_addresses s) -> In a (nth b (sc_targetNodes sc2) [])
    end.
Proof.
  set (B := length (sc_batches sc)).
  assert (Hi : length (sc_batches sc) = B /\ length (sc_targetNodes sc) = B /\
               Forall (fun s => match s_type s with
                 | StaticList => forall b, (b < B)%nat -> forall a,
                     In a (s_addresses s ++ s_ghosts s) -> In a (nth b (sc_targetNodes sc) [])
                 | DynamicList => exists b, s_batchIdx s = Some b /\ (b < B)%nat /\
                     forall a, In a (s_addresses s) -> In a (nth b (sc_targetNodes sc) [])
                 end) (sc_structures sc)).
  { split; [reflexivity|]. split; [exact Htn|]. rewrite Hs. constructor. }
  pose proof (detectDynamicLists_inv B sc1 sc2 (detectStaticLists_inv B sc sc1 Hi H1) H2)
    as (_ & _ & Hf).
  intros s Hin. rewrite List.Forall_forall in Hf. exact (Hf s Hin).
Qed.

(** Witness of C5: detection on [c5s] finds the static list
    [[0x100; 0x104; 0x108]], whose nodes are then in the target-node sets
    of both batches; detection on [c5] finds a dynamic list, whose nodes
    are in the target-node set of its batch. *)
Lemma detection_targetNodes_witness :
  detectStaticLists Ex.c5s_sc = Some Ex.c5s_sc1 /\ detectDynamicLists Ex.c5s_sc1 = Some Ex.c5s_sc2 /\
  map (fun s => (s_type s, s_addresses s)) (sc_structures Ex.c5s_sc2) =
    [(StaticList, [0x100; 0x104; 0x108])] /\
  (forall b, (b < length (sc_batches Ex.c5s_sc))%nat ->
    forall a, In a [0x100; 0x104; 0x108] -> In a (nth b (sc_targetNodes Ex.c5s_sc2) [])) /\
  detectStaticLists Ex.c5_sc = Some Ex.c5_sc1 /\ detectDynamicLists Ex.c5_sc1 = Some Ex.c5_sc2 /\
  exists b, (b < length (sc_batches Ex.c5_sc))%nat /\
    forall a, In a [0x100; 0x104] -> In a (nth b (sc_targetNodes Ex.c5_sc2) []).
Proof.
  assert (S1 : detectStaticLists Ex.c5s_sc = Some Ex.c5s_sc1) by (vm_compute; reflexivity).
  assert (S2 : detectDynamicLists Ex.c5s_sc1 = Some Ex.c5s_sc2) by (vm_compute; reflexivity).
  split; [exact S1|]. split; [exact S2|]. split; [vm_compute; reflexivity|].
  split.
  { pose proof (detection_targetNodes Ex.c5s_sc Ex.c5s_sc1 Ex.c5s_sc2 eq_refl eq_refl S1 S2
                  (hd Ex.c9_structure (sc_structures Ex.c5s_sc2)) ltac:(vm_compute; left; reflexivity))
      as H.
    vm_compute in H. intros b Hb a Ha. apply (H b Hb a). vm_compute in Ha |- *.
    exact Ha. }
  assert (H1 : detectStaticLists Ex.c5_sc = Some Ex.c5_sc1) by (vm_compute; reflexivity).
  assert (H2 : detectDynamicLists Ex.c5_sc1 = Some Ex.c5_sc2) by (vm_compute; reflexivity).
  split; [exact H1|]. split; [exact H2|].
  pose proof (detection_targetNodes Ex.c5_sc Ex.c5_sc1 Ex.c5_sc2 eq_refl eq_refl H1 H2
                (hd Ex.c9_structure (sc_structures Ex.c5_sc2)) ltac:(vm_compute; left; reflexivity))
    as H.
  vm_compute in H. destruct H as (b & Hb & HbB & Ha).
  exists b. split; [exact HbB|]. exact Ha.
Defined.

(** C5 counterexample: in [c5] the node [0x100] points at [0x104] in
    batch 0 only; dynamic detection finds the list [[0x100; 0x104]] in
    batch 0 and adds its nodes to [targetNodes[0]] only, so they are not
    in [targetNodes[1]]. *)
Lemma detection_dynamic_list_one_batch :
  option_map (fun s => (map s_addresses (sc_structures s), sc_targetNodes s))
             (detectStaticLists Ex.c5_sc ≫= detectDynamicLists) =
  Some ([[0x100; 0x104]], [[0x100; 0x104]; []]).
Proof. vm_compute. reflexivity. Qed.

(** ** Counts before and after masking (C4) *)

Lemma testbit_mul_pow2_add (x r k n : Z) :
  0 <= k -> 0 <= r < 2 ^ k -> 0 <= n ->
  Z.testbit (x * 2 ^ k + r) n = if n <? k then Z.testbit r n else Z.testbit x (n - k).
Proof.
  intros Hk Hr Hn. assert (Hp : 0 < 2 ^ k) by (apply Z.pow_pos_nonneg; lia).
  destruct (Z.ltb_spec n k).
  - rewrite <- (Z.mod_pow2_bits_low (x * 2 ^ k + r) k n) by lia.
    f_equal. rewrite Z.add_comm, Z.mod_add by lia. apply Z.mod_small. exact Hr.
  - replace n with ((n - k) + k) at 1 by lia. rewrite <- Z.div_pow2_bits by lia.
    f_equal. rewrite Z.div_add_l by lia. rewrite (Z.div_small r) by exact Hr. lia.
Qed.

(** [q * 2^k + r] with [r < 2^k], masked by [m] whose low [k] bits are all
    set: the low part is kept, the high part is masked by [m >> k]. *)
Lemma land_split (q r m p k a : Z) :
  0 <= k -> p = 2 ^ k -> 0 <= r < p ->
  Z.land q (m / p) = a -> m mod p = p - 1 ->
  Z.land (q * p + r) m = a * p + r.
Proof.
  intros Hk -> Hr Ha Hm. assert (Hp : 0 < 2 ^ k) by (apply Z.pow_pos_nonneg; lia).
  assert (Hm' : m = m / 2 ^ k * 2 ^ k + (2 ^ k - 1)).
  { rewrite <- Hm. rewrite Z.mul_comm. apply Z.div_mod. lia. }
  apply Z.bits_inj'. intros n Hn.
  assert (Ht : Z.testbit m n = Z.testbit (m / 2 ^ k * 2 ^ k + (2 ^ k - 1)) n)
    by (rewrite <- Hm'; reflexivity).
  rewrite Z.land_spec, Ht.
  rewrite !testbit_mul_pow2_add by lia.
  destruct (n <? k) eqn:E.
  - apply Z.ltb_lt in E.
    replace (2 ^ k - 1) with (Z.ones k) by (rewrite Z.ones_equiv; lia).
    rewrite Z.ones_spec_low by lia. apply andb_true_r.
  - rewrite <- Ha, Z.land_spec. reflexivity.
Qed.

Lemma valid_value_range (sid : SystemId) (w : Z) :
  valid_value sid w = true ->
  match memoryRange (systems sid) with
  | Single r => mr_min r + 1 <= w <= mr_max r
  | Dual r1 r2 => mr_min r1 + 1 <= w <= mr_max r1 \/ mr_min r2 + 1 <= w <= mr_max r2
  end.
Proof.
  unfold valid_value. destruct (memoryRange (systems sid)) as [r|r1 r2]; intros H;
    apply andb_true_iff in H as [_ H].
  - apply andb_true_iff in H as [H1 H2]. apply Z.leb_le in H1, H2. lia.
  - destruct (dualRange (systems sid)); [|discriminate].
    apply andb_true_iff in H as [_ H].
    destruct (Z.land (toInt32 w) 0x10000000 =? 0);
      apply andb_true_iff in H as [H1 H2]; apply Z.leb_le in H1, H2; lia.
Qed.

Lemma valid_value_bounds (sid : SystemId) (w : Z) :
  valid_value sid w = true -> 1 <= w < 4294967296.
Proof.
  intros H. apply valid_value_range in H. destruct sid; simpl in H; lia.
Qed.

Lemma toInt32_small (w : Z) : 0 <= w < 4294967296 ->
  toInt32 w = if 2147483648 <=? w then w - 4294967296 else w.
Proof.
  intros H. unfold toInt32. change (2 ^ 32) with 4294967296. change (2 ^ 31) with 2147483648.
  rewrite Z.mod_small by lia. reflexivity.
Qed.

Lemma valid_toInt32_nonzero (sid : SystemId) (w : Z) :
  valid_value sid w = true -> toInt32 w <> 0.
Proof.
  intros H. apply valid_value_bounds in H. rewrite toInt32_small by lia.
  destruct (Z.leb_spec 2147483648 w); lia.
Qed.

Ltac land_case q r k p a :=
  rewrite (land_split q r _ p k a) by (lia || reflexivity);
  unfold toUint32, toInt32; change (2 ^ 32) with 4294967296; change (2 ^ 31) with 2147483648;
  rewrite !(Z.mod_small (a * p + r) 4294967296) by lia;
  destruct (Z.leb_spec 2147483648 (a * p + r)); lia.

(** Masking a stored valid value gives the value less [mask_base]. *)
Lemma mask_valid (sid : SystemId) (m w : Z) :
  getSystemMask sid = Some m -> valid_value sid w = true ->
  toInt32 (toUint32 (Z.land (toInt32 w) m)) = w - mask_base sid /\ 0 < w - mask_base sid.
Proof.
  intros Hm Hv. pose proof (valid_value_range sid w Hv) as Hr.
  pose proof (valid_value_bounds sid w Hv) as Hb.
  rewrite (toInt32_small w) by lia.
  destruct sid; simpl in Hm; try discriminate; injection Hm as <-; unfold mask_base; simpl in Hr |- *;
    split; try lia.
  - destruct (Z.leb_spec 2147483648 w); [|lia].
    replace (w - 4294967296) with ((-1024) * 2097152 + (w - 2147483648)) by lia.
    land_case (-1024) (w - 2147483648) 21 2097152 0.
  - destruct (Z.leb_spec 2147483648 w); [lia|].
    replace w with (4 * 33554432 + (w - 134217728)) at 1 by lia.
    land_case 4 (w - 134217728) 25 33554432 0.
  - destruct (Z.leb_spec 2147483648 w); [|lia].
    replace (w - 4294967296) with ((-64) * 33554432 + (w - 2147483648)) by lia.
    land_case (-64) (w - 2147483648) 25 33554432 0.
  - destruct (Z.leb_spec 2147483648 w); [|lia].
    destruct Hr as [Hr|Hr].
    + replace (w - 4294967296) with ((-64) * 33554432 + (w - 2147483648)) by lia.
      land_case (-64) (w - 2147483648) 25 33554432 0.
    + replace (w - 4294967296) with ((-28) * 67108864 + (w - 2415919104)) by lia.
      land_case (-28) (w - 2415919104) 26 67108864 4.
Qed.

(** Every reachable state keeps its system and stores only empty slots
    and validated values. *)
Lemma reachable_good_slots (st : PState) :
  p_reachable st ->
  exists sid, systemId st = Some sid /\
    map_Forall (fun _ v => Forall (good_slot sid) v) (nodeMap st).
Proof.
  induction 1 as [sid|st sid rows st' Hr IH Hs Hv Ha|st i st' Hr IH Hrm].
  - exists sid. split; [reflexivity|]. apply map_Forall_empty.
  - destruct IH as [sid' [Hs' Hf]]. rewrite Hs in Hs'. injection Hs' as <-.
    unfold addBatch in Ha. rewrite Hs in Ha.
    destruct (maxBatches <=? batchCount st)%nat; [discriminate|].
    injection Ha as <-. exists sid. split; [reflexivity|]. simpl.
    set (keep := keep_row (getSystemMask sid) rows). clearbody keep.
    revert Hf. generalize (nodeMap st).
    induction Hv as [|av rows Hav Hrows IHr]; intros m Hm; simpl; [exact Hm|].
    apply IHr. unfold add_row. destruct (keep av); [|exact Hm].
    assert (Hg : good_slot sid (toInt32 av.2)) by (right; exists av.2; split; [exact Hav|reflexivity]).
    destruct (m !! av.1) as [slots|] eqn:E; apply map_Forall_insert_2; try exact Hm;
      apply Forall_insert; try exact Hg.
    + exact (map_Forall_lookup_1 _ _ _ _ Hm E).
    + apply Forall_replicate. left. reflexivity.
  - destruct IH as [sid [Hs Hf]]. unfold removeBatch in Hrm.
    destruct (batchCount st <=? i)%nat; [discriminate|].
    injection Hrm as <-. exists sid. split; [exact Hs|]. simpl.
    intros k v Hk. apply map_lookup_filter_Some in Hk as [Hk _].
    rewrite lookup_fmap in Hk. destruct (nodeMap st !! k) as [slots|] eqn:E; [|discriminate].
    injection Hk as <-. pose proof (map_Forall_lookup_1 _ _ _ _ Hf E) as Hs'.
    unfold shift_slots. apply Forall_app. split; [apply Forall_take; exact Hs'|].
    apply Forall_app. split; [apply Forall_drop; exact Hs'|].
    constructor; [left; reflexivity | constructor].
Qed.

(** [_classify]'s loop sees the same equalities and zeros through a map
    [F] that fixes 0 and is injective and non-zero on the stored values. *)
Section ClassifyMap.
Variable S : Z -> Prop.
Variable F : Z -> Z.
Hypothesis HF0 : F 0 = 0.
Hypothesis HFnz : forall x, S x -> x <> 0 -> F x <> 0.
Hypothesis HFinj : forall x y, S x -> S y -> F x = F y -> x = y.

Lemma F_eqb0 (x : Z) : S x -> Z.eqb (F x) 0 = Z.eqb x 0.
Proof.
  intros Hx. destruct (Z.eqb_spec x 0) as [->|Hn].
  - rewrite HF0. reflexivity.
  - apply Z.eqb_neq. exact (HFnz x Hx Hn).
Qed.

Lemma F_eqb (x y : Z) : S x -> S y -> Z.eqb (F x) (F y) = Z.eqb x y.
Proof.
  intros Hx Hy. destruct (Z.eqb_spec x y) as [->|Hn].
  - apply Z.eqb_refl.
  - apply Z.eqb_neq. intros He. exact (Hn (HFinj x y Hx Hy He)).
Qed.

Lemma classify_loop_map (l : list Z) (fv : Z) (asv : bool) :
  Forall S l -> fv = 0 \/ S fv ->
  classify_loop (map F l) (F fv) asv = classify_loop l fv asv.
Proof.
  intros Hl. revert fv asv.
  induction Hl as [|x l Hx Hl IH]; intros fv asv Hfv; [reflexivity|].
  simpl. rewrite (F_eqb0 x Hx). destruct (x =? 0); [reflexivity|].
  destruct Hfv as [->|Hfv].
  - rewrite HF0. simpl. apply IH. right. exact Hx.
  - rewrite (F_eqb0 fv Hfv). destruct (fv =? 0); [apply IH; right; exact Hx|].
    rewrite (F_eqb x fv Hx Hfv). destruct (x =? fv); simpl; apply IH; right; exact Hfv.
Qed.

End ClassifyMap.

Lemma firstn_imap_mask (n : nat) (h : Z -> Z) (v : list Z) :
  firstn n (imap (fun b x => if (b <? n)%nat && negb (Z.eqb x 0) then h x else x) v) =
  map (fun x => if Z.eqb x 0 then x else h x) (firstn n v).
Proof.
  revert n. induction v as [|x v IH]; intros n; destruct n as [|n]; try reflexivity.
  simpl. f_equal.
  - destruct (x =? 0); reflexivity.
  - apply IH.
Qed.

(** Masking the slots of a reachable state leaves their class unchanged. *)
Lemma classify_mask_slots (sid : SystemId) (n : nat) (v : list Z) :
  Forall (good_slot sid) v ->
  classify n (mask_slots (getSystemMask sid) n v) = classify n v.
Proof.
  intros Hv. unfold mask_slots. destruct (getSystemMask sid) as [m|] eqn:Hm; [|reflexivity].
  unfold classify. rewrite firstn_imap_mask.
  set (F := fun x => if Z.eqb x 0 then x else toInt32 (toUint32 (Z.land x m))).
  assert (HFv : forall w, valid_value sid w = true -> F (toInt32 w) = w - mask_base sid /\ 0 < w - mask_base sid).
  { intros w Hw. unfold F. rewrite (proj2 (Z.eqb_neq _ _) (valid_toInt32_nonzero sid w Hw)).
    exact (mask_valid sid m w Hm Hw). }
  transitivity (classify_loop (map F (take n v)) (F 0) true); [reflexivity|].
  apply (classify_loop_map (good_slot sid) F eq_refl).
  - intros x [->|[w [Hw ->]]] Hx; [contradiction|].
    destruct (HFv w Hw) as [-> Hp]. lia.
  - intros x y [->|[w [Hw ->]]] [->|[w' [Hw' ->]]] He.
    + reflexivity.
    + destruct (HFv w' Hw') as [Hy Hp]. unfold F at 1 in He. simpl in He. lia.
    + destruct (HFv w Hw) as [Hx Hp]. unfold F at 2 in He. simpl in He. lia.
    + destruct (HFv w Hw) as [Hx Hp], (HFv w' Hw') as [Hy Hp'].
      assert (w = w') as -> by lia. reflexivity.
  - apply Forall_take. exact Hv.
  - left. reflexivity.
Qed.

(** The size of a class in a map, counted on the map of classes. *)
Lemma tally_fmap (n : nat) (c : Cls) (m : gmap Z (list Z)) :
  tally n c m = size (filter (fun kv : Z * Cls => kv.2 = c) (classify n <$> m)).
Proof.
  unfold tally. rewrite map_filter_fmap, map_size_fmap. reflexivity.
Qed.

(** C4: on every reachable state, the three class counts of [getCounts()]
    are the sizes of the three partitions [collapse()] builds, although
    [collapse()] masks the values before classifying them. *)
Theorem getCounts_collapse (st : PState) (H : p_reachable st) :
  c_staticStatics (getCounts st) = length (co_staticStatics (collapse st)) /\
  c_staticNodes (getCounts st) = length (co_staticNodes (collapse st)) /\
  c_dynamicNodes (getCounts st) = length (co_dynamicNodes (collapse st)).
Proof.
  destruct (reachable_good_slots st H) as [sid [Hs Hf]].
  assert (Hc : forall c, tally (batchCount st) c (nodeMap st) =
     size (filter (fun kv : Z * list Z => classify (batchCount st) kv.2 = c)
                  (mask_slots (getSystemMask sid) (batchCount st) <$> nodeMap st))).
  { intros c. unfold tally. rewrite map_filter_fmap, map_size_fmap. f_equal.
    apply map_filter_ext. intros k v Hk. simpl.
    rewrite (classify_mask_slots sid _ v (Hf k v Hk)). tauto. }
  change (c_staticStatics (getCounts st)) with (tally (batchCount st) StaticStatic (nodeMap st)).
  change (c_staticNodes (getCounts st)) with (tally (batchCount st) StaticNode (nodeMap st)).
  change (c_dynamicNodes (getCounts st)) with (tally (batchCount st) DynamicNode (nodeMap st)).
  unfold collapse. rewrite Hs. cbn [co_staticStatics co_staticNodes co_dynamicNodes].
  rewrite !length_fmap, !length_map_to_list, !Hc.
  split; [reflexivity | split; reflexivity].
Qed.

(** Witness of C4: a GameCube state after one batch. *)
Lemma getCounts_collapse_witness :
  p_reachable Ex.c4_st /\
  (c_staticStatics (getCounts Ex.c4_st) = length (co_staticStatics (collapse Ex.c4_st)) /\
   c_staticNodes (getCounts Ex.c4_st) = length (co_staticNodes (collapse Ex.c4_st)) /\
   c_dynamicNodes (getCounts Ex.c4_st) = length (co_dynamicNodes (collapse Ex.c4_st))).
Proof.
  assert (H : p_reachable Ex.c4_st).
  { apply (pr_add (setSystem p_reset gamecube) gamecube Ex.c4_rows);
      [apply pr_set | reflexivity | unfold valid_rows; repeat constructor | vm_compute; reflexivity]. }
  split; [exact H | exact (getCounts_collapse Ex.c4_st H)].
Defined.

(** ** Removing a batch and adding it back (C7) *)

Lemma foldl_add_row (bi : nat) (keep : Z * Z -> bool) (rows : Rows) (m : gmap Z (list Z)) (k : Z) :
  foldl (add_row bi keep) m rows !! k =
  match last_kept keep rows k with
  | None => m !! k
  | Some x => Some (<[bi := x]> (default (replicate maxBatches 0) (m !! k)))
  end.
Proof.
  unfold last_kept. induction rows as [|av rows IH] using rev_ind; [reflexivity|].
  rewrite !foldl_app. cbn [foldl]. unfold add_row at 1.
  set (M := foldl (add_row bi keep) m rows) in *.
  set (P := foldl _ None rows) in *.
  destruct (keep av) eqn:Hk; cbn [andb]; [|exact IH].
  destruct (Z.eqb_spec av.1 k) as [<-|Hne].
  - match goal with |- context [match ?x with Some _ => _ | None => _ end] => destruct x as [s|] eqn:E end;
      rewrite lookup_insert_eq; rename IH into E'.
    + destruct P as [x|]; [|rewrite <- E'; reflexivity].
      injection E' as ->. rewrite list_insert_insert_eq. reflexivity.
    + destruct P as [x|]; [discriminate|]. rewrite <- E'. reflexivity.
  - match goal with |- context [match ?x with Some _ => _ | None => _ end] => destruct x end;
      rewrite lookup_insert_ne by exact Hne; exact IH.
Qed.

Lemma present_app (sid : SystemId) (L L' : list Rows) (k : Z) :
  present sid (L ++ L') k = present sid L k || present sid L' k.
Proof. unfold present. apply existsb_app. Qed.

Lemma expected_slots_split (sid : SystemId) (L : list Rows) (k : Z) :
  (length L < maxBatches)%nat ->
  expected_slots sid L k =
  map (fun rows => slotv sid rows k) L ++ 0 :: replicate (maxBatches - S (length L)) 0.
Proof.
  intros H. unfold expected_slots. f_equal.
  replace (maxBatches - length L)%nat with (S (maxBatches - S (length L))) by (unfold maxBatches in *; lia).
  reflexivity.
Qed.

Lemma expected_slots_snoc (sid : SystemId) (L : list Rows) (b : Rows) (k : Z) :
  (length L < maxBatches)%nat ->
  expected_slots sid (L ++ [b]) k =
  map (fun rows => slotv sid rows k) L ++ slotv sid b k :: replicate (maxBatches - S (length L)) 0.
Proof.
  intros H. unfold expected_slots. rewrite map_app, length_app, <- app_assoc.
  simpl. rewrite Nat.add_1_r. reflexivity.
Qed.

Lemma expected_slots_absent (sid : SystemId) (L : list Rows) (k : Z) :
  (length L <= maxBatches)%nat -> present sid L k = false ->
  expected_slots sid L k = replicate maxBatches 0.
Proof.
  intros Hle Hp. unfold expected_slots.
  assert (Hz : map (fun rows => slotv sid rows k) L = replicate (length L) 0).
  { clear Hle. induction L as [|rows L IH]; [reflexivity|].
    unfold present in Hp. simpl in Hp. apply orb_false_iff in Hp as [H1 H2].
    simpl. unfold slotv at 1. destruct (lastv sid rows k); [discriminate|].
    simpl. f_equal. exact (IH H2). }
  rewrite Hz, <- replicate_add. f_equal. lia.
Qed.

Lemma batch_char_set (sid : SystemId) : batch_char sid (setSystem p_reset sid) [].
Proof.
  split; [reflexivity|]. split; [reflexivity|]. split; [unfold maxBatches; simpl; lia|].
  intros k. reflexivity.
Qed.

Lemma batch_char_add (sid : SystemId) (st st' : PState) (L : list Rows) (b : Rows) :
  batch_char sid st L -> addBatch st b = Some st' -> batch_char sid st' (L ++ [b]).
Proof.
  intros (Hs & Hn & Hle & Hk) Ha. unfold addBatch in Ha. rewrite Hs in Ha.
  destruct (maxBatches <=? batchCount st)%nat eqn:E; [discriminate|].
  apply Nat.leb_gt in E. injection Ha as <-.
  split; [reflexivity|]. rewrite length_app. simpl.
  split; [rewrite Hn; lia|]. split; [lia|].
  intros k. rewrite foldl_add_row, Hk, present_app. fold (lastv sid b k).
  rewrite Hn in *.
  assert (Hb : present sid [b] k = if lastv sid b k then true else false)
    by (unfold present; cbn [existsb]; destruct (lastv sid b k); reflexivity).
  rewrite Hb.
  destruct (lastv sid b k) as [x|] eqn:Ev; destruct (present sid L k) eqn:Ep; cbn [orb default from_option id].
  - rewrite expected_slots_split, expected_slots_snoc by lia.
    rewrite insert_app_r_alt by (rewrite length_map; lia).
    rewrite length_map, Nat.sub_diag. unfold slotv. rewrite Ev. reflexivity.
  - rewrite <- (expected_slots_absent sid L k) by (lia || exact Ep).
    rewrite expected_slots_split, expected_slots_snoc by lia.
    rewrite insert_app_r_alt by (rewrite length_map; lia).
    rewrite length_map, Nat.sub_diag. unfold slotv. rewrite Ev. reflexivity.
  - rewrite expected_slots_split, expected_slots_snoc by lia.
    replace (slotv sid b k) with 0 by (unfold slotv; rewrite Ev; reflexivity). reflexivity.
  - reflexivity.
Qed.

Lemma build_char (sid : SystemId) (L : list Rows) (st : PState) :
  build sid L = Some st -> batch_char sid st L.
Proof.
  revert st. induction L as [|b L IH] using rev_ind; intros st H.
  - injection H as <-. apply batch_char_set.
  - unfold build in H. rewrite foldl_app in H. simpl in H. fold (build sid L) in H.
    destruct (build sid L) as [st0|]; [|discriminate].
    simpl in H. exact (batch_char_add sid st0 st L b (IH st0 eq_refl) H).
Qed.

Lemma last_kept_nonzero (sid : SystemId) (keep : Z * Z -> bool) (rows : Rows) (k : Z) (x : Z) :
  valid_rows sid rows -> last_kept keep rows k = Some x -> x <> 0.
Proof.
  unfold last_kept. intros Hv.
  assert (Hacc : forall acc : option Z, (forall y, acc = Some y -> y <> 0) ->
    forall y, foldl (fun acc av => if keep av && Z.eqb av.1 k then Some (toInt32 av.2) else acc)
                    acc rows = Some y -> y <> 0).
  { induction Hv as [|av rows Hav Hrows IH]; intros acc Ha y Hy; [exact (Ha y Hy)|].
    cbn [foldl] in Hy. refine (IH _ _ y Hy). intros z Hz.
    destruct (keep av && (av.1 =? k)); [|exact (Ha z Hz)].
    injection Hz as <-. exact (valid_toInt32_nonzero sid av.2 Hav). }
  apply Hacc. intros y Hy. discriminate.
Qed.

Lemma present_delete (sid : SystemId) (L : list Rows) (i : nat) (k : Z) :
  present sid L k = false -> present sid (delete i L) k = false.
Proof.
  unfold present. revert i. induction L as [|rows L IH]; intros i Hp; [reflexivity|].
  cbn [existsb] in Hp. apply orb_false_iff in Hp as [H1 H2].
  destruct i as [|i]; cbn [delete list_delete existsb]; [exact H2|].
  rewrite H1. exact (IH i H2).
Qed.

Lemma shift_expected_slots (sid : SystemId) (L : list Rows) (i : nat) (k : Z) :
  (i < length L)%nat -> (length L <= maxBatches)%nat ->
  shift_slots i (expected_slots sid L k) = expected_slots sid (delete i L) k.
Proof.
  intros Hi Hle. unfold shift_slots, expected_slots.
  set (f := fun rows => slotv sid rows k).
  rewrite delete_take_drop, map_app, length_app, length_take, length_drop.
  rewrite take_app_le by (rewrite length_map; lia).
  rewrite drop_app_le by (rewrite length_map; lia).
  rewrite firstn_map, skipn_map, <- !app_assoc. f_equal. f_equal.
  rewrite <- replicate_S_end. f_equal. unfold maxBatches in *. lia.
Qed.

Lemma any_nonzero_expected (sid : SystemId) (L : list Rows) (k : Z) :
  Forall (valid_rows sid) L ->
  any_nonzero (length L) (expected_slots sid L k) = present sid L k.
Proof.
  intros Hv. unfold any_nonzero, expected_slots, present.
  rewrite take_app_length' by (rewrite length_map; reflexivity).
  induction Hv as [|rows L Hr Hv IH]; [reflexivity|].
  cbn [map existsb]. rewrite IH. f_equal.
  unfold slotv, lastv. destruct (last_kept _ rows k) as [x|] eqn:E; [|reflexivity].
  apply (last_kept_nonzero sid) in E; [|exact Hr].
  simpl. apply Z.eqb_neq in E. rewrite E. reflexivity.
Qed.

Lemma batch_char_remove (sid : SystemId) (st st' : PState) (L : list Rows) (i : nat) :
  Forall (valid_rows sid) L -> batch_char sid st L -> removeBatch st i = Some st' ->
  batch_char sid st' (delete i L).
Proof.
  intros Hv (Hs & Hn & Hle & Hk) Hr. unfold removeBatch in Hr.
  destruct (batchCount st <=? i)%nat eqn:E; [discriminate|].
  apply Nat.leb_gt in E. injection Hr as <-. rewrite Hn in *.
  assert (Hlen : length (delete i L) = (length L - 1)%nat)
    by (apply length_delete, lookup_lt_is_Some_2; exact E).
  split; [exact Hs|]. split; [simpl; rewrite Hlen; reflexivity|]. split; [lia|].
  intros k. cbn [nodeMap mkPState]. rewrite map_lookup_filter, lookup_fmap, Hk.
  destruct (present sid L k) eqn:Ep; cbn [fmap option_fmap option_map mbind option_bind].
  - rewrite shift_expected_slots by lia. rewrite <- Hlen. cbn [snd].
    rewrite any_nonzero_expected by (apply Forall_delete; exact Hv).
    destruct (present sid (delete i L) k); simpl; reflexivity.
  - rewrite present_delete by exact Ep. reflexivity.
Qed.

Lemma classify_loop_spec (l : list Z) (fv : Z) (asv : bool) :
  fv <> 0 ->
  classify_loop l fv asv =
  if existsb (fun x => Z.eqb x 0) l then DynamicNode
  else if asv && forallb (fun y => Z.eqb y fv) l then StaticStatic else StaticNode.
Proof.
  intros Hfv. revert asv. induction l as [|x l IH]; intros asv.
  - destruct asv; reflexivity.
  - cbn [classify_loop existsb forallb]. destruct (x =? 0) eqn:Ex; [reflexivity|].
    rewrite (proj2 (Z.eqb_neq fv 0) Hfv). cbn [orb negb].
    destruct (Z.eqb_spec x fv) as [->|Hne]; cbn [negb].
    + rewrite IH. destruct asv; reflexivity.
    + rewrite IH. destruct asv; cbn [andb]; reflexivity.
Qed.

Lemma classify_class_spec (l : list Z) : classify_loop l 0 true = class_spec l.
Proof.
  destruct l as [|x l]; [reflexivity|].
  unfold class_spec. cbn [classify_loop existsb forallb].
  destruct (x =? 0) eqn:Ex; [reflexivity|]. cbn [orb].
  rewrite classify_loop_spec by (apply Z.eqb_neq; exact Ex).
  rewrite (Z.eqb_refl x). reflexivity.
Qed.

Lemma existsb_perm {A} (f : A -> bool) (l l' : list A) :
  Permutation l l' -> existsb f l = existsb f l'.
Proof.
  induction 1 as [|x l l' _ IH|x y l|l l' l'' _ IH1 _ IH2]; cbn [existsb].
  - reflexivity.
  - rewrite IH. reflexivity.
  - destruct (f x), (f y); reflexivity.
  - congruence.
Qed.

Lemma forallb_head_perm (x y : Z) (t t' : list Z) :
  Permutation (x :: t) (y :: t') ->
  forallb (fun z => Z.eqb z x) (x :: t) = true -> forallb (fun z => Z.eqb z y) (y :: t') = true.
Proof.
  intros Hp H. rewrite forallb_forall in H |- *. intros z Hz.
  assert (Hy : In y (x :: t)) by (eapply Permutation_in; [symmetry; exact Hp | left; reflexivity]).
  assert (Hz' : In z (x :: t)) by (eapply Permutation_in; [symmetry; exact Hp | exact Hz]).
  apply H, Z.eqb_eq in Hy. apply H, Z.eqb_eq in Hz'. apply Z.eqb_eq. congruence.
Qed.

(** The class of a slot list does not depend on the order of the slots. *)
Lemma class_spec_perm (l l' : list Z) : Permutation l l' -> class_spec l = class_spec l'.
Proof.
  intros Hp. unfold class_spec. rewrite (existsb_perm _ _ _ Hp).
  destruct (existsb _ l'); [reflexivity|].
  destruct l as [|x t], l' as [|y t'].
  - reflexivity.
  - apply Permutation_length in Hp. discriminate.
  - apply Permutation_length in Hp. discriminate.
  - destruct (forallb (fun z => Z.eqb z x) (x :: t)) eqn:E1,
      (forallb (fun z => Z.eqb z y) (y :: t')) eqn:E2; try reflexivity.
    + rewrite (forallb_head_perm x y t t' Hp E1) in E2. discriminate.
    + rewrite (forallb_head_perm y x t' t (Permutation_sym Hp) E2) in E1. discriminate.
Qed.

Lemma classify_expected (sid : SystemId) (L : list Rows) (k : Z) :
  classify (length L) (expected_slots sid L k) = class_spec (map (fun rows => slotv sid rows k) L).
Proof.
  unfold classify, expected_slots.
  rewrite take_app_length' by (rewrite length_map; reflexivity).
  apply classify_class_spec.
Qed.

(** Two states given by batch lists that are permutations of each other
    have the same class counts. *)
Lemma batch_char_tally (sid : SystemId) (st st' : PState) (L L' : list Rows) :
  batch_char sid st L -> batch_char sid st' L' -> Permutation L L' ->
  forall c, tally (batchCount st) c (nodeMap st) = tally (batchCount st') c (nodeMap st').
Proof.
  intros (Hs & Hn & Hle & Hk) (Hs' & Hn' & Hle' & Hk') Hp c.
  rewrite !tally_fmap.
  assert (Hm : classify (batchCount st) <$> nodeMap st = classify (batchCount st') <$> nodeMap st').
  { apply map_eq. intros k. rewrite !lookup_fmap, Hk, Hk', Hn, Hn'.
    assert (Hpr : present sid L k = present sid L' k) by (unfold present; apply existsb_perm; exact Hp).
    rewrite Hpr. destruct (present sid L' k); [|reflexivity].
    cbn [fmap option_fmap option_map]. f_equal. rewrite !classify_expected.
    apply class_spec_perm, Permutation_map. exact Hp. }
  rewrite Hm. reflexivity.
Qed.

(** C7: for batches [L] fed to a fresh preprocessor and [i] one of their
    indexes, [removeBatch(i)] then [addBatch] of the original batch [i]
    both succeed and leave the StaticStatic, StaticNode and DynamicNode
    counts of [getCounts()] as they were before the removal. *)
Theorem removeBatch_addBatch_counts (sid : SystemId) (L : list Rows) (i : nat) (st : PState)
    (Hv : Forall (valid_rows sid) L) (Hb : build sid L = Some st) (Hi : (i < length L)%nat) :
  exists st1 st2, removeBatch st i = Some st1 /\ addBatch st1 (nth i L []) = Some st2 /\
    c_staticStatics (getCounts st2) = c_staticStatics (getCounts st) /\
    c_staticNodes (getCounts st2) = c_staticNodes (getCounts st) /\
    c_dynamicNodes (getCounts st2) = c_dynamicNodes (getCounts st).
Proof.
  pose proof (build_char sid L st Hb) as Hc.
  pose proof Hc as (Hs & Hn & Hle & _).
  destruct (removeBatch st i) as [st1|] eqn:Hr.
  2:{ unfold removeBatch in Hr. destruct (batchCount st <=? i)%nat eqn:E; [|discriminate].
      apply Nat.leb_le in E. lia. }
  pose proof (batch_char_remove sid st st1 L i Hv Hc Hr) as Hc1.
  pose proof Hc1 as (Hs1 & Hn1 & Hle1 & _).
  assert (Hlen : length (delete i L) = (length L - 1)%nat)
    by (apply length_delete, lookup_lt_is_Some_2; exact Hi).
  destruct (addBatch st1 (nth i L [])) as [st2|] eqn:Ha.
  2:{ unfold addBatch in Ha. rewrite Hs1 in Ha.
      destruct (maxBatches <=? batchCount st1)%nat eqn:E; [|discriminate].
      apply Nat.leb_le in E. rewrite Hn1, Hlen in E. lia. }
  pose proof (batch_char_add sid st1 st2 (delete i L) _ Hc1 Ha) as Hc2.
  assert (Hp : Permutation (delete i L ++ [nth i L []]) L).
  { destruct (lookup_lt_is_Some_2 L i Hi) as [x Hx].
    rewrite (nth_lookup_Some L i [] x Hx).
    etransitivity; [apply Permutation_app_comm|].
    symmetry. apply delete_Permutation. exact Hx. }
  exists st1, st2. split; [auto|]. split; [auto|].
  pose proof (batch_char_tally sid st2 st _ L Hc2 Hc Hp) as Ht.
  split; [exact (Ht StaticStatic)|]. split; [exact (Ht StaticNode)|exact (Ht DynamicNode)].
Qed.

(** Witness of C7: three GameCube batches, batch 1 removed and added back. *)
Lemma removeBatch_addBatch_counts_witness :
  Forall (valid_rows gamecube) Ex.c7_L /\ build gamecube Ex.c7_L = Some Ex.c7_st /\
  (1 < length Ex.c7_L)%nat /\
  exists st1 st2, removeBatch Ex.c7_st 1 = Some st1 /\
    addBatch st1 (nth 1 Ex.c7_L []) = Some st2 /\
    c_staticStatics (getCounts st2) = c_staticStatics (getCounts Ex.c7_st) /\
    c_staticNodes (getCounts st2) = c_staticNodes (getCounts Ex.c7_st) /\
    c_dynamicNodes (getCounts st2) = c_dynamicNodes (getCounts Ex.c7_st).
Proof.
  assert (Hv : Forall (valid_rows gamecube) Ex.c7_L)
    by (unfold Ex.c7_L, valid_rows; repeat constructor).
  assert (Hb : build gamecube Ex.c7_L = Some Ex.c7_st) by (vm_compute; reflexivity).
  assert (Hi : (1 < length Ex.c7_L)%nat) by (simpl; lia).
  split; [exact Hv|]. split; [exact Hb|]. split; [exact Hi|].
  exact (removeBatch_addBatch_counts gamecube Ex.c7_L 1 Ex.c7_st Hv Hb Hi).
Defined.

(* ===================================================================== *)
(** ** Further properties of the code *)
(* ===================================================================== *)


(** ** Hex strings *)

Lemma digits_value_acc (a : Z) (l : list Z) :
  foldl (fun acc d => acc * 16 + d) a l = a * 16 ^ Z.of_nat (length l) + digits_value l.
Proof.
  unfold digits_value. revert a. induction l as [|y l IH]; intros a; cbn [foldl length].
  - simpl. lia.
  - rewrite (IH (a * 16 + y)), (IH (0 * 16 + y)). rewrite Nat2Z.inj_succ, Z.pow_succ_r by lia. lia.
Qed.

Lemma digits_value_cons (x : Z) (l : list Z) :
  digits_value (x :: l) = x * 16 ^ Z.of_nat (length l) + digits_value l.
Proof. unfold digits_value at 1. cbn [foldl]. rewrite digits_value_acc. lia. Qed.

Lemma digits_value_zeros (k : nat) (l : list Z) :
  digits_value (repeat 0 k ++ l) = digits_value l.
Proof. induction k as [|k IH]; [reflexivity|]. cbn [repeat app]. rewrite digits_value_cons. lia. Qed.

Lemma digits_value_nonneg (l : list Z) :
  Forall (fun d => 0 <= d) l -> 0 <= digits_value l.
Proof.
  induction 1 as [|x l Hx Hl IH]; [reflexivity|]. rewrite digits_value_cons.
  pose proof (Z.pow_nonneg 16 (Z.of_nat (length l))). nia.
Qed.

Lemma digits16_spec (fuel : nat) (n : Z) (acc : list Z) :
  (0 < fuel)%nat -> 0 <= n < 16 ^ Z.of_nat fuel -> Forall (fun d => 0 <= d < 16) acc ->
  Forall (fun d => 0 <= d < 16) (digits16 fuel n acc) /\
  digits16 fuel n acc <> [] /\
  digits_value (digits16 fuel n acc) = n * 16 ^ Z.of_nat (length acc) + digits_value acc.
Proof.
  revert n acc. induction fuel as [|f IH]; intros n acc Hf Hn Hacc; [lia|].
  cbn [digits16]. destruct (n <? 16) eqn:E.
  - apply Z.ltb_lt in E. split; [constructor; [lia|exact Hacc]|].
    split; [discriminate|]. apply digits_value_cons.
  - apply Z.ltb_ge in E. rewrite Nat2Z.inj_succ, Z.pow_succ_r in Hn by lia.
    destruct f as [|f]; [simpl in Hn; lia|].
    assert (Hq : 0 <= n / 16 < 16 ^ Z.of_nat (S f)).
    { split; [apply Z.div_pos; lia|]. apply Z.div_lt_upper_bound; lia. }
    assert (Hr : 0 <= n mod 16 < 16) by (apply Z.mod_pos_bound; lia).
    destruct (IH (n / 16) (n mod 16 :: acc) ltac:(lia) Hq ltac:(constructor; [exact Hr|exact Hacc]))
      as (H1 & H2 & H3).
    split; [exact H1|]. split; [exact H2|]. rewrite H3, digits_value_cons.
    cbn [length]. rewrite Nat2Z.inj_succ, Z.pow_succ_r by lia.
    pose proof (Z.div_mod n 16 ltac:(lia)). nia.
Qed.

Lemma log2_fuel (m : Z) : 0 <= m -> m < 16 ^ Z.of_nat (S (Z.to_nat (Z.log2 m))).
Proof.
  intros Hm. rewrite Nat2Z.inj_succ, Z2Nat.id by apply Z.log2_nonneg.
  assert (H2 : m < 2 ^ Z.succ (Z.log2 m)).
  { destruct (Z.eq_dec m 0) as [->|]; [reflexivity|]. apply Z.log2_spec. lia. }
  assert (H16 : 2 ^ Z.succ (Z.log2 m) <= 16 ^ Z.succ (Z.log2 m)).
  { apply Z.pow_le_mono_l. pose proof (Z.log2_nonneg m). lia. }
  lia.
Qed.


Lemma gchar_props (d : Z) : 0 <= d < 16 ->
  hex_val (gchar d) = Some d /\ is_ws (gchar d) = false /\ is_x (gchar d) = false /\
  Ascii.eqb (gchar d) "-" = false /\ Ascii.eqb (gchar d) "+" = false.
Proof.
  intros Hd.
  assert (d = 0 \/ d = 1 \/ d = 2 \/ d = 3 \/ d = 4 \/ d = 5 \/ d = 6 \/ d = 7 \/ d = 8 \/
          d = 9 \/ d = 10 \/ d = 11 \/ d = 12 \/ d = 13 \/ d = 14 \/ d = 15) as Hc by lia.
  repeat destruct Hc as [->|Hc]; subst; vm_compute; repeat split.
Qed.

Lemma hex_val_bound (c : ascii) (d : Z) : hex_val c = Some d -> 0 <= d < 16.
Proof.
  unfold hex_val. intros H.
  destruct ((48 <=? _) && (_ <=? 57)) eqn:E1;
    [apply andb_true_iff in E1 as [Ea Eb]; apply Z.leb_le in Ea, Eb; injection H as <-; lia|].
  destruct ((97 <=? _) && (_ <=? 102)) eqn:E3;
    [apply andb_true_iff in E3 as [Ea Eb]; apply Z.leb_le in Ea, Eb; injection H as <-; lia|].
  destruct ((65 <=? _) && (_ <=? 70)) eqn:E4; [|discriminate].
  apply andb_true_iff in E4 as [Ea Eb]; apply Z.leb_le in Ea, Eb; injection H as <-; lia.
Qed.

Lemma is_hex_props (c : ascii) : is_hex c = true ->
  is_ws c = false /\ is_x c = false /\ Ascii.eqb c "-" = false /\ Ascii.eqb c "+" = false.
Proof.
  destruct c as [[] [] [] [] [] [] [] []]; vm_compute; first [discriminate | repeat split].
Qed.

Lemma hex_prefix_gchars (ds : list Z) :
  Forall (fun d => 0 <= d < 16) ds -> hex_prefix (map gchar ds) = ds.
Proof.
  induction 1 as [|d ds Hd _ IH]; [reflexivity|]. cbn [map hex_prefix].
  rewrite (proj1 (gchar_props d Hd)), IH. reflexivity.
Qed.

Lemma parseInt16_gchars (ds : list Z) :
  Forall (fun d => 0 <= d < 16) ds -> ds <> [] ->
  parseInt16 (map gchar ds) = Some (digits_value ds).
Proof.
  intros Hds Hne. destruct ds as [|d t]; [congruence|].
  pose proof (Forall_inv Hds) as Hd. destruct (gchar_props d Hd) as (_ & Hw & _ & Hm & Hp).
  unfold parseInt16. cbn [map trim_start]. rewrite Hw, Hm, Hp.
  assert (Hs : strip_0x (gchar d :: map gchar t) = gchar d :: map gchar t).
  { destruct t as [|d2 t]; [reflexivity|]. cbn [map strip_0x].
    rewrite (proj1 (proj2 (proj2 (gchar_props d2 (Forall_inv (Forall_inv_tail Hds)))))).
    rewrite andb_false_r. reflexivity. }
  rewrite Hs. change (gchar d :: map gchar t) with (map gchar (d :: t)).
  rewrite hex_prefix_gchars by exact Hds. f_equal. lia.
Qed.

(** [formatHex n 8] for [n >= 0] is ["0x"] followed by digit characters
    whose value is [n]. *)
Lemma formatHex_digits (n : Z) : 0 <= n ->
  exists ds, formatHex n 8 = "0"%char :: "x"%char :: map gchar ds /\
             Forall (fun d => 0 <= d < 16) ds /\ ds <> [] /\ digits_value ds = n.
Proof.
  intros Hn. unfold formatHex, toString16.
  rewrite (proj2 (Z.ltb_ge n 0)) by lia. rewrite Z.abs_eq by lia. cbn [app].
  destruct (digits16_spec (S (Z.to_nat (Z.log2 n))) n [] ltac:(lia)
              (conj Hn (log2_fuel n Hn)) (List.Forall_nil _)) as (H1 & H2 & H3).
  set (ds := digits16 _ n []) in *. rewrite map_map. fold gchar.
  cbn [length] in H3. rewrite Z.mul_1_r, Z.add_0_r in H3. unfold padStart. rewrite length_map.
  destruct (length ds <? 8)%nat.
  - exists (repeat 0 (8 - length ds) ++ ds). rewrite map_app, map_repeat. split; [reflexivity|].
    split; [apply Forall_app; split; [apply Forall_forall; intros x Hx; apply list_elem_of_In, repeat_spec in Hx; lia|exact H1]|].
    split; [intros Habs; apply app_eq_nil in Habs as [_ Habs]; congruence|].
    rewrite digits_value_zeros. exact H3.
  - exists ds. auto.
Qed.

Lemma trim_gchars (ds : list Z) :
  Forall (fun d => 0 <= d < 16) ds -> ds <> [] ->
  trim ("0"%char :: "x"%char :: map gchar ds) = "0"%char :: "x"%char :: map gchar ds.
Proof.
  intros Hds Hne. unfold trim. cbn [trim_start is_ws]. change (is_ws "0") with false. cbn iota.
  destruct (exists_last Hne) as (l & d & ->).
  rewrite map_app. cbn [map]. rewrite !app_comm_cons, rev_app_distr. cbn [rev app trim_start].
  rewrite (proj1 (proj2 (gchar_props d ltac:(apply Forall_app in Hds as [_ Hd]; exact (Forall_inv Hd))))).
  change (rev (gchar d :: ?X)) with (rev X ++ [gchar d]). rewrite !rev_app_distr, rev_involutive. reflexivity.
Qed.

(** [parseHex] reads back what [formatHex] writes: for every address
    [n >= 0], [parseHex(formatHex(n))] is [n]. *)
Lemma parseHex_formatHex (n : Z) : 0 <= n -> parseHex (formatHex n 8) = Some n.
Proof.
  intros Hn. destruct (formatHex_digits n Hn) as (ds & Hf & Hds & Hne & Hv).
  rewrite Hf. unfold parseHex. change (strip_0x ("0"%char :: "x"%char :: map gchar ds)) with (map gchar ds).
  rewrite parseInt16_gchars by assumption. congruence.
Qed.

(** [isValidHex] accepts every string [formatHex(n)] with [n >= 0]. *)
Lemma isValidHex_formatHex (n : Z) : 0 <= n -> isValidHex (formatHex n 8) = true.
Proof.
  intros Hn. destruct (formatHex_digits n Hn) as (ds & Hf & Hds & Hne & Hv).
  rewrite Hf. unfold isValidHex. rewrite trim_gchars by assumption.
  cbn -[hex1]. unfold hex1. rewrite bool_decide_false by (destruct ds; [congruence|discriminate]).
  cbn [negb andb]. apply orb_true_iff. left. apply forallb_forall. intros c Hc. apply in_map_iff in Hc as (d & <- & Hd).
  rewrite List.Forall_forall in Hds. unfold is_hex. rewrite (proj1 (gchar_props d (Hds d Hd))). reflexivity.
Qed.

Lemma hex1_parseInt16 (s : jstr) : hex1 s = true ->
  exists n, parseInt16 s = Some n /\ 0 <= n.
Proof.
  unfold hex1. intros H. apply andb_true_iff in H as [Hne Hall].
  destruct s as [|c t]; [discriminate|].
  assert (Hp : forall l, forallb is_hex l = true ->
            Forall (fun d => 0 <= d < 16) (hex_prefix l) /\ length (hex_prefix l) = length l).
  { induction l as [|c' l IH]; intros Hl; [split; [constructor|reflexivity]|].
    cbn [forallb] in Hl. apply andb_true_iff in Hl as [Hc' Hl]. unfold is_hex in Hc'.
    cbn [hex_prefix]. destruct (hex_val c') as [d|] eqn:E; [|discriminate].
    destruct (IH Hl) as [IH1 IH2]. split; [constructor; [exact (hex_val_bound c' d E)|exact IH1]|].
    cbn [length]. lia. }
  cbn [forallb] in Hall. apply andb_true_iff in Hall as [Hc Ht].
  destruct (is_hex_props c Hc) as (Hw & _ & Hm & Hpl).
  unfold parseInt16. cbn [trim_start]. rewrite Hw, Hm, Hpl.
  assert (Hs : strip_0x (c :: t) = c :: t).
  { destruct t as [|c2 t]; [reflexivity|]. cbn [forallb] in Ht. apply andb_true_iff in Ht as [Hc2 _].
    cbn [strip_0x]. rewrite (proj1 (proj2 (is_hex_props c2 Hc2))), andb_false_r. reflexivity. }
  rewrite Hs. assert (Hct : forallb is_hex (c :: t) = true) by (cbn [forallb]; rewrite Hc, Ht; reflexivity).
  destruct (Hp _ Hct) as [H1 H2].
  destruct (hex_prefix (c :: t)) as [|d ds] eqn:E; [discriminate|].
  exists (1 * digits_value (d :: ds)). split; [reflexivity|].
  rewrite Z.mul_1_l. apply digits_value_nonneg. eapply List.Forall_impl; [|exact H1]. intros x Hx. simpl in Hx. lia.
Qed.

(** A string that [isValidHex] accepts parses, once trimmed, with
    [parseHex] to a number (not [NaN]) that is not negative. *)
Lemma isValidHex_parseHex (s : jstr) : isValidHex s = true ->
  exists n, parseHex (trim s) = Some n /\ 0 <= n.
Proof.
  unfold isValidHex. set (t := trim s). clearbody t. intros H.
  apply andb_true_iff in H as [_ H]. apply orb_true_iff in H as [H|H].
  - destruct t as [|c0 [|c1 rest]]; try discriminate.
    apply andb_true_iff in H as [H Hr]. unfold parseHex. cbn [strip_0x]. rewrite H.
    exact (hex1_parseInt16 rest Hr).
  - unfold parseHex.
    assert (Hs : strip_0x t = t).
    { destruct t as [|c0 [|c1 rest]]; try reflexivity.
      unfold hex1 in H. apply andb_true_iff in H as [_ H]. cbn [forallb] in H.
      apply andb_true_iff in H as [_ H]. apply andb_true_iff in H as [Hc1 _].
      cbn [strip_0x]. rewrite (proj1 (proj2 (is_hex_props c1 Hc1))), andb_false_r. reflexivity. }
    rewrite Hs. exact (hex1_parseInt16 t H).
Qed.

Lemma toInt32_parity (x : Z) : toInt32 x mod 2 = x mod 2.
Proof.
  unfold toInt32. change (2 ^ 32) with 4294967296. change (2 ^ 31) with 2147483648.
  pose proof (Z.div_mod x 4294967296 ltac:(lia)).
  destruct (2147483648 <=? x mod 4294967296).
  - replace (x mod 4294967296 - 4294967296) with (x + ((- (x / 4294967296) - 1) * 2147483648) * 2) by lia.
    apply Z.mod_add. lia.
  - replace (x mod 4294967296) with (x + (- (x / 4294967296) * 2147483648) * 2) by lia.
    apply Z.mod_add. lia.
Qed.

Lemma countBits_loop_spec (k : nat) (m c : Z) : 0 <= m < 2 ^ Z.of_nat k ->
  countBits_loop k m c = c + Z.of_nat (length (List.filter (fun i => Z.testbit m (Z.of_nat i)) (seq 0 k))).
Proof.
  revert m c. induction k as [|k IH]; intros m c Hm.
  - simpl in Hm. assert (m = 0) as -> by lia. simpl. lia.
  - cbn [countBits_loop]. destruct (m =? 0) eqn:E.
    + apply Z.eqb_eq in E as ->.
      rewrite (List.filter_ext_in _ (fun _ => false)) by (intros i _; apply Z.testbit_0_l).
      clear. induction (seq 0 (S k)); simpl; lia.
    + apply Z.eqb_neq in E. rewrite Nat2Z.inj_succ, Z.pow_succ_r in Hm by lia.
      rewrite IH.
      2:{ rewrite Z.shiftr_div_pow2 by lia. split; [apply Z.div_pos; lia|]. apply Z.div_lt_upper_bound; lia. }
      cbn [seq List.filter]. rewrite <- seq_shift.
      assert (Hfm : forall l, length (List.filter (fun i => Z.testbit m (Z.of_nat i)) (map S l)) =
                              length (List.filter (fun i => Z.testbit (Z.shiftr m 1) (Z.of_nat i)) l)).
      { induction l as [|i l IHl]; [reflexivity|]. cbn [map List.filter].
        rewrite Z.shiftr_spec by lia. replace (Z.of_nat i + 1) with (Z.of_nat (S i)) by lia.
        destruct (Z.testbit m (Z.of_nat (S i))); cbn [length]; rewrite IHl; reflexivity. }
      assert (Hb : Z.land (toInt32 m) 1 = if Z.testbit m (Z.of_nat 0) then 1 else 0).
      { change (Z.of_nat 0) with 0. rewrite Z.bit0_odd, <- Zmod_odd.
        change 1 with (Z.ones 1). rewrite Z.land_ones by lia. change (2 ^ 1) with 2.
        apply toInt32_parity. }
      rewrite Hb. destruct (Z.testbit m (Z.of_nat 0)); cbn [length]; rewrite Hfm; lia.
Qed.

(** [countBits(n)] is the number of bits set among the 32 low bits of
    [n] (negative numbers in two's complement). *)
Lemma countBits_popcount (n : Z) :
  countBits n = Z.of_nat (length (List.filter (fun i => Z.testbit n (Z.of_nat i)) (seq 0 32))).
Proof.
  unfold countBits. rewrite countBits_loop_spec.
  2:{ unfold toUint32. apply Z.mod_pos_bound. lia. }
  rewrite Z.add_0_l. do 2 f_equal. apply List.filter_ext_in. intros i Hi.
  apply in_seq in Hi. unfold toUint32. apply Z.mod_pow2_bits_low. lia.
Qed.

Lemma memory_range_check_valid (s : SystemId) (v : Z) :
  (Z.land (toInt32 v) 3 =? 0) && memory_range_check (Some s) v = valid_value s v.
Proof.
  assert (Hr : forall lo hi, negb ((v <? lo) || (hi <? v)) = (lo <=? v) && (v <=? hi)).
  { intros lo hi. rewrite !Z.ltb_antisym. destruct (lo <=? v), (v <=? hi); reflexivity. }
  destruct s; unfold memory_range_check, valid_value; cbn [systems mkSys memoryRange dualRange];
    rewrite ?Hr; try reflexivity.
  destruct (Z.land (toInt32 v) (toInt32 0x80000000) =? 0); cbn [negb andb]; [destruct (_ =? 0); reflexivity|].
  reflexivity.
Qed.

Lemma obj_keys_no_index (row : CsvRow) :
  Forall (fun p : jstr * option jstr => array_index p.1 = None) row -> obj_keys row = map fst row.
Proof.
  intros H. unfold obj_keys.
  assert (H1 : omap (fun kv : jstr * option jstr => (fun i => (kv.1, i)) <$> array_index kv.1) row = []).
  { induction H as [|[k x] row Hp _ IH]; [reflexivity|]. cbn -[array_index] in Hp |- *. rewrite Hp. exact IH. }
  assert (H2 : List.filter (fun kv : jstr * option jstr => bool_decide (array_index kv.1 = None)) row = row).
  { clear H1. induction H as [|[k x] row Hp _ IH]; [reflexivity|]. cbn -[array_index] in Hp |- *.
    rewrite bool_decide_true by exact Hp. rewrite IH. reflexivity. }
  rewrite H1, H2. reflexivity.
Qed.

Lemma parseHex_trim_formatHex (n : Z) : 0 <= n ->
  parseHex (trim (formatHex n 8)) = Some n /\ formatHex n 8 <> [].
Proof.
  intros Hn. destruct (formatHex_digits n Hn) as (ds & Hf & Hds & Hne & Hv).
  rewrite Hf, trim_gchars by assumption. rewrite <- Hf. split; [apply parseHex_formatHex; exact Hn|].
  rewrite Hf. discriminate.
Qed.

(** With two column keys that are not array indexes (such as the
    ["Address"] and ["Value"] header), a row whose first two cells are
    [formatHex(a)] and [formatHex(v)], [a >= 0] and [v] a valid value of
    the system, is accepted as [{ address: a, value: v }]. *)
Theorem validateCsvRow_formatHex (ka kv : jstr) (rest : CsvRow) (s : SystemId) (a v : Z)
    (Hka : array_index ka = None) (Hkv : array_index kv = None)
    (Hne1 : ka <> []) (Hne2 : kv <> []) (Hd : ka <> kv)
    (Hrest : Forall (fun p : jstr * option jstr => array_index p.1 = None) rest)
    (Ha : 0 <= a) (Hv : valid_value s v = true) :
  validateCsvRow ((ka, Some (formatHex a 8)) :: (kv, Some (formatHex v 8)) :: rest) (Some s) = Some (a, v).
Proof.
  unfold validateCsvRow. rewrite obj_keys_no_index by (constructor; [exact Hka|constructor; [exact Hkv|exact Hrest]]).
  cbn [map fst nth_error]. rewrite !bool_decide_false by assumption. cbn [orb prop_get].
  rewrite bool_decide_true by reflexivity. rewrite (bool_decide_false (kv = ka)) by congruence.
  rewrite bool_decide_true by reflexivity.
  pose proof (valid_value_bounds s v Hv) as Hb.
  destruct (parseHex_trim_formatHex a Ha) as [Pa Na]. destruct (parseHex_trim_formatHex v ltac:(lia)) as [Pv Nv].
  rewrite !bool_decide_false by assumption. cbn [orb]. rewrite Pa, Pv.
  rewrite <- memory_range_check_valid in Hv. apply andb_true_iff in Hv as [H1 H2].
  rewrite H1, H2. reflexivity.
Qed.

Lemma validateCsvRow_formatHex_witness :
  validateCsvRow [(str_Address, Some (formatHex 0x80001000 8)); (str_Value, Some (formatHex 0x80002000 8))] (Some n64)
  = Some (0x80001000, 0x80002000).
Proof.
  apply validateCsvRow_formatHex; try reflexivity; try discriminate; try lia; constructor.
Defined.

Lemma toInt32_mod4 (x : Z) : toInt32 x mod 4 = x mod 4.
Proof.
  unfold toInt32. change (2 ^ 32) with 4294967296. change (2 ^ 31) with 2147483648.
  pose proof (Z.div_mod x 4294967296 ltac:(lia)).
  destruct (2147483648 <=? x mod 4294967296).
  - replace (x mod 4294967296 - 4294967296) with (x + ((- (x / 4294967296) - 1) * 1073741824) * 4) by lia.
    apply Z.mod_add. lia.
  - replace (x mod 4294967296) with (x + (- (x / 4294967296) * 1073741824) * 4) by lia.
    apply Z.mod_add. lia.
Qed.

Lemma valid_value_aligned (sid : SystemId) (v : Z) : valid_value sid v = true -> v mod 4 = 0.
Proof.
  unfold valid_value. intros H. apply andb_true_iff in H as [H _]. apply Z.eqb_eq in H.
  rewrite <- toInt32_mod4. change 3 with (Z.ones 2) in H. rewrite Z.land_ones in H by lia. exact H.
Qed.


Lemma getRangeIndex_from_spec (i : nat) (ranges : list Range) (a : Z) :
  (forall j, getRangeIndex_from i ranges a = Some j <->
     (i <= j)%nat /\
     (exists r, ranges !! (j - i)%nat = Some r /\ rmin r <= a <= rmax r) /\
     (forall k r, (i <= k < j)%nat -> ranges !! (k - i)%nat = Some r -> ~ (rmin r <= a <= rmax r))) /\
  (getRangeIndex_from i ranges a = None <-> Forall (fun r => ~ (rmin r <= a <= rmax r)) ranges).
Proof.
  revert i. induction ranges as [|r rs IH]; intros i; cbn [getRangeIndex_from].
  - split; [intros j; split; [discriminate|]; intros (_ & (x & Hx & _) & _); rewrite lookup_nil in Hx; discriminate|].
    split; [intros _; constructor|reflexivity].
  - destruct (IH (S i)) as [IHs IHn].
    destruct ((rmin r <=? a) && (a <=? rmax r)) eqn:E.
    + apply andb_true_iff in E as [E1 E2]. apply Z.leb_le in E1, E2. split.
      * intros j. split.
        -- intros H. injection H as <-. split; [lia|]. split.
           ++ exists r. rewrite Nat.sub_diag. split; [reflexivity|lia].
           ++ intros k x Hk. lia.
        -- intros (Hij & _ & Hno). destruct (Nat.eq_dec i j) as [->|Hne]; [reflexivity|].
           exfalso. apply (Hno i r); [lia| |lia]. rewrite Nat.sub_diag. reflexivity.
      * split; [discriminate|]. intros H. apply Forall_inv in H. lia.
    + assert (Hr : ~ (rmin r <= a <= rmax r)).
      { intros [H1 H2]. apply Z.leb_le in H1, H2. rewrite H1, H2 in E. discriminate. }
      split.
      * intros j. rewrite IHs. split.
        -- intros (Hij & (x & Hx & Hin) & Hno). split; [lia|]. split.
           ++ exists x. replace (j - i)%nat with (S (j - S i)) by lia. exact (conj Hx Hin).
           ++ intros k y Hk Hy. destruct (Nat.eq_dec k i) as [->|Hne].
              ** rewrite Nat.sub_diag in Hy. injection Hy as <-. exact Hr.
              ** apply (Hno k y); [lia|]. replace (k - i)%nat with (S (k - S i)) in Hy by lia. exact Hy.
        -- intros (Hij & (x & Hx & Hin) & Hno). destruct (Nat.eq_dec i j) as [<-|Hne].
           { rewrite Nat.sub_diag in Hx. injection Hx as <-. contradiction. }
           split; [lia|]. split.
           ++ exists x. replace (j - i)%nat with (S (j - S i)) in Hx by lia. exact (conj Hx Hin).
           ++ intros k y Hk Hy. apply (Hno k y); [lia|]. replace (k - i)%nat with (S (k - S i)) by lia. exact Hy.
      * rewrite IHn. split; [intros H; constructor; assumption|intros H; inversion H; assumption].
Qed.

(** [_getRangeIndex(ranges, address)] returns the index of the first range
    that contains the address (bounds included), and [-1] exactly when no
    range contains it. *)
Theorem getRangeIndex_first (ranges : list Range) (a : Z) :
  (forall i, getRangeIndex ranges a = Some i <->
     (exists r, ranges !! i = Some r /\ rmin r <= a <= rmax r) /\
     (forall k r, (k < i)%nat -> ranges !! k = Some r -> ~ (rmin r <= a <= rmax r))) /\
  (getRangeIndex ranges a = None <-> Forall (fun r => ~ (rmin r <= a <= rmax r)) ranges).
Proof.
  destruct (getRangeIndex_from_spec 0 ranges a) as [Hs Hn]. unfold getRangeIndex. split; [|exact Hn].
  intros i. rewrite Hs. rewrite Nat.sub_0_r. split.
  - intros (_ & H1 & H2). split; [exact H1|]. intros k r Hk Hr. apply (H2 k r); [lia|]. rewrite Nat.sub_0_r. exact Hr.
  - intros (H1 & H2). split; [lia|]. split; [exact H1|]. intros k r Hk Hr. rewrite Nat.sub_0_r in Hr. apply (H2 k r); [lia|exact Hr].
Qed.

(** For a value that is valid for its system, [getAddressRangeIndex]
    finds a range for every system except ["ds"], for which it always
    returns [-1]. *)
Theorem getAddressRangeIndex_valid (sid : SystemId) (v : Z) :
  valid_value sid v = true -> (getAddressRangeIndex sid v = None <-> sid = ds).
Proof.
  intros H. pose proof (valid_value_aligned sid v H) as Hm.
  apply Z.mod_divide in Hm; [|lia]. destruct Hm as [q ->].
  apply valid_value_range in H. unfold getAddressRangeIndex, getRangeIndex.
  destruct sid;
    lazymatch goal with
    | |- context [getRanges ?s] =>
        let x := eval vm_compute in (getRanges s) in change (getRanges s) with x
    end;
    simpl in H; cbn [getRangeIndex_from rmin rmax mkRange];
    (split; [intros Hx; revert Hx | intros Hx; first [discriminate Hx | reflexivity]]);
    leb_cases; first [discriminate | reflexivity].
Qed.

Lemma getAddressRangeIndex_valid_witness :
  valid_value wii 0x90000004 = true /\ getAddressRangeIndex wii 0x90000004 <> None.
Proof.
  split; [reflexivity|]. intros Hn.
  apply (proj1 (getAddressRangeIndex_valid wii 0x90000004 eq_refl)) in Hn. discriminate.
Defined.

Lemma getRangeIndex_from_ge (i j : nat) (ranges : list Range) (a : Z) :
  getRangeIndex_from i ranges a = Some j -> (i <= j)%nat.
Proof.
  revert i. induction ranges as [|r rs IH]; intros i H; [discriminate|]. cbn [getRangeIndex_from] in H.
  destruct (_ && _); [injection H as <-; lia|]. apply IH in H. lia.
Qed.

(** For n64, ps1, gamecube, wii and dreamcast, whose memory lies above
    [0x80000000], the first range that [getCounts()] reports ("Range 1")
    always counts 0 static nodes and 0 static statics, so the
    recommendation never carries a warning. *)
Theorem getCounts_range1_empty (st : PState) (sid : SystemId)
    (Hs : systemId st = Some sid) (Hin : In sid [n64; ps1; gamecube; wii; dreamcast]) :
  exists r rest, c_ranges (getCounts st) = r :: rest /\
    rc_staticNodes r = 0%nat /\ rc_staticStatics r = 0%nat /\
    warning (c_recommendation (getCounts st)) = None.
Proof.
  assert (Hr : exists r0 rs, getRanges sid = r0 :: rs /\ rmax r0 < rmin r0 /\
                 String.eqb (rangeMode (systems sid)) "full" = false).
  { destruct Hin as [<-|[<-|[<-|[<-|[<-|[]]]]]]; eexists; eexists;
      (split; [vm_compute; reflexivity | split; vm_compute; reflexivity]). }
  destruct Hr as (r0 & rs & Hg & Hlt & Hfull).
  assert (Hz : forall bc c m, range_tally bc c (r0 :: rs) 0 m = 0%nat).
  { intros bc c m. unfold range_tally.
    match goal with |- size (filter ?P m) = _ => assert (E0 : filter P m = ∅) end.
    { apply map_empty_filter. intros k x _ [_ Hk]. unfold getRangeIndex in Hk.
      cbn [getRangeIndex_from fst] in Hk. destruct ((rmin r0 <=? k) && (k <=? rmax r0)) eqn:E.
      + apply andb_true_iff in E as [E1 E2]. apply Z.leb_le in E1, E2. lia.
      + apply getRangeIndex_from_ge in Hk. lia. }
    rewrite E0. apply map_size_empty. }
  unfold getCounts. rewrite Hs. cbn [default from_option id]. rewrite Hg. cbn [imap].
  eexists; eexists; split; [reflexivity|]. cbn [rc_staticNodes rc_staticStatics]. rewrite !Hz.
  split; [reflexivity|]. split; [reflexivity|].
  cbn [c_recommendation]. unfold buildRecommendation. rewrite Hfull. reflexivity.
Qed.

Lemma getCounts_range1_empty_witness :
  systemId Ex.c4_st = Some gamecube /\ warning (c_recommendation (getCounts Ex.c4_st)) = None.
Proof.
  split; [vm_compute; reflexivity|].
  destruct (getCounts_range1_empty Ex.c4_st gamecube ltac:(vm_compute; reflexivity) ltac:(simpl; tauto))
    as (r & rest & _ & _ & _ & H). exact H.
Defined.

(** ** Preprocessor *)

Lemma filter_insert_fresh {A} (P : Z * A -> Prop) `{!forall x, Decision (P x)} (m : gmap Z A) (i : Z) (x : A) :
  m !! i = None ->
  size (filter P (<[i:=x]> m)) = ((if decide (P (i, x)) then 1 else 0) + size (filter P m))%nat.
Proof.
  intros Hi. rewrite map_filter_insert. destruct (decide (P (i, x))).
  - rewrite map_size_insert_None; [reflexivity|]. apply map_lookup_filter_None_2. left. exact Hi.
  - rewrite delete_id by exact Hi. reflexivity.
Qed.

(** [getCounts()]: [staticStatics + staticNodes + dynamicNodes] is
    [totalNodes]. *)
Theorem getCounts_total (st : PState) :
  (c_staticStatics (getCounts st) + c_staticNodes (getCounts st) + c_dynamicNodes (getCounts st))%nat =
  c_totalNodes (getCounts st).
Proof.
  unfold getCounts. cbn [c_staticStatics c_staticNodes c_dynamicNodes c_totalNodes].
  generalize (batchCount st) as bc. generalize (nodeMap st) as m. intros m bc. unfold tally.
  induction m as [|i x m Hi IH] using map_ind.
  - rewrite !map_filter_empty, map_size_empty. reflexivity.
  - rewrite !filter_insert_fresh by exact Hi. rewrite map_size_insert_None by exact Hi.
    cbn [snd]. destruct (classify bc x);
      repeat first [rewrite decide_True by reflexivity | rewrite decide_False by discriminate]; lia.
Qed.

Lemma batch_char_unique (sid : SystemId) (st st' : PState) (L : list Rows) :
  batch_char sid st L -> batch_char sid st' L -> st = st'.
Proof.
  intros (Hs & Hn & _ & Hk) (Hs' & Hn' & _ & Hk').
  destruct st as [s n m], st' as [s' n' m']. cbn in *. subst.
  f_equal. apply map_eq. intros k. rewrite Hk, Hk'. reflexivity.
Qed.

(** [setSystem] then one [addBatch] per batch succeeds exactly when there
    are at most [maxBatches] batches. *)
Theorem build_length (sid : SystemId) (L : list Rows) :
  build sid L <> None <-> (length L <= maxBatches)%nat.
Proof.
  induction L as [|b L IH] using rev_ind.
  - split; [intros _; unfold maxBatches; simpl; lia|discriminate].
  - unfold build. rewrite foldl_app. cbn [foldl]. fold (build sid L).
    rewrite length_app. cbn [length].
    destruct (build sid L) as [st|] eqn:E.
    + destruct (build_char sid L st E) as (Hs & Hn & _ & _).
      cbn [mbind option_bind]. unfold addBatch. rewrite Hs, Hn.
      destruct (maxBatches <=? length L)%nat eqn:El.
      * apply Nat.leb_le in El. split; [congruence|lia].
      * apply Nat.leb_gt in El. split; [lia|discriminate].
    + cbn [mbind option_bind]. split; [congruence|].
      intros Hl. exfalso. apply (proj2 IH); [lia|reflexivity].
Qed.

(** On a state built from validated batches, [removeBatch(i)] with [i] in
    range gives the state built from the same batches without batch [i];
    with [i] out of range it is refused. *)
Theorem removeBatch_build (sid : SystemId) (L : list Rows) (st : PState) (i : nat)
    (Hv : Forall (valid_rows sid) L) (Hb : build sid L = Some st) :
  removeBatch st i = if (i <? length L)%nat then build sid (delete i L) else None.
Proof.
  pose proof (build_char sid L st Hb) as Hc. destruct Hc as (Hs & Hn & Hle & Hk).
  destruct (i <? length L)%nat eqn:Ei.
  - apply Nat.ltb_lt in Ei.
    destruct (removeBatch st i) as [st1|] eqn:Er.
    2:{ unfold removeBatch in Er. rewrite Hn in Er. apply Nat.leb_gt in Ei. rewrite Ei in Er. discriminate. }
    pose proof (batch_char_remove sid st st1 L i Hv (conj Hs (conj Hn (conj Hle Hk))) Er) as H1.
    destruct (build sid (delete i L)) as [st2|] eqn:E2.
    + rewrite (batch_char_unique sid st1 st2 (delete i L) H1 (build_char _ _ _ E2)). reflexivity.
    + exfalso. apply (proj2 (build_length sid (delete i L))); [|exact E2].
      rewrite length_delete by (apply lookup_lt_is_Some_2; exact Ei). lia.
  - apply Nat.ltb_ge in Ei. unfold removeBatch. rewrite Hn. apply Nat.leb_le in Ei. rewrite Ei. reflexivity.
Qed.

Lemma removeBatch_build_witness :
  Forall (valid_rows gamecube) Ex.c7_L /\ build gamecube Ex.c7_L = Some Ex.c7_st /\
  removeBatch Ex.c7_st 1 = build gamecube (delete 1%nat Ex.c7_L).
Proof.
  assert (Hv : Forall (valid_rows gamecube) Ex.c7_L) by (repeat constructor; vm_compute; reflexivity).
  assert (Hb : build gamecube Ex.c7_L = Some Ex.c7_st) by (vm_compute; reflexivity).
  split; [exact Hv|]. split; [exact Hb|].
  rewrite (removeBatch_build gamecube Ex.c7_L Ex.c7_st 1 Hv Hb). reflexivity.
Defined.

Lemma any_nonzero_iff (n : nat) (v : list Z) :
  any_nonzero n v = true <-> exists j x, (j < n)%nat /\ v !! j = Some x /\ x <> 0.
Proof.
  unfold any_nonzero. rewrite existsb_exists. split.
  - intros (x & Hx & Hnz). apply list_elem_of_In in Hx. apply list_elem_of_lookup in Hx as [j Hj].
    apply lookup_take_Some in Hj as [Hj Hlt]. exists j, x. split; [exact Hlt|]. split; [exact Hj|].
    intros ->. discriminate.
  - intros (j & x & Hlt & Hj & Hnz). exists x. split.
    + apply list_elem_of_In. apply list_elem_of_lookup. exists j. rewrite lookup_take, decide_True by exact Hlt. exact Hj.
    + apply negb_true_iff, Z.eqb_neq. exact Hnz.
Qed.

(** In every state reached by [setSystem], [addBatch] and [removeBatch],
    [batchCount <= maxBatches], and every node's slot array has
    [maxBatches] entries, is zero from [batchCount] on, and has a
    non-zero entry among the first [batchCount]. *)
Theorem reachable_slots (st : PState) :
  p_reachable st ->
  (batchCount st <= maxBatches)%nat /\
  map_Forall (fun _ v => length v = maxBatches /\
                         Forall (fun x => x = 0) (drop (batchCount st) v) /\
                         any_nonzero (batchCount st) v = true) (nodeMap st).
Proof.
  induction 1 as [sid|st sid rows st' Hr IH Hs Hv Ha|st i st' Hr IH Hrm].
  - split; [unfold maxBatches; simpl; lia|]. apply map_Forall_empty.
  - destruct IH as [Hle Hf]. unfold addBatch in Ha. rewrite Hs in Ha.
    destruct (maxBatches <=? batchCount st)%nat eqn:E; [discriminate|]. apply Nat.leb_gt in E.
    injection Ha as <-. cbn [batchCount nodeMap mkPState]. split; [lia|].
    set (bc := batchCount st) in *. set (keep := keep_row (getSystemMask sid) rows). clearbody keep.
    assert (Hf' : map_Forall (fun _ v => length v = maxBatches /\
                    Forall (fun x => x = 0) (drop (S bc) v) /\ any_nonzero (S bc) v = true) (nodeMap st)).
    { intros k v Hk. destruct (Hf k v Hk) as (H1 & H2 & H3). split; [exact H1|]. split.
      - replace (S bc) with (bc + 1)%nat by lia. rewrite <- drop_drop.
        apply Forall_drop. exact H2.
      - apply any_nonzero_iff in H3 as (j & x & Hj & Hx & Hnz). apply any_nonzero_iff.
        exists j, x. split; [lia|]. split; assumption. }
    clear Hf. revert Hf'. generalize (nodeMap st).
    induction Hv as [|av rows Hav Hrows IHr]; intros m Hm; cbn [foldl]; [exact Hm|].
    apply IHr. unfold add_row. destruct (keep av); [|exact Hm].
    assert (Hnz : toInt32 av.2 <> 0) by exact (valid_toInt32_nonzero sid av.2 Hav).
    assert (Hins : forall v, length v = maxBatches -> Forall (fun x => x = 0) (drop (S bc) v) ->
              length (<[bc := toInt32 av.2]> v) = maxBatches /\
              Forall (fun x => x = 0) (drop (S bc) (<[bc := toInt32 av.2]> v)) /\
              any_nonzero (S bc) (<[bc := toInt32 av.2]> v) = true).
    { intros v Hl Hz. split; [rewrite length_insert; exact Hl|]. split.
      - rewrite drop_insert_lt by lia. exact Hz.
      - apply any_nonzero_iff. exists bc, (toInt32 av.2). split; [lia|]. split; [|exact Hnz].
        apply list_lookup_insert_eq. lia. }
    destruct (m !! av.1) as [slots|] eqn:Em; apply map_Forall_insert_2; try exact Hm.
    + destruct (Hm _ _ Em) as (H1 & H2 & _). exact (Hins slots H1 H2).
    + apply Hins; [rewrite length_replicate; reflexivity|]. rewrite drop_replicate. apply Forall_replicate. reflexivity.
  - destruct IH as [Hle Hf]. unfold removeBatch in Hrm.
    destruct (batchCount st <=? i)%nat eqn:E; [discriminate|]. apply Nat.leb_gt in E.
    injection Hrm as <-. cbn [batchCount nodeMap mkPState]. split; [lia|].
    intros k v Hk. apply map_lookup_filter_Some in Hk as [Hk Hnz]. cbn [snd] in Hnz.
    rewrite lookup_fmap in Hk. destruct (nodeMap st !! k) as [slots|] eqn:Em; [|discriminate].
    injection Hk as <-. destruct (Hf k slots Em) as (H1 & H2 & _).
    split; [|split; [|exact Hnz]].
    + unfold shift_slots. rewrite !length_app, length_take, length_drop, H1. cbn [length].
      unfold maxBatches in *. lia.
    + unfold shift_slots. rewrite drop_app_ge by (rewrite length_take; lia).
      rewrite length_take. rewrite drop_app_le by (rewrite length_drop; unfold maxBatches in *; lia).
      rewrite drop_drop. replace (S i + (batchCount st - 1 - i `min` length slots))%nat with (batchCount st) by (unfold maxBatches in *; lia).
      apply Forall_app. split; [exact H2|]. repeat constructor.
Qed.

Lemma c4_st_reachable : p_reachable Ex.c4_st.
Proof.
  apply (pr_add (setSystem p_reset gamecube) gamecube Ex.c4_rows);
    [apply pr_set | reflexivity | unfold valid_rows; repeat constructor | vm_compute; reflexivity].
Qed.

Lemma reachable_slots_witness :
  p_reachable Ex.c4_st /\ (batchCount Ex.c4_st <= maxBatches)%nat.
Proof.
  split; [exact c4_st_reachable | exact (proj1 (reachable_slots Ex.c4_st c4_st_reachable))].
Defined.

Lemma parseHex_formatHex_witness :
  0 <= 305419896 /\ parseHex (formatHex 305419896 8) = Some 305419896.
Proof. split; [lia | apply parseHex_formatHex; lia]. Defined.

Lemma isValidHex_formatHex_witness :
  0 <= 2147483652 /\ isValidHex (formatHex 2147483652 8) = true.
Proof. split; [lia | apply isValidHex_formatHex; lia]. Defined.

Lemma isValidHex_parseHex_witness :
  isValidHex [" "; "0"; "x"; "8"; "0"; "0"; "a"; "F"]%char = true /\
  exists n, parseHex (trim [" "; "0"; "x"; "8"; "0"; "0"; "a"; "F"]%char) = Some n /\ 0 <= n.
Proof. split; [vm_compute; reflexivity | apply isValidHex_parseHex; vm_compute; reflexivity]. Defined.

(** ** Chain walker *)

Section WalkerShape.

Variable pool : list Z.
Variable offset : Z.
Variable getVal : Z -> option Z.
Variable opts : WalkOpts.

Lemma chain_loop_shape (fuel : nat) (current : Z) (nodes ghosts visited : list Z) (tg : nat)
    (n' g' : list Z) (h : bool) :
  chain_loop pool offset getVal opts fuel current nodes ghosts visited tg = Some (n', g', h) ->
  NoDup nodes -> (forall x, In x nodes -> In x visited) -> (forall x, In x nodes -> In x pool) ->
  NoDup n' /\ (forall x, In x n' -> In x pool) /\
  exists s, n' = nodes ++ s /\ (s = [] \/ exists t, s = current :: t).
Proof.
  revert current nodes ghosts visited tg.
  induction fuel as [|fuel IH]; intros current nodes ghosts visited tg Hc Hnd Hvis Hpool;
    [discriminate|].
  simpl in Hc.
  match goal with |- ?G =>
    assert (Hstay : forall g b, Some (nodes, g, b) = Some (n', g', h) -> G) end.
  { intros g b E. injection E as <- _ _. split; [exact Hnd|]. split; [exact Hpool|].
    exists []. split; [rewrite app_nil_r; reflexivity | left; reflexivity]. }
  destruct (mem current visited) eqn:Hv; [exact (Hstay _ _ Hc)|].
  destruct (match targetPool opts with Some tp => mem current tp | None => false end);
    [exact (Hstay _ _ Hc)|].
  destruct (mem current pool) eqn:Hp; simpl in Hc; [|exact (Hstay _ _ Hc)].
  destruct (getVal current) as [val|]; [|exact (Hstay _ _ Hc)].
  apply mem_false_not_In in Hv. apply mem_In in Hp.
  assert (Hnd' : NoDup (nodes ++ [current])).
  { apply NoDup_app. repeat split; [exact Hnd | | apply NoDup_singleton].
    intros x Hx Hx'. apply list_elem_of_singleton in Hx'. subst.
    apply Hv, Hvis, list_elem_of_In, Hx. }
  assert (Hvis' : forall x, In x (nodes ++ [current]) -> In x (set_add current visited)).
  { intros x Hx. apply set_add_In. apply in_app_iff in Hx as [Hx|[->|[]]]; auto. }
  assert (Hpool' : forall x, In x (nodes ++ [current]) -> In x pool).
  { intros x Hx. apply in_app_iff in Hx as [Hx|[->|[]]]; auto. }
  match goal with |- ?G =>
    assert (Hnext : forall g b, Some (nodes ++ [current], g, b) = Some (n', g', h) -> G);
    [|assert (Hrec : forall cur g vis tg',
        chain_loop pool offset getVal opts fuel cur (nodes ++ [current]) g vis tg' = Some (n', g', h) ->
        (forall x, In x (nodes ++ [current]) -> In x vis) -> G)] end.
  { intros g b E. injection E as <- _ _. split; [exact Hnd'|]. split; [exact Hpool'|].
    exists [current]. split; [reflexivity | right; exists []; reflexivity]. }
  { intros cur g vis tg' E Hv'.
    destruct (IH _ _ _ _ _ E Hnd' Hv' Hpool') as (H1 & H2 & s & Hs & _).
    split; [exact H1|]. split; [exact H2|]. exists (current :: s).
    split; [rewrite Hs, <- app_assoc; reflexivity | right; eexists; reflexivity]. }
  destruct (mem (val + offset) pool); [exact (Hrec _ _ _ _ Hc Hvis')|].
  destruct (maxGhostNodes opts =? 0)%nat; [exact (Hnext _ _ Hc)|].
  destruct (bridge pool offset (maxGhostNodes opts) 0 (val + offset)) as [[found n]|];
    [|exact (Hnext _ _ Hc)].
  destruct (maxGhostNodes opts <? tg + n)%nat; [exact (Hnext _ _ Hc)|].
  exact (Hrec _ _ _ _ Hc Hvis').
Qed.

Lemma walk_heads_none (l : list Z) :
  foldl (walk_head pool offset getVal opts) None l = None.
Proof. induction l as [|a l IH]; [reflexivity | exact IH]. Qed.

Lemma walk_heads_origin (l : list Z) (chains eps pr chains' eps' pr' : list _) :
  foldl (walk_head pool offset getVal opts) (Some (chains, eps, pr)) l = Some (chains', eps', pr') ->
  (forall c, In c chains' -> In c chains \/
     exists a hit, ~ In a (pointedTo pool offset getVal) /\
       chain_loop pool offset getVal opts (S (length pool)) a [] [] [] 0 = Some (ch_nodes c, ch_ghosts c, hit) /\
       ch_isHead c = true /\ minChainLength opts <= Z.of_nat (length (ch_nodes c))) /\
  (forall c, In c eps' -> In c eps \/
     exists a, ~ In a (pointedTo pool offset getVal) /\
       chain_loop pool offset getVal opts (S (length pool)) a [] [] [] 0 = Some (ch_nodes c, ch_ghosts c, true) /\
       ch_isHead c = false /\ (1 <= length (ch_nodes c))%nat).
Proof.
  revert chains eps pr.
  induction l as [|a l IH]; intros chains eps pr Hf; cbn [foldl] in Hf.
  - injection Hf as <- <- <-. split; intros c Hc; left; exact Hc.
  - unfold walk_head at 2 in Hf.
    destruct (mem a pr); [exact (IH _ _ _ Hf)|].
    destruct (mem a (pointedTo pool offset getVal)) eqn:Hpt; [exact (IH _ _ _ Hf)|].
    destruct (negb (bool_decide (is_Some (getVal a)))); [exact (IH _ _ _ Hf)|].
    destruct (chain_loop pool offset getVal opts (S (length pool)) a [] [] [] 0)
      as [[[nodes ghosts] hit]|] eqn:Hc;
      [|rewrite walk_heads_none in Hf; discriminate].
    apply mem_false_not_In in Hpt.
    destruct (hit && (1 <=? length nodes)%nat) eqn:Hh.
    + apply andb_true_iff in Hh as [-> Hl]. apply Nat.leb_le in Hl.
      destruct (IH _ _ _ Hf) as [H1 H2]. split; [intros c Hin; destruct (H1 c Hin); auto|].
      intros c Hin. destruct (H2 c Hin) as [Hin'|]; [|right; assumption].
      apply in_app_iff in Hin' as [Hin'|[<-|[]]]; [left; exact Hin'|right].
      exists a. split; [exact Hpt|]. split; [exact Hc|]. split; [reflexivity|exact Hl].
    + destruct (minChainLength opts <=? Z.of_nat (length nodes)) eqn:Hm.
      * apply Z.leb_le in Hm.
        destruct (IH _ _ _ Hf) as [H1 H2]. split; [|intros c Hin; destruct (H2 c Hin); auto].
        intros c Hin. destruct (H1 c Hin) as [Hin'|]; [|right; assumption].
        apply in_app_iff in Hin' as [Hin'|[<-|[]]]; [left; exact Hin'|right].
        exists a, hit. split; [exact Hpt|]. split; [exact Hc|]. split; [reflexivity|exact Hm].
      * exact (IH _ _ _ Hf).
Qed.

End WalkerShape.

(** The chains that [walkChainsAtOffset] returns as heads are marked
    [isHead], have at least [minChainLength] nodes, no node twice, only pool
    addresses, and begin (when not empty) at an address that no pool
    address points to at this offset.  The entry-point chains are not
    marked, have at least one node and satisfy the same node conditions. *)
Theorem walkChainsAtOffset_shape (pool : list Z) (offset : Z) (getVal : Z -> option Z)
    (opts : WalkOpts) (r : WalkResult) :
  walkChainsAtOffset pool offset getVal opts = Some r ->
  Forall (fun c => ch_isHead c = true /\ minChainLength opts <= Z.of_nat (length (ch_nodes c)) /\
            NoDup (ch_nodes c) /\ Forall (fun x => In x pool) (ch_nodes c) /\
            forall x, hd_error (ch_nodes c) = Some x -> ~ In x (pointedTo pool offset getVal))
    (wr_chains r) /\
  Forall (fun c => ch_isHead c = false /\ (1 <= length (ch_nodes c))%nat /\
            NoDup (ch_nodes c) /\ Forall (fun x => In x pool) (ch_nodes c) /\
            forall x, hd_error (ch_nodes c) = Some x -> ~ In x (pointedTo pool offset getVal))
    (wr_entryPoints r).
Proof.
  unfold walkChainsAtOffset. intros Hw.
  destruct (foldl (walk_head pool offset getVal opts) (Some ([], [], [])) pool)
    as [[[chains eps] pr]|] eqn:Hf; [|discriminate].
  injection Hw as <-. cbn [wr_chains wr_entryPoints].
  destruct (walk_heads_origin pool offset getVal opts pool [] [] [] chains eps pr Hf) as [H1 H2].
  assert (Hsh : forall a nodes ghosts hit,
    chain_loop pool offset getVal opts (S (length pool)) a [] [] [] 0 = Some (nodes, ghosts, hit) ->
    ~ In a (pointedTo pool offset getVal) ->
    NoDup nodes /\ Forall (fun x => In x pool) nodes /\
    forall x, hd_error nodes = Some x -> ~ In x (pointedTo pool offset getVal)).
  { intros a nodes ghosts hit Hc Ha.
    destruct (chain_loop_shape pool offset getVal opts _ _ _ _ _ _ _ _ _ Hc
      ltac:(constructor) ltac:(intros x []) ltac:(intros x []))
      as (Hnd & Hp & s & Hs & Hs').
    split; [exact Hnd|]. split; [apply List.Forall_forall; exact Hp|].
    intros x Hx. simpl in Hs. subst nodes.
    destruct Hs' as [->|[t ->]]; [discriminate|]. injection Hx as <-. exact Ha. }
  split; apply List.Forall_forall; intros c Hin.
  - destruct (H1 c Hin) as [[]|(a & hit & Ha & Hc & Hh & Hm)].
    destruct (Hsh _ _ _ _ Hc Ha) as (? & ? & ?). auto.
  - destruct (H2 c Hin) as [[]|(a & Ha & Hc & Hh & Hm)].
    destruct (Hsh _ _ _ _ Hc Ha) as (? & ? & ?). auto.
Qed.

Lemma walkChainsAtOffset_shape_witness :
  walkChainsAtOffset [256; 512; 768] 0
    (fun a => if a =? 256 then Some 512 else if a =? 512 then Some 768
              else if a =? 768 then Some 0 else None)
    {| minChainLength := 2; maxGhostNodes := 0; targetPool := None |}
  = Some {| wr_chains := [{| ch_nodes := [256; 512; 768]; ch_ghosts := []; ch_isHead := true |}];
            wr_entryPoints := [] |} /\
  Forall (fun c => ch_isHead c = true /\ NoDup (ch_nodes c))
    [{| ch_nodes := [256; 512; 768]; ch_ghosts := []; ch_isHead := true |}].
Proof.
  assert (H : walkChainsAtOffset [256; 512; 768] 0
    (fun a => if a =? 256 then Some 512 else if a =? 512 then Some 768
              else if a =? 768 then Some 0 else None)
    {| minChainLength := 2; maxGhostNodes := 0; targetPool := None |}
  = Some {| wr_chains := [{| ch_nodes := [256; 512; 768]; ch_ghosts := []; ch_isHead := true |}];
            wr_entryPoints := [] |}) by (vm_compute; reflexivity).
  split; [exact H|].
  exact (List.Forall_impl _ (fun c Hc => conj (proj1 Hc) (proj1 (proj2 (proj2 Hc))))
           (proj1 (walkChainsAtOffset_shape _ _ _ _ _ H))).
Defined.

(** ** Dominant stride *)

Lemma assoc_get_snoc {A} (k g : Z) (n : A) (f : list (Z * A)) :
  assoc_get k (f ++ [(g, n)]) = if Z.eqb k g then Some n else assoc_get k f.
Proof.
  induction f as [|[k' v] f IH]; [reflexivity|].
  cbn [app assoc_get]. rewrite IH. destruct (Z.eqb k g); reflexivity.
Qed.

Lemma freq_fold (gs : list Z) (f : list (Z * nat)) (d : Z) :
  assoc_get d (foldl (fun f d => match assoc_get d f with
                                 | Some n => f ++ [(d, (n + 1)%nat)]
                                 | None => f ++ [(d, 1%nat)] end) f gs)
  = if (count_occ Z.eq_dec gs d =? 0)%nat then assoc_get d f
    else Some (default 0%nat (assoc_get d f) + count_occ Z.eq_dec gs d)%nat.
Proof.
  revert f. induction gs as [|g gs IH]; intros f; [reflexivity|].
  cbn [foldl]. rewrite IH.
  assert (Hs : forall k, assoc_get k (match assoc_get g f with
                                  | Some n => f ++ [(g, (n + 1)%nat)]
                                  | None => f ++ [(g, 1%nat)] end)
                = if Z.eqb k g then Some (default 0%nat (assoc_get g f) + 1)%nat else assoc_get k f).
  { intros k. destruct (assoc_get g f); rewrite assoc_get_snoc; reflexivity. }
  rewrite !Hs. cbn [count_occ].
  destruct (Z.eq_dec g d) as [<-|Hne].
  - rewrite Z.eqb_refl. destruct (count_occ Z.eq_dec gs g =? 0)%nat eqn:E; cbn.
    + apply Nat.eqb_eq in E. rewrite E. try (f_equal; lia).
    + f_equal. lia.
  - assert (E : Z.eqb d g = false) by (apply Z.eqb_neq; congruence). rewrite E. reflexivity.
Qed.

Lemma keys_fold (gs ks : list Z) (x : Z) :
  In x (foldl (fun ks d => set_add d ks) ks gs) <-> In x ks \/ In x gs.
Proof.
  revert ks. induction gs as [|g gs IH]; intros ks; cbn [foldl]; [split; [tauto | intros [H|[]]; exact H]|].
  rewrite IH, set_add_In. simpl. split; intros H; repeat destruct H as [H|H]; subst; auto.
Qed.

Lemma foldl_ext_fun {A B} (f g : A -> B -> A) (a : A) (l : list B) :
  (forall x y, f x y = g x y) -> foldl f a l = foldl g a l.
Proof.
  intros H. revert a. induction l as [|y l IH]; intros a; [reflexivity|]. cbn [foldl].
  rewrite H. apply IH.
Qed.

Lemma argmax_fold (cnt : Z -> nat) (ks : list Z) (b0 : Z) (c0 : nat) (b : Z) (c : nat) :
  foldl (fun '(best, bestCount) d =>
           let n := cnt d in
           if (bestCount <? n)%nat then (d, n) else (best, bestCount)) (b0, c0) ks = (b, c) ->
  (c0 <= c)%nat /\ (forall d, In d ks -> (cnt d <= c)%nat) /\
  ((b = b0 /\ c = c0) \/ (In b ks /\ cnt b = c)).
Proof.
  revert b0 c0. induction ks as [|k ks IH]; intros b0 c0 Hf; cbn [foldl] in Hf.
  - injection Hf as <- <-. split; [lia|]. split; [intros d []|]. left; auto.
  - destruct (c0 <? cnt k)%nat eqn:E.
    + apply Nat.ltb_lt in E. destruct (IH _ _ Hf) as (H1 & H2 & H3).
      split; [lia|]. split.
      * intros d [<-|Hd]; [lia | auto].
      * right. destruct H3 as [[-> <-]|[Hb Hc]]; split; simpl; auto.
    + apply Nat.ltb_ge in E. destruct (IH _ _ Hf) as (H1 & H2 & H3).
      split; [lia|]. split.
      * intros d [<-|Hd]; [lia | auto].
      * destruct H3 as [H3|[Hb Hc]]; [left; exact H3 | right; split; simpl; auto].
Qed.

(** The stride that [_dominantStride] returns for a chain of at least two
    nodes is one of the gaps between consecutive nodes, and no gap occurs
    more often than it. *)
Theorem dominantStride_most_frequent (nodes : list Z) :
  (2 <= length nodes)%nat ->
  let gaps := zip_with (fun a b => b - a) nodes (tl nodes) in
  In (dominantStride nodes) gaps /\
  forall g, In g gaps -> (count_occ Z.eq_dec gaps g <= count_occ Z.eq_dec gaps (dominantStride nodes))%nat.
Proof.
  intros Hlen gaps.
  assert (Hne : gaps <> []).
  { subst gaps. destruct nodes as [|x [|y t]]; simpl in *; [lia|lia|discriminate]. }
  assert (Hd : dominantStride nodes =
    (foldl (fun '(best, bestCount) d =>
              let n := count_occ Z.eq_dec gaps d in
              if (bestCount <? n)%nat then (d, n) else (best, bestCount))
           (4, 0%nat) (foldl (fun ks d => set_add d ks) [] gaps)).1).
  { unfold dominantStride. destruct nodes as [|x [|y t]]; simpl in Hlen; [lia|lia|].
    fold gaps. cbv zeta. f_equal. apply foldl_ext_fun.
    intros [best bc] d. rewrite freq_fold. cbn [assoc_get default].
    destruct (count_occ Z.eq_dec gaps d =? 0)%nat eqn:E; cbn [default Nat.add].
    - apply Nat.eqb_eq in E. rewrite E. reflexivity.
    - reflexivity. }
  rewrite Hd.
  destruct (foldl _ (4, 0%nat) _) as [b c] eqn:Hf. cbn [fst].
  destruct (argmax_fold _ _ _ _ _ _ Hf) as (_ & Hmax & Hb).
  assert (Hk : forall x, In x (foldl (fun ks d => set_add d ks) [] gaps) <-> In x gaps).
  { intros x. rewrite keys_fold. simpl. tauto. }
  destruct Hb as [[-> ->]|[Hb Hc]].
  - exfalso. destruct gaps as [|g gs] eqn:Eg; [congruence|].
    specialize (Hmax g (proj2 (Hk g) (or_introl eq_refl))).
    cbn [count_occ] in Hmax. destruct (Z.eq_dec g g); [lia | congruence].
  - apply Hk in Hb. split; [exact Hb|]. intros g Hg. rewrite Hc. apply Hmax, Hk, Hg.
Qed.

Lemma dominantStride_most_frequent_witness :
  (2 <= length [0; 8; 16; 20; 28])%nat /\ dominantStride [0; 8; 16; 20; 28] = 8 /\
  In (dominantStride [0; 8; 16; 20; 28]) (zip_with (fun a b => b - a) [0; 8; 16; 20; 28] [8; 16; 20; 28]).
Proof.
  split; [simpl; lia|]. split; [vm_compute; reflexivity|].
  exact (proj1 (dominantStride_most_frequent [0; 8; 16; 20; 28] ltac:(simpl; lia))).
Defined.

(** ** Chain conflict resolution *)

Lemma insert_by_perm {A} (cmp : A -> A -> Z) (x : A) (l : list A) :
  insert_by cmp x l ≡ₚ x :: l.
Proof.
  induction l as [|y l IH]; cbn [insert_by]; [reflexivity|].
  destruct (0 <? cmp y x); [reflexivity|]. rewrite IH. apply perm_swap.
Qed.

Lemma sort_by_perm {A} (cmp : A -> A -> Z) (l : list A) : sort_by cmp l ≡ₚ l.
Proof.
  unfold sort_by.
  assert (H : forall s, foldl (fun s x => insert_by cmp x s) s l ≡ₚ l ++ s).
  { induction l as [|x l IH]; intros s; cbn [foldl]; [reflexivity|].
    rewrite IH, insert_by_perm. symmetry. apply Permutation_middle. }
  rewrite H, app_nil_r. reflexivity.
Qed.

Lemma nat_mem_In (i : nat) (l : list nat) : nat_mem i l = true <-> In i l.
Proof.
  unfold nat_mem. rewrite existsb_exists. split.
  - intros [x [Hx E]]. apply Nat.eqb_eq in E. subst. exact Hx.
  - intros H. exists i. split; [exact H | apply Nat.eqb_refl].
Qed.

Lemma nat_set_add_In (i x : nat) (l : list nat) : In x (nat_set_add i l) <-> x = i \/ In x l.
Proof.
  unfold nat_set_add. destruct (nat_mem i l) eqn:E.
  - apply nat_mem_In in E. split; [tauto|]. intros [->|H]; assumption.
  - rewrite in_app_iff. simpl. split; [intros [H|[H|[]]]; auto|intros [H|H]; auto].
Qed.

Lemma map_nth_seq_all {A B} (f : A -> B) (l : list A) (d : A) :
  map (fun i => f (nth i l d)) (seq 0 (length l)) = map f l.
Proof.
  induction l as [|x l IH]; [reflexivity|].
  cbn [length seq map nth]. f_equal. rewrite <- seq_shift, map_map. exact IH.
Qed.

Section ResolvePerm.

Variable chains : list Chain.
Variable dc : Chain.

Local Abbreviation strip := (fun c : Chain => (ch_nodes c, ch_ghosts c)).

Local Abbreviation rinv res pr :=
  (NoDup pr /\ (forall x, In x pr -> (x < length chains)%nat) /\
   map strip res = map (fun idx => strip (nth idx chains dc)) pr).

Lemma nodeToChains_lt (node : Z) (ci : nat) :
  In ci (nodeToChains chains node) -> (ci < length chains)%nat.
Proof.
  unfold nodeToChains. intros H. apply in_concat in H as [l [Hl Hci]].
  apply list_elem_of_In, elem_of_lookup_imap_1 in Hl as (i & y & -> & Hy).
  apply in_map_iff in Hci as [_ [-> _]]. eapply lookup_lt_Some. exact Hy.
Qed.

Lemma conflicts_of_lt (i : nat) (c : Chain) (ci : nat) :
  In ci (conflicts_of chains i c) -> (ci < length chains)%nat.
Proof.
  unfold conflicts_of.
  assert (Hin : forall (l : list nat) s, (forall x, In x l -> (x < length chains)%nat) ->
    (forall x, In x s -> (x < length chains)%nat) ->
    forall x, In x (foldl (fun s ci => if Nat.eqb ci i then s else nat_set_add ci s) s l) ->
      (x < length chains)%nat).
  { induction l as [|y l IH]; intros s Hl Hs x Hx; cbn [foldl] in Hx; [auto|].
    eapply IH; [intros z Hz; apply Hl; right; exact Hz | | exact Hx].
    destruct (Nat.eqb y i); [exact Hs|].
    intros z Hz. apply nat_set_add_In in Hz as [->|Hz]; [apply Hl; left; reflexivity | auto]. }
  assert (Hout : forall (ns : list Z) s, (forall x, In x s -> (x < length chains)%nat) ->
    forall x, In x (foldl (fun s node =>
        foldl (fun s ci => if Nat.eqb ci i then s else nat_set_add ci s) s (nodeToChains chains node))
        s ns) -> (x < length chains)%nat).
  { induction ns as [|nd ns IH]; intros s Hs x Hx; cbn [foldl] in Hx; [auto|].
    eapply IH; [|exact Hx]. apply Hin; [apply nodeToChains_lt | exact Hs]. }
  apply Hout. intros x [].
Qed.

Lemma inner_fold_inv (f : list Chain * list nat -> nat * (nat * Chain) -> list Chain * list nat)
    (Hf : forall res pr rank idx ch, f (res, pr) (rank, (idx, ch)) =
       if nat_mem idx pr then (res, pr)
       else (res ++ [{| ch_nodes := ch_nodes ch; ch_ghosts := ch_ghosts ch;
                        ch_isHead := Nat.eqb rank 0 |}], nat_set_add idx pr))
    (G : list (nat * (nat * Chain))) (res pr res' pr' : list _) :
  Forall (fun e => (e.2.1 < length chains)%nat /\ strip e.2.2 = strip (nth e.2.1 chains dc)) G ->
  foldl f (res, pr) G = (res', pr') -> rinv res pr ->
  rinv res' pr' /\ (forall x, In x pr -> In x pr') /\ (forall e, In e G -> In e.2.1 pr').
Proof.
  revert res pr. induction G as [|[rank [idx ch]] G IH]; intros res pr HG Hfold Hinv;
    cbn [foldl] in Hfold.
  - injection Hfold as <- <-. split; [exact Hinv|]. split; [auto | intros e []].
  - apply Forall_cons in HG as [[Hlt Hch] HG]. cbn [fst snd] in Hlt, Hch.
    rewrite Hf in Hfold. destruct (nat_mem idx pr) eqn:Hm.
    + destruct (IH _ _ HG Hfold Hinv) as (H1 & H2 & H3).
      split; [exact H1|]. split; [exact H2|].
      intros e [<-|He]; [apply H2, nat_mem_In, Hm | auto].
    + assert (Hn : ~ In idx pr) by (intros Hi; apply nat_mem_In in Hi; congruence).
      destruct Hinv as (Hnd & Hlt' & Hmap).
      assert (Hadd : nat_set_add idx pr = pr ++ [idx]) by (unfold nat_set_add; rewrite Hm; reflexivity).
      destruct (IH _ _ HG Hfold) as (H1 & H2 & H3).
      * rewrite Hadd. split; [|split].
        -- apply NoDup_app. split; [exact Hnd|]. split; [|apply NoDup_singleton].
           intros x Hx Hx'. apply list_elem_of_singleton in Hx'. subst.
           apply Hn, list_elem_of_In, Hx.
        -- intros x Hx. apply in_app_iff in Hx as [Hx|[<-|[]]]; auto.
        -- rewrite !map_app, Hmap. cbn. rewrite <- Hch. reflexivity.
      * split; [exact H1|]. split.
        -- intros x Hx. apply H2. rewrite Hadd. apply in_app_iff. left; exact Hx.
        -- intros e [<-|He]; [|auto]. apply H2. rewrite Hadd. apply in_app_iff. right; left; reflexivity.
Qed.

Lemma resolve_step_inv (i : nat) (c : Chain) (res pr res' pr' : list _) :
  (i < length chains)%nat ->
  resolve_step chains (res, pr) (i, c) = (res', pr') -> rinv res pr ->
  rinv res' pr' /\ (forall x, In x pr -> In x pr') /\ In i pr'.
Proof.
  intros Hi Hs Hinv. unfold resolve_step in Hs.
  destruct (nat_mem i pr) eqn:Hm.
  - injection Hs as <- <-. split; [exact Hinv|]. split; [auto | apply nat_mem_In, Hm].
  - set (group := map (fun idx => (idx, nth idx chains c)) (i :: conflicts_of chains i c)) in Hs.
    set (sorted := sort_by (fun a b => chain_cmp a.2 b.2) group) in Hs.
    assert (Hgrp : Forall (fun p => (p.1 < length chains)%nat /\ strip p.2 = strip (nth p.1 chains dc)) sorted).
    { apply Forall_forall. intros p Hp. unfold sorted in Hp.
      rewrite (sort_by_perm _ group) in Hp. unfold group in Hp.
      apply list_elem_of_In, in_map_iff in Hp as [idx [<- Hidx]]. cbn [fst snd].
      assert (Hlt : (idx < length chains)%nat)
        by (destruct Hidx as [<-|Hidx]; [exact Hi | eapply conflicts_of_lt; exact Hidx]).
      split; [exact Hlt|]. rewrite (nth_indep chains c dc Hlt). reflexivity. }
    edestruct (inner_fold_inv (fun '(res, pr) '(rank, (idx, ch)) =>
              if nat_mem idx pr then (res, pr)
              else (res ++ [{| ch_nodes := ch_nodes ch; ch_ghosts := ch_ghosts ch;
                               ch_isHead := Nat.eqb rank 0 |}], nat_set_add idx pr))
      (fun res pr rank idx ch => eq_refl) (imap pair sorted) res pr res' pr')
      as (H1 & H2 & H3); [| exact Hs | exact Hinv |].
    + apply Forall_forall. intros e He. apply elem_of_lookup_imap_1 in He as (k & p & -> & Hk).
      apply list_elem_of_lookup_2 in Hk. rewrite Forall_forall in Hgrp. exact (Hgrp p Hk).
    + split; [exact H1|]. split; [exact H2|].
      assert (Hin : (i, nth i chains c) ∈ sorted).
      { unfold sorted. rewrite (sort_by_perm _ group). unfold group. left. }
      apply list_elem_of_lookup_1 in Hin as [k Hk].
      apply (H3 (k, (i, nth i chains c))). apply list_elem_of_In.
      exact (elem_of_lookup_imap_2 pair sorted _ k Hk).
Qed.

Lemma resolve_fold_inv (L : list (nat * Chain)) (res pr res' pr' : list _) :
  Forall (fun ic => (ic.1 < length chains)%nat) L ->
  foldl (resolve_step chains) (res, pr) L = (res', pr') -> rinv res pr ->
  rinv res' pr' /\ forall ic, In ic L -> In ic.1 pr'.
Proof.
  revert res pr. induction L as [|[i c] L IH]; intros res pr HL Hf Hinv; cbn [foldl] in Hf.
  - injection Hf as <- <-. split; [exact Hinv | intros ic []].
  - apply Forall_cons in HL as [Hi HL].
    destruct (resolve_step chains (res, pr) (i, c)) as [r1 p1] eqn:Hs.
    destruct (resolve_step_inv i c res pr r1 p1 Hi Hs Hinv) as (H1 & _ & H3).
    destruct (IH _ _ HL Hf H1) as [H4 H5].
    split; [exact H4|]. intros ic [<-|Hic]; [|auto].
    assert (Hmono : forall L' r p r' p', foldl (resolve_step chains) (r, p) L' = (r', p') ->
      forall x, In x p -> In x p').
    { clear. induction L' as [|[j d] L' IHL]; intros r p r' p' Hf x Hx; cbn [foldl] in Hf.
      - injection Hf as _ <-. exact Hx.
      - destruct (resolve_step chains (r, p) (j, d)) as [r2 p2] eqn:Hs.
        apply (IHL r2 p2 r' p' Hf).
        unfold resolve_step in Hs. destruct (nat_mem j p).
        + injection Hs as _ <-. exact Hx.
        + assert (Hgen : forall (G : list (nat * (nat * Chain))) r0 p0 r1 p1,
            foldl (fun '(res, pr) '(rank, (idx, ch)) =>
              if nat_mem idx pr then (res, pr)
              else (res ++ [{| ch_nodes := ch_nodes ch; ch_ghosts := ch_ghosts ch;
                               ch_isHead := Nat.eqb rank 0 |}], nat_set_add idx pr)) (r0, p0) G = (r1, p1) ->
            In x p0 -> In x p1).
          { induction G as [|[rank [idx ch]] G IHG]; intros r0 p0 r1 p1 HG Hx0; cbn [foldl] in HG.
            - injection HG as _ <-. exact Hx0.
            - destruct (nat_mem idx p0); eapply IHG; [exact HG | exact Hx0 | exact HG |].
              apply nat_set_add_In. right; exact Hx0. }
          exact (Hgen _ _ _ _ _ Hs Hx). }
    exact (Hmono L r1 p1 res' pr' Hf i H3).
Qed.

End ResolvePerm.

(** [resolveChainConflicts] neither drops nor duplicates a chain: its
    result holds the same chains as its input, each exactly once with the
    same nodes and ghosts (only [isHead] is rewritten), possibly in another
    order. *)
Theorem resolveChainConflicts_perm (chains : list Chain) :
  map (fun c => (ch_nodes c, ch_ghosts c)) (resolveChainConflicts chains)
    ≡ₚ map (fun c => (ch_nodes c, ch_ghosts c)) chains.
Proof.
  set (dc := {| ch_nodes := []; ch_ghosts := []; ch_isHead := false |}).
  assert (Hall : map (fun c => (ch_nodes c, ch_ghosts c))
                   (foldl (resolve_step chains) ([], []) (imap pair chains)).1
                 ≡ₚ map (fun c => (ch_nodes c, ch_ghosts c)) chains).
  { destruct (foldl (resolve_step chains) ([], []) (imap pair chains)) as [res pr] eqn:Hf.
    destruct (resolve_fold_inv chains dc (imap pair chains) [] [] res pr) as [(Hnd & Hlt & Hmap) Hcov].
    - apply Forall_forall. intros ic Hic. apply elem_of_lookup_imap_1 in Hic as (i & c & -> & Hc).
      eapply lookup_lt_Some. exact Hc.
    - exact Hf.
    - split; [constructor|]. split; [intros x []|reflexivity].
    - cbn [fst]. rewrite Hmap. rewrite <- (map_nth_seq_all _ chains dc).
      apply Permutation_map, NoDup_Permutation; [exact Hnd | apply NoDup_seq |].
      intros x. rewrite elem_of_seq, list_elem_of_In. split.
      + intros Hx. specialize (Hlt x Hx). lia.
      + intros [_ Hx]. cbn in Hx.
        destruct (lookup_lt_is_Some_2 chains x ltac:(lia)) as [c Hc].
        apply (Hcov (x, c)). apply list_elem_of_In.
        exact (elem_of_lookup_imap_2 pair chains c x Hc). }
  unfold resolveChainConflicts.
  destruct chains as [|c1 [|c2 rest]]; [reflexivity | reflexivity | exact Hall].
Qed.

(** ** Traversal bitmaps *)

Lemma set_add_NoDup (a : Z) (s : list Z) : NoDup s -> NoDup (set_add a s).
Proof.
  intros Hnd. destruct (mem a s) eqn:E.
  - unfold set_add. rewrite E. exact Hnd.
  - apply mem_false_not_In in E. rewrite set_add_absent by exact E.
    apply NoDup_app. split; [exact Hnd|]. split; [|apply NoDup_singleton].
    intros x Hx Hx'. apply list_elem_of_singleton in Hx'. subst.
    apply E, list_elem_of_In, Hx.
Qed.

Lemma traversal_fold (bps : list Z) (batches : list Rows) (acc : list Z) :
  let T := foldl (fun acc rows =>
             foldl (fun acc a => if mem a bps then acc else set_add a acc)
                   acc (foldl (fun ks a => set_add a ks) [] (map fst rows)))
          acc batches in
  (NoDup acc -> NoDup T) /\
  forall x, In x T <-> In x acc \/ ((exists rows, In rows batches /\ In x (map fst rows)) /\ ~ In x bps).
Proof.
  assert (Hin : forall (ks acc : list Z),
    let T := foldl (fun acc a => if mem a bps then acc else set_add a acc) acc ks in
    (NoDup acc -> NoDup T) /\ forall x, In x T <-> In x acc \/ (In x ks /\ ~ In x bps)).
  { induction ks as [|k ks IH]; intros acc0; cbn [foldl].
    - split; [auto|]. intros x. simpl. tauto.
    - destruct (mem k bps) eqn:Hk.
      + destruct (IH acc0) as [H1 H2]. split; [exact H1|]. intros x. rewrite H2.
        apply mem_In in Hk. simpl. split; [tauto|]. intros [H|[[<-|H] Hn]]; auto. contradiction.
      + destruct (IH (set_add k acc0)) as [H1 H2]. split; [intros Hnd; apply H1, set_add_NoDup, Hnd|].
        intros x. rewrite H2, set_add_In. apply mem_false_not_In in Hk. simpl.
        split; [intros [[->|H]|[H Hn]]; auto|intros [H|[[<-|H] Hn]]; auto]. }
  revert acc. induction batches as [|rows batches IH]; intros acc0; cbn [foldl].
  - split; [auto|]. intros x. split; [tauto|]. intros [H|[[r [[] _]] _]]; exact H.
  - destruct (Hin (foldl (fun ks a => set_add a ks) [] (map fst rows)) acc0) as [H1 H2].
    destruct (IH (foldl (fun acc a => if mem a bps then acc else set_add a acc) acc0
                    (foldl (fun ks a => set_add a ks) [] (map fst rows)))) as [H3 H4].
    split; [intros Hnd; apply H3, H1, Hnd|].
    intros x. rewrite H4, H2, keys_fold. simpl. split.
    + intros [[H|[[[]|H] Hn]]|[[r [Hr Hx]] Hn]]; [auto | right; split; [exists rows; auto | exact Hn] | right; split; [exists r; auto | exact Hn]].
    + intros [H|[[r [[<-|Hr] Hx]] Hn]]; [auto | left; right; split; [right; exact Hx | exact Hn] | right; split; [exists r; auto | exact Hn]].
Qed.

(** The bitmap store of [buildTraversalBitmaps] is [null] exactly when
    every address of every batch is a base pointer, and then there are no
    slots.  Otherwise it has the layout the fast path of the scanner
    reads: [slots] is not negative, the store holds each address of some
    batch that is not a base pointer exactly once (and nothing else), and
    every stored bitmap has [B * slots] words. *)
Theorem buildTraversalBitmaps_layout (sc : Scanner) (bps : list Z) :
  (store (buildTraversalBitmaps sc bps) = None <->
     forall rows a, In rows (sc_batches sc) -> In a (map fst rows) -> In a bps) /\
  0 <= slots (buildTraversalBitmaps sc bps) /\
  match store (buildTraversalBitmaps sc bps) with
  | None => slots (buildTraversalBitmaps sc bps) = 0
  | Some m =>
      NoDup (map fst m) /\
      (forall a, In a (map fst m) <->
         (exists rows, In rows (sc_batches sc) /\ In a (map fst rows)) /\ ~ In a bps) /\
      Forall (fun e => length e.2 =
                (length (sc_batches sc) * Z.to_nat (slots (buildTraversalBitmaps sc bps)))%nat) m
  end.
Proof.
  unfold buildTraversalBitmaps.
  destruct (traversal_fold bps (sc_batches sc) []) as [Hnd Hmem].
  match type of Hnd with _ -> NoDup ?X => set (T := X) in * end.
  destruct (Z.of_nat (length T) =? 0) eqn:HN; cbn [slots store].
  - split; [|split; [lia | reflexivity]]. split; [|reflexivity]. intros _ rows a Hr Ha.
    apply Z.eqb_eq in HN. destruct T as [|t T'] eqn:ET; [|simpl in HN; lia].
    destruct (mem a bps) eqn:Hb; [apply mem_In, Hb|]. apply mem_false_not_In in Hb as Hn.
    exfalso. apply (proj2 (Hmem a)). right. split; [exists rows; auto | exact Hn].
  - split.
    { split; [discriminate|]. intros Hall. exfalso.
      apply Z.eqb_neq in HN. destruct T as [|t T'] eqn:ET; [simpl in HN; lia|].
      destruct (proj1 (Hmem t) (or_introl eq_refl)) as [[]|[[rows [Hr Ht]] Hn]].
      exact (Hn (Hall rows t Hr Ht)). }
    set (usedSlots := Z.min _ _).
    assert (Hu : 0 <= usedSlots).
    { unfold usedSlots. apply Z.min_glb; [lia|].
      apply Z.div_pos; [|lia]. pose proof (Z.land_nonneg (sc_maxBreadth sc) 0xFFFFFC). lia. }
    split; [exact Hu|]. rewrite map_map. cbn [fst snd].
    rewrite map_id. split; [apply Hnd; constructor|].
    split.
    + intros a. rewrite Hmem. simpl. tauto.
    + apply List.Forall_forall. intros e He. apply in_map_iff in He as [a [<- _]]. cbn [snd].
      clearbody usedSlots. generalize (sc_batches sc) as bs. induction bs as [|rows bs IH]; [reflexivity|].
      cbn [flat_map length]. rewrite length_app, IH.
      destruct (bval rows a); [rewrite length_map, length_seq | rewrite repeat_length]; lia.
Qed.

(** ** Event bus *)

Lemma bus_no_proto (ev : gmap string (list Subscriber)) : bus_reachable ev ->
  forall k, k ∈ object_prototype_keys -> ev !! k = None.
Proof.
  induction 1 as [|ev e cb ctx ev' _ IH Hon|ev e cb ev' _ IH Hoff|ev _ IH]; intros k Hk.
  - apply lookup_empty.
  - unfold on, get_event in Hon. destruct (ev !! e) as [l|] eqn:He.
    + injection Hon as <-. rewrite lookup_insert_ne; [apply IH, Hk|].
      intros ->. rewrite IH in He by exact Hk. discriminate.
    + destruct (bool_decide (e ∈ object_prototype_keys)) eqn:Hb; [discriminate|].
      injection Hon as <-. apply bool_decide_eq_false in Hb.
      rewrite lookup_insert_ne; [apply IH, Hk|]. intros ->. contradiction.
  - unfold off, get_event in Hoff. destruct (ev !! e) as [l|] eqn:He.
    + injection Hoff as <-. rewrite lookup_insert_ne; [apply IH, Hk|].
      intros ->. rewrite IH in He by exact Hk. discriminate.
    + destruct (bool_decide (e ∈ object_prototype_keys)); [discriminate|].
      injection Hoff as <-. apply IH, Hk.
  - apply lookup_empty.
Qed.

(** On every bus built from [new EventBus()] by [on], [off] and [clear],
    the three operations [on], [off] and [emit] throw exactly for the
    event names that [{}] inherits from [Object.prototype]. *)
Theorem eventbus_prototype_names (ev : gmap string (list Subscriber)) (e : string) (cb : nat) (ctx : option nat) :
  bus_reachable ev ->
  (on ev e cb ctx = None <-> e ∈ object_prototype_keys) /\
  (off ev e cb = None <-> e ∈ object_prototype_keys) /\
  (emit ev e = None <-> e ∈ object_prototype_keys).
Proof.
  intros Hr.
  assert (Hg : get_event ev e = Inherited <-> e ∈ object_prototype_keys).
  { unfold get_event. destruct (ev !! e) eqn:He.
    - split; [discriminate|]. intros Hk. rewrite (bus_no_proto ev Hr e Hk) in He. discriminate.
    - destruct (bool_decide (e ∈ object_prototype_keys)) eqn:Hb.
      + apply bool_decide_eq_true in Hb. split; auto.
      + apply bool_decide_eq_false in Hb. split; [discriminate | contradiction]. }
  rewrite <- Hg. unfold on, off, emit.
  destruct (get_event ev e); repeat split; congruence.
Qed.

Lemma eventbus_prototype_names_witness :
  bus_reachable (<["tick" := [{| callback := 1%nat; context := None |}]]> ∅) /\
  on (<["tick" := [{| callback := 1%nat; context := None |}]]> ∅) "toString" 2 None = None.
Proof.
  assert (H : bus_reachable (<["tick" := [{| callback := 1%nat; context := None |}]]> ∅)).
  { apply (br_on ∅ "tick" 1 None); [apply br_new | reflexivity]. }
  split; [exact H|].
  apply (proj1 (eventbus_prototype_names _ "toString" 2 None H)). apply list_elem_of_In. do 10 right. left. reflexivity.
Defined.

(** [on(event, callback, context)] appends one subscriber: [emit(event)]
    then calls the earlier subscribers first, in their order, and the new
    one last; [off] of a callback that was not subscribed to that event
    undoes it, except that an event first created by this [on] stays as
    an empty list. *)
Theorem on_then_off (ev ev' : gmap string (list Subscriber)) (e : string) (cb : nat) (ctx : option nat) :
  on ev e cb ctx = Some ev' ->
  exists old, emit ev e = Some old /\
    emit ev' e = Some (old ++ [{| callback := cb; context := ctx |}]) /\
    (Forall (fun s => callback s <> cb) old -> off ev' e cb = Some (<[e := old]> ev)).
Proof.
  unfold on, off, emit, get_event. intros Hon.
  destruct (ev !! e) as [l|] eqn:He.
  - injection Hon as <-. exists l. rewrite lookup_insert_eq.
    split; [reflexivity|]. split; [reflexivity|]. intros Hf.
    rewrite insert_insert_eq, List.filter_app. cbn [List.filter callback].
    rewrite Nat.eqb_refl. cbn [negb]. rewrite app_nil_r.
    assert (Hl : List.filter (fun s => negb (Nat.eqb (callback s) cb)) l = l).
    { clear -Hf. induction Hf as [|s l' Hs _ IH]; [reflexivity|].
      cbn [List.filter]. apply Nat.eqb_neq in Hs. rewrite Hs. cbn [negb]. f_equal. exact IH. }
    rewrite Hl. reflexivity.
  - destruct (bool_decide (e ∈ object_prototype_keys)); [discriminate|].
    injection Hon as <-. exists []. rewrite lookup_insert_eq.
    split; [reflexivity|]. split; [reflexivity|]. intros _.
    rewrite insert_insert_eq. cbn [List.filter callback]. rewrite Nat.eqb_refl. reflexivity.
Qed.

Lemma on_then_off_witness :
  on ∅ "tick" 1 None = Some (<["tick" := [{| callback := 1%nat; context := None |}]]> ∅) /\
  off (<["tick" := [{| callback := 1%nat; context := None |}]]> ∅) "tick" 1 = Some (<["tick" := []]> ∅).
Proof.
  assert (H : on ∅ "tick" 1 None = Some (<["tick" := [{| callback := 1%nat; context := None |}]]> ∅))
    by reflexivity.
  split; [exact H|].
  destruct (on_then_off _ _ _ _ _ H) as (old & Hold & _ & Hoff).
  unfold emit, get_event in Hold. rewrite lookup_empty in Hold. cbn in Hold.
  injection Hold as <-. apply Hoff. constructor.
Defined.
